(** * Lead Conversation & Call-Queue Orchestration Engine

    A shallow embedding of the conversation turn processor
    ([ConversationService.processMessage]), of its two collaborators
    ([RAGService.retrieveContext], [LLMService.generateAIResponse]) and of
    the call-queue worker ([CallWorker]), followed by the properties the
    specification states about them.  Beside these, the remaining methods
    of the vector-index service ([RAGCollection]), the initialisation of
    its client ([Chroma]), the detailed health check ([Health]), the
    chunking of documents ([DocumentIngestion]) and the import of leads
    ([LeadsRoutes]) are embedded, and further properties of all of them
    are proved at the end.

    Conventions of the embedding.
    - A JavaScript string is a [string]; every [ascii] stands for one code
      unit, so [String.length] is [.length].
    - A JavaScript number is a rational [Q] where it may be fractional (the
      interest score and its delta) and a [Z] where the code only counts
      (the attempts); rounding of doubles is not modelled.
    - An [async] method is a value of the resumption monad [Proc]: a tree
      of requests to the outside world (store, vector index, model, clock,
      logger), each followed by a continuation that receives the answer or
      the exception.  [run] executes such a tree against a [World] without
      interference; [step] interleaves several of them at their [await]
      points. *)

From Stdlib Require Import ZArith QArith String Ascii DecimalString Decimal DecimalNat.
From stdpp Require Import gmap strings list sorting.

Open Scope string_scope.
Open Scope list_scope.
Set Warnings "-register-all".


(** ** JavaScript values and the string methods the services call *)

Module JS.

(** One double-quote character, for the texts that contain some. *)
Definition dq : string := String (ascii_of_nat 34) EmptyString.

(** Line feed, the line separator of template literals. *)
Definition nl : string := String (ascii_of_nat 10) EmptyString.

(** [s.includes(needle)]. *)
Fixpoint includes (needle s : string) : bool :=
  String.prefix needle s ||
  match s with
  | EmptyString => false
  | String _ s' => includes needle s'
  end.

(** White space, as far as one code unit below 256 can be one. *)
Definition is_space (c : ascii) : bool :=
  let n := nat_of_ascii c in
  ((9 <=? n)%nat && (n <=? 13)%nat) || (n =? 32)%nat || (n =? 160)%nat.

Fixpoint trimStart (s : string) : string :=
  match s with
  | EmptyString => EmptyString
  | String c s' => if is_space c then trimStart s' else s
  end.

Fixpoint trimEnd (s : string) : string :=
  match s with
  | EmptyString => EmptyString
  | String c s' =>
      match trimEnd s' with
      | EmptyString => if is_space c then EmptyString else String c EmptyString
      | r => String c r
      end
  end.

(** [s.trim()]. *)
Definition trim (s : string) : string := trimEnd (trimStart s).

(** The suffix of [s] that starts at its first opening brace. *)
Fixpoint from_first_open (s : string) : option string :=
  match s with
  | EmptyString => None
  | String c s' => if Ascii.eqb c "{" then Some s else from_first_open s'
  end.

(** The prefix of [s] that ends at its last closing brace. *)
Fixpoint through_last_close (s : string) : option string :=
  match s with
  | EmptyString => None
  | String c s' =>
      match through_last_close s' with
      | Some t => Some (String c t)
      | None => if Ascii.eqb c "}" then Some (String c EmptyString) else None
      end
  end.

(** [s.match(/\{[\s\S]*\}/)]: the match starts at the leftmost opening
    brace and, the star being greedy over every character, ends at the
    last closing brace behind it; [None] is the [null] of no match, and
    [Some m] carries [jsonMatch[0]]. *)
Definition match_braces (s : string) : option string :=
  match from_first_open s with
  | None => None
  | Some t => through_last_close t
  end.

(** [parts.join(sep)]. *)
Fixpoint join (sep : string) (parts : list string) : string :=
  match parts with
  | [] => EmptyString
  | [p] => p
  | p :: rest => p +:+ sep +:+ join sep rest
  end.

(** [s.substring(0, n)]. *)
Definition substring0 (n : nat) (s : string) : string := String.substring 0 n s.

(** A counter interpolated in a template literal. *)
Definition show_nat (n : nat) : string := NilEmpty.string_of_uint (Nat.to_uint n).

(** An integer interpolated in a template literal. *)
Definition show_Z (z : Z) : string := NilZero.string_of_int (Z.to_int z).

(** [arr.slice(-n)]: the last [n] elements. *)
Definition slice_last {A} (n : nat) (l : list A) : list A :=
  drop (length l - n) l.

(** What [JSON.parse] can produce, and [undefined] for a missing
    property. *)
Inductive value : Type :=
| Undefined
| Null
| Bool (b : bool)
| Num (q : Q)
| Str (s : string)
| Arr (items : list value)
| Obj (props : list (string * value)).

(** [typeof v]. *)
Definition typeof (v : value) : string :=
  match v with
  | Undefined => "undefined"
  | Null => "object"
  | Bool _ => "boolean"
  | Num _ => "number"
  | Str _ => "string"
  | Arr _ => "object"
  | Obj _ => "object"
  end.

(** [ToBoolean]. *)
Definition truthy (v : value) : bool :=
  match v with
  | Undefined | Null => false
  | Bool b => b
  | Num q => negb (Qeq_bool q 0)
  | Str s => negb (String.eqb s EmptyString)
  | Arr _ | Obj _ => true
  end.

(** [a && b], which yields one of its operands. *)
Definition and (a b : value) : value := if truthy a then b else a.

(** [typeof v === t]. *)
Definition typeof_is (v : value) (t : string) : value :=
  Bool (String.eqb (typeof v) t).

Fixpoint assoc (key : string) (props : list (string * value)) : value :=
  match props with
  | [] => Undefined
  | (k, v) :: rest => if String.eqb k key then v else assoc key rest
  end.

(** [v.key] on a value that is neither [null] nor [undefined]: own
    properties of an object, [undefined] for the names used here on
    anything else. *)
Definition get (v : value) (key : string) : value :=
  match v with
  | Obj props => assoc key props
  | _ => Undefined
  end.

(** Property access throws a [TypeError] on [null] and [undefined]. *)
Definition nullish (v : value) : bool :=
  match v with
  | Undefined | Null => true
  | _ => false
  end.

(** [Math.min(a, b)] and [Math.max(a, b)] on numbers. *)
Definition Math_min (a b : Q) : Q := if Qle_bool a b then a else b.
Definition Math_max (a b : Q) : Q := if Qle_bool a b then b else a.

End JS.

(** ** Data model (models/Lead.js, models/CallLog.js) *)

Abbreviation LeadId := nat (only parsing).

(** [status], the enum of the Lead schema. *)
Inductive Status : Type := pending | calling | completed | failed | no_answer.

(** [role], the enum of the transcript sub-schema. *)
Inductive Role : Type := user | assistant | system.

Definition Status_show (s : Status) : string :=
  match s with
  | pending => "pending"
  | calling => "calling"
  | completed => "completed"
  | failed => "failed"
  | no_answer => "no_answer"
  end.

Definition Role_show (r : Role) : string :=
  match r with
  | user => "user"
  | assistant => "assistant"
  | system => "system"
  end.

Definition Status_eqb (a b : Status) : bool :=
  match a, b with
  | pending, pending | calling, calling | completed, completed
  | failed, failed | no_answer, no_answer => true
  | _, _ => false
  end.

(** One transcript entry.  The entry that [processMessage] adds to the
    history it sends to the model has no [timestamp] property. *)
Record Entry : Type := mkEntry {
  role : Role;
  text : string;
  timestamp : option Z
}.

Record Lead : Type := mkLead {
  name : string;
  phone : string;
  email : string;
  status : Status;
  attempts : Z;
  interest_score : Q;
  course_interest : string;
  summary : string;
  transcript : list Entry;
  createdAt : Z
}.

Record CallLog : Type := mkCallLog {
  leadId : LeadId;
  duration : Z;
  intents : list string;
  log_objection_detected : string;
  log_handoff_required : bool;
  raw_transcript : string
}.

(** The six-field record [generateAIResponse] resolves to. *)
Record AiResult : Type := mkAiResult {
  response : string;
  intent : string;
  interest_score_delta : Q;
  course_detected : string;
  objection_detected : string;
  handoff_required : bool
}.

(** [updateData]: [$push.transcript.$each] and the fields Mongoose puts
    under [$set]; an absent property is [None]. *)
Record UpdateData : Type := mkUpdateData {
  push_transcript : list Entry;
  set_interest_score : Q;
  set_course_interest : option string;
  set_summary : option string
}.

(** A message of the chat request. *)
Record ChatMessage : Type := mkChatMessage {
  chat_role : string;
  content : string
}.

(** [queryParams] of the vector index. *)
Record QueryParams : Type := mkQueryParams {
  queryTexts : list string;
  nResults : nat;
  where_ : option (list (string * string))
}.

(** [results.documents]: absent, or one ranked list per query text. *)
Definition QueryResults := option (list (list string)).

(** What [processMessage] resolves to. *)
Record LeadView : Type := mkLeadView {
  view_id : LeadId;
  view_name : string;
  view_interest_score : Q;
  view_course_interest : string;
  view_status : Status
}.

Record Metadata : Type := mkMetadata {
  meta_intent : string;
  meta_handoff_required : bool;
  meta_objection_detected : string
}.

Record TurnResult : Type := mkTurnResult {
  turn_response : string;
  turn_lead : LeadView;
  turn_metadata : Metadata
}.

(** A hydrated Mongoose document held by the worker: the fields read from
    the store and the paths modified since the last successful save. *)
Abbreviation DocRef := nat (only parsing).

Record LeadDoc : Type := mkLeadDoc {
  doc_id : LeadId;
  doc_name : string;
  doc_email : string;
  doc_status : Status;
  doc_attempts : Z;
  modified_status : bool;
  modified_attempts : bool
}.

(** ** Requests to the outside world *)

(** [error.message] of a thrown error. *)
Abbreviation Err := string (only parsing).

Inductive Res (X : Type) : Type :=
| Ok (x : X)
| Throw (e : Err).
Arguments Ok {X} x.
Arguments Throw {X} e.

(** The module variable [chromaClient] and the fields of the service
    singletons [llmService.model], [ragService.collection] (each set or
    not) and [callWorker.isRunning]. *)
Inductive Cell : Type := cell_client | cell_model | cell_collection | cell_isRunning.

Inductive Level : Type := debug | info | warn | error.

Inductive Op : Type -> Type :=
(* the store, through Mongoose *)
| LeadFindById (id : LeadId) : Op (option Lead)
| LeadFindByIdAndUpdate (id : LeadId) (u : UpdateData) : Op (option Lead)
| LeadFindPending (limit : nat) : Op (list DocRef)
| DocSave (d : DocRef) : Op unit
| CallLogCreate (c : CallLog) : Op unit
(* the vector index *)
| ChromaGetOrCreateCollection (collectionName : string) : Op unit
| ChromaQuery (p : QueryParams) : Op QueryResults
(* the chat model *)
| ModelInvoke (messages : list ChatMessage) : Op string
(* timers and the microtask queue *)
| Sleep (ms : nat) : Op unit
| Yield : Op unit
(* synchronous: clock, random source, environment, JSON.parse, object
   fields, logger *)
| NewDate : Op Z
| RandomIndex (n : nat) : Op nat
| Getenv (var : string) : Op (option string)
| JsonParse (s : string) : Op JS.value
| Load (c : Cell) : Op bool
| Store (c : Cell) (b : bool) : Op unit
| DocRead (d : DocRef) : Op LeadDoc
| DocSetStatus (d : DocRef) (s : Status) : Op unit
| DocSetAttempts (d : DocRef) (n : Z) : Op unit
| Log (l : Level) (msg : string) : Op unit.

(** The requests at which an [await] suspends the caller. *)
Definition is_await {X} (op : Op X) : bool :=
  match op with
  | LeadFindById _ | LeadFindByIdAndUpdate _ _ | LeadFindPending _
  | DocSave _ | CallLogCreate _ | ChromaGetOrCreateCollection _
  | ChromaQuery _ | ModelInvoke _ | Sleep _ | Yield => true
  | _ => false
  end.

(** ** The resumption monad *)

Inductive Proc (A : Type) : Type :=
| Ret (a : A)
| Raise (e : Err)
| Do {X : Type} (op : Op X) (k : Res X -> Proc A).
Arguments Ret {A} a.
Arguments Raise {A} e.
Arguments Do {A X} op k.

Fixpoint bind {A B} (p : Proc A) (f : A -> Proc B) : Proc B :=
  match p with
  | Ret a => f a
  | Raise e => Raise e
  | Do op k => Do op (fun r => bind (k r) f)
  end.

(** A request whose failure is thrown at the call site. *)
Definition call {X} (op : Op X) : Proc X :=
  Do op (fun r => match r with Ok x => Ret x | Throw e => Raise e end).

(** [try { p } catch (error) { h error }]. *)
Fixpoint try_catch {A} (p : Proc A) (h : Err -> Proc A) : Proc A :=
  match p with
  | Ret a => Ret a
  | Raise e => h e
  | Do op k => Do op (fun r => try_catch (k r) h)
  end.

(** [try { p } finally { fin }]. *)
Fixpoint try_finally {A} (p : Proc A) (fin : Proc unit) : Proc A :=
  match p with
  | Ret a => bind fin (fun _ => Ret a)
  | Raise e => bind fin (fun _ => Raise e)
  | Do op k => Do op (fun r => try_finally (k r) fin)
  end.

(** [await p] for an [async] method [p]: whatever [p] settles to, the
    caller resumes in a later microtask. *)
Definition await {A} (p : Proc A) : Proc A :=
  try_catch (bind p (fun a => Do Yield (fun _ => Ret a)))
            (fun e => Do Yield (fun _ => Raise e)).

(** [for (const x of xs) { body x }]. *)
Fixpoint for_of {X} (xs : list X) (body : X -> Proc unit) : Proc unit :=
  match xs with
  | [] => Ret tt
  | x :: rest => bind (body x) (fun _ => for_of rest body)
  end.

Declare Scope proc_scope.
Delimit Scope proc_scope with proc.
Notation "x <- p ;; q" := (bind p (fun x => q))
  (at level 100, p at next level, right associativity) : proc_scope.
Notation "p ;; q" := (bind p (fun _ => q))
  (at level 100, right associativity) : proc_scope.

(** ** The world the services run in *)

(** A write the store was asked for, and the error it answered with. *)
Inductive StoreWrite : Type :=
| WriteUpdate (id : LeadId) (u : UpdateData)
| WriteSave (id : LeadId) (s : option Status) (n : option Z)
| WriteCallLog (c : CallLog).

Record StoreEvent : Type := mkStoreEvent {
  written : StoreWrite;
  write_error : option Err
}.

Record World : Type := mkWorld {
  db_leads : gmap LeadId Lead;          (* the leads collection *)
  db_calllogs : list CallLog;           (* the calllogs collection *)
  store_log : list StoreEvent;          (* writes requested, oldest first *)
  docs : list LeadDoc;                  (* documents hydrated by queries *)
  model_requests : list (list ChatMessage);   (* every model.invoke *)
  index_requests : list QueryParams;    (* every collection.query *)
  log_lines : list (Level * string);    (* the logger's output *)
  has_client : bool;                    (* chromaClient is set *)
  has_model : bool;                     (* llmService.model is set *)
  has_collection : bool;                (* ragService.collection is set *)
  isRunning : bool;                     (* callWorker.isRunning *)
  ticks : nat                           (* requests answered so far *)
}.

(** What is not decided by the code: the answers of the collaborators at
    each moment (a moment is the count of requests answered before), the
    configuration, and [JSON.parse]. *)
Record Env : Type := mkEnv {
  read_fault : nat -> option Err;       (* a store query rejects *)
  write_fault : nat -> option Err;      (* a store write rejects *)
  index_fault : nat -> option Err;      (* getOrCreateCollection rejects *)
  index_answer : nat -> QueryParams -> Res QueryResults;
  model_answer : nat -> list ChatMessage -> Res string;
  clock : nat -> Z;
  random : nat -> nat;
  getenv : string -> option string;     (* process.env *)
  JSON_parse : string -> option JS.value
}.

Definition with_db (f : gmap LeadId Lead -> gmap LeadId Lead) (w : World) : World :=
  mkWorld (f (db_leads w)) (db_calllogs w) (store_log w) (docs w)
          (model_requests w) (index_requests w) (log_lines w)
          (has_client w) (has_model w) (has_collection w) (isRunning w) (ticks w).

Definition with_calllogs (f : list CallLog -> list CallLog) (w : World) : World :=
  mkWorld (db_leads w) (f (db_calllogs w)) (store_log w) (docs w)
          (model_requests w) (index_requests w) (log_lines w)
          (has_client w) (has_model w) (has_collection w) (isRunning w) (ticks w).

Definition with_store_log (f : list StoreEvent -> list StoreEvent) (w : World) : World :=
  mkWorld (db_leads w) (db_calllogs w) (f (store_log w)) (docs w)
          (model_requests w) (index_requests w) (log_lines w)
          (has_client w) (has_model w) (has_collection w) (isRunning w) (ticks w).

Definition with_docs (f : list LeadDoc -> list LeadDoc) (w : World) : World :=
  mkWorld (db_leads w) (db_calllogs w) (store_log w) (f (docs w))
          (model_requests w) (index_requests w) (log_lines w)
          (has_client w) (has_model w) (has_collection w) (isRunning w) (ticks w).

Definition with_model_requests
    (f : list (list ChatMessage) -> list (list ChatMessage)) (w : World) : World :=
  mkWorld (db_leads w) (db_calllogs w) (store_log w) (docs w)
          (f (model_requests w)) (index_requests w) (log_lines w)
          (has_client w) (has_model w) (has_collection w) (isRunning w) (ticks w).

Definition with_index_requests
    (f : list QueryParams -> list QueryParams) (w : World) : World :=
  mkWorld (db_leads w) (db_calllogs w) (store_log w) (docs w)
          (model_requests w) (f (index_requests w)) (log_lines w)
          (has_client w) (has_model w) (has_collection w) (isRunning w) (ticks w).

Definition with_log_lines
    (f : list (Level * string) -> list (Level * string)) (w : World) : World :=
  mkWorld (db_leads w) (db_calllogs w) (store_log w) (docs w)
          (model_requests w) (index_requests w) (f (log_lines w))
          (has_client w) (has_model w) (has_collection w) (isRunning w) (ticks w).

Definition with_cell (c : Cell) (b : bool) (w : World) : World :=
  mkWorld (db_leads w) (db_calllogs w) (store_log w) (docs w)
          (model_requests w) (index_requests w) (log_lines w)
          (match c with cell_client => b | _ => has_client w end)
          (match c with cell_model => b | _ => has_model w end)
          (match c with cell_collection => b | _ => has_collection w end)
          (match c with cell_isRunning => b | _ => isRunning w end)
          (ticks w).

Definition cell (c : Cell) (w : World) : bool :=
  match c with
  | cell_client => has_client w
  | cell_model => has_model w
  | cell_collection => has_collection w
  | cell_isRunning => isRunning w
  end.

Definition tick (w : World) : World :=
  mkWorld (db_leads w) (db_calllogs w) (store_log w) (docs w)
          (model_requests w) (index_requests w) (log_lines w)
          (has_client w) (has_model w) (has_collection w) (isRunning w) (S (ticks w)).

Definition record_write (sw : StoreWrite) (e : option Err) : World -> World :=
  with_store_log (fun l => l ++ [mkStoreEvent sw e]).

(** *** The store *)

(** [findByIdAndUpdate]'s effect on the document it finds: [$push] with
    [$each] appends, [$set] overwrites the named fields only. *)
Definition apply_update (u : UpdateData) (l : Lead) : Lead :=
  mkLead (name l) (phone l) (email l) (status l) (attempts l)
         (set_interest_score u)
         (default (course_interest l) (set_course_interest u))
         (default (summary l) (set_summary u))
         (transcript l ++ push_transcript u)
         (createdAt l).

(** [save]'s effect: the modified paths only. *)
Definition apply_save (s : option Status) (n : option Z) (l : Lead) : Lead :=
  mkLead (name l) (phone l) (email l) (default (status l) s)
         (default (attempts l) n) (interest_score l) (course_interest l)
         (summary l) (transcript l) (createdAt l).

Definition hydrate (x : LeadId * Lead) : LeadDoc :=
  mkLeadDoc x.1 (name x.2) (email x.2) (status x.2) (attempts x.2) false false.

Definition older (x y : LeadId * Lead) : Prop :=
  (createdAt x.2 < createdAt y.2)%Z \/
  (createdAt x.2 = createdAt y.2 /\ (x.1 <= y.1)%nat).

#[local] Instance older_dec x y : Decision (older x y).
Proof. unfold older. apply _. Defined.

(** [Lead.find({ status: 'pending' }).sort({ createdAt: 1 }).limit(n)];
    leads created at the same instant come in the order of their ids. *)
Definition find_pending (limit : nat) (db : gmap LeadId Lead) : list (LeadId * Lead) :=
  take limit
    (merge_sort older
       (filter (fun x => Status_eqb (status x.2) pending = true) (map_to_list db))).

Definition mark_clean (d : LeadDoc) : LeadDoc :=
  mkLeadDoc (doc_id d) (doc_name d) (doc_email d) (doc_status d)
            (doc_attempts d) false false.

Definition save_request (d : LeadDoc) : StoreWrite :=
  WriteSave (doc_id d)
            (if modified_status d then Some (doc_status d) else None)
            (if modified_attempts d then Some (doc_attempts d) else None).

(** Assigning a path marks it modified when the value changes. *)
Definition assign_status (s : Status) (d : LeadDoc) : LeadDoc :=
  mkLeadDoc (doc_id d) (doc_name d) (doc_email d) s (doc_attempts d)
            (modified_status d || negb (Status_eqb s (doc_status d)))
            (modified_attempts d).

Definition assign_attempts (n : Z) (d : LeadDoc) : LeadDoc :=
  mkLeadDoc (doc_id d) (doc_name d) (doc_email d) (doc_status d) n
            (modified_status d)
            (modified_attempts d || negb (n =? doc_attempts d)%Z).

(** *** One request, answered *)

Definition exec (env : Env) {X} (op : Op X) (w : World) : Res X * World :=
  match op in Op X return Res X * World with
  | LeadFindById id =>
      match read_fault env (ticks w) with
      | Some e => (Throw e, tick w)
      | None => (Ok (db_leads w !! id), tick w)
      end
  | LeadFindByIdAndUpdate id u =>
      match write_fault env (ticks w) with
      | Some e => (Throw e, tick (record_write (WriteUpdate id u) (Some e) w))
      | None =>
          match db_leads w !! id with
          | None => (Ok None, tick (record_write (WriteUpdate id u) None w))
          | Some l =>
              let l' := apply_update u l in
              (Ok (Some l'),
               tick (record_write (WriteUpdate id u) None
                       (with_db (insert id l') w)))
          end
      end
  | LeadFindPending limit =>
      match read_fault env (ticks w) with
      | Some e => (Throw e, tick w)
      | None =>
          let found := find_pending limit (db_leads w) in
          (Ok (seq (length (docs w)) (length found)),
           tick (with_docs (fun ds => ds ++ map hydrate found) w))
      end
  | DocSave d =>
      match docs w !! d with
      | None => (Throw "save is not a function", tick w)
      | Some doc =>
          if modified_status doc || modified_attempts doc then
            match write_fault env (ticks w) with
            | Some e => (Throw e, tick (record_write (save_request doc) (Some e) w))
            | None =>
                match db_leads w !! doc_id doc with
                | None =>
                    (Throw "No document found for query",
                     tick (record_write (save_request doc)
                             (Some "No document found for query") w))
                | Some l =>
                    (Ok tt,
                     tick (record_write (save_request doc) None
                             (with_docs (fun ds => alter mark_clean d ds)
                                (with_db
                                   (insert (doc_id doc)
                                      (apply_save
                                         (if modified_status doc
                                          then Some (doc_status doc) else None)
                                         (if modified_attempts doc
                                          then Some (doc_attempts doc) else None)
                                         l)) w))))
                end
            end
          else (Ok tt, tick w)
      end
  | CallLogCreate c =>
      match write_fault env (ticks w) with
      | Some e => (Throw e, tick (record_write (WriteCallLog c) (Some e) w))
      | None =>
          (Ok tt, tick (record_write (WriteCallLog c) None
                          (with_calllogs (fun l => l ++ [c]) w)))
      end
  | ChromaGetOrCreateCollection _ =>
      match index_fault env (ticks w) with
      | Some e => (Throw e, tick w)
      | None => (Ok tt, tick w)
      end
  | ChromaQuery p =>
      (index_answer env (ticks w) p,
       tick (with_index_requests (fun l => l ++ [p]) w))
  | ModelInvoke messages =>
      (model_answer env (ticks w) messages,
       tick (with_model_requests (fun l => l ++ [messages]) w))
  | Sleep _ => (Ok tt, tick w)
  | Yield => (Ok tt, tick w)
  | NewDate => (Ok (clock env (ticks w)), tick w)
  | RandomIndex n => (Ok (random env (ticks w) `mod` n)%nat, tick w)
  | Getenv var => (Ok (getenv env var), tick w)
  | JsonParse s =>
      match JSON_parse env s with
      | Some v => (Ok v, tick w)
      | None => (Throw "Unexpected token in JSON", tick w)
      end
  | Load c => (Ok (cell c w), tick w)
  | Store c b => (Ok tt, tick (with_cell c b w))
  | DocRead d =>
      match docs w !! d with
      | None => (Throw "Cannot read properties of undefined", tick w)
      | Some doc => (Ok doc, tick w)
      end
  | DocSetStatus d s =>
      (Ok tt, tick (with_docs (fun ds => alter (assign_status s) d ds) w))
  | DocSetAttempts d n =>
      (Ok tt, tick (with_docs (fun ds => alter (assign_attempts n) d ds) w))
  | Log l msg => (Ok tt, tick (with_log_lines (fun ls => ls ++ [(l, msg)]) w))
  end.

(** *** A whole procedure, run without interference *)

Fixpoint run (env : Env) {A} (p : Proc A) (w : World) : Res A * World :=
  match p with
  | Ret a => (Ok a, w)
  | Raise e => (Throw e, w)
  | Do op k => let '(r, w') := exec env op w in run env (k r) w'
  end.

(** *** Procedures interleaved at their awaits *)

(** The synchronous stretch of [p]: everything up to its next [await]. *)
Fixpoint settle (env : Env) {A} (p : Proc A) (w : World) : Proc A * World :=
  match p with
  | Do op k =>
      if is_await op then (p, w)
      else let '(r, w') := exec env op w in settle env (k r) w'
  | _ => (p, w)
  end.

(** Calling an [async] method runs it up to its first [await] and adds it
    to the pending procedures. *)
Definition spawn (env : Env) {A} (p : Proc A)
    (c : list (Proc A) * World) : list (Proc A) * World :=
  let '(p', w') := settle env p c.2 in (c.1 ++ [p'], w').

(** One turn of the event loop: the request awaited by procedure [i] is
    answered, and that procedure runs up to its next [await]. *)
Inductive step (env : Env) {A} :
    list (Proc A) * World -> list (Proc A) * World -> Prop :=
| step_resume ps w i X (op : Op X) k r w1 p' w2 :
    ps !! i = Some (Do op k) ->
    is_await op = true ->
    exec env op w = (r, w1) ->
    settle env (k r) w1 = (p', w2) ->
    step env (ps, w) (<[i := p']> ps, w2).

Inductive steps (env : Env) {A} :
    list (Proc A) * World -> list (Proc A) * World -> Prop :=
| steps_refl c : steps env c c
| steps_step c1 c2 c3 : step env c1 c2 -> steps env c2 c3 -> steps env c1 c3.

Open Scope proc_scope.

(** ** services/rag.service.js *)

Module RAGService.

Definition no_match : string := "No relevant information found in knowledge base.".
Definition unavailable : string := "Unable to retrieve context from knowledge base.".

(** [process.env.CHROMA_COLLECTION || 'bml_admissions']. *)
Definition collectionName : Proc string :=
  v <- call (Getenv "CHROMA_COLLECTION");;
  Ret (match v with
       | Some n => if String.eqb n EmptyString then "bml_admissions" else n
       | None => "bml_admissions"
       end).

(** [getChromaClient()] of config/chroma.js. *)
Definition getChromaClient : Proc unit :=
  has <- call (Load cell_client);;
  if has then Ret tt
  else Raise "ChromaDB not initialized. Call initializeChroma() first.".

Definition initializeCollection : Proc unit :=
  try_catch
    (getChromaClient;;
     try_catch
       (n <- collectionName;;
        call (ChromaGetOrCreateCollection n);;
        call (Store cell_collection true);;
        call (Log info ("ChromaDB collection '" +:+ n +:+
                        "' initialized with native embeddings")))
       (fun e =>
          call (Log error ("Failed to initialize collection: " +:+ e));;
          Raise e);;
     Ret tt)
    (fun e =>
       call (Log error ("RAG Service Initialization Error: " +:+ e));;
       Raise e).

(** [`[Source ${idx + 1}]: ${doc}`]. *)
Definition source_line (idx : nat) (doc : string) : string :=
  "[Source " +:+ JS.show_nat (idx + 1) +:+ "]: " +:+ doc.

Definition retrieveContext (query : string) (topK : nat)
    (filter : list (string * string)) : Proc string :=
  try_catch
    (has <- call (Load cell_collection);;
     (if has then Ret tt else await initializeCollection);;
     let queryParams :=
       mkQueryParams [query] topK
         (if (0 <? length filter)%nat then Some filter else None) in
     results <- call (ChromaQuery queryParams);;
     match results with
     | None => Ret no_match
     | Some [] => Ret no_match
     | Some (first :: _) =>
         Ret (JS.join (JS.nl +:+ JS.nl) (imap source_line first))
     end)
    (fun e =>
       call (Log error ("Retrieve Context Error: " +:+ e));;
       Ret unavailable).

End RAGService.

(** ** services/llm.service.js *)

Module LLMService.

(** The system prompt up to the interpolated context. *)
Definition prompt_head : string :=
  JS.join JS.nl
    [ "You are an AI admission counselor for BML Munjal University. Your goal is to help prospective students learn about courses and guide them through the admission process.";
      EmptyString;
      "CONTEXT FROM KNOWLEDGE BASE:";
      EmptyString ].

(** The system prompt behind the interpolated context. *)
Definition prompt_tail : string :=
  JS.join JS.nl
    [ EmptyString;
      EmptyString;
      "CRITICAL INSTRUCTIONS - STRICT RAG GROUNDING:";
      "- You MUST answer ONLY using information explicitly present in the CONTEXT FROM KNOWLEDGE BASE above";
      ("- If the answer is not in the provided context, you MUST respond: " +:+ JS.dq +:+ "I don't have that information in the knowledge base. Let me connect you with a counselor." +:+ JS.dq);
      "- Do NOT use your internal knowledge or training data";
      "- Do NOT fabricate or guess: numbers, fees, placements, statistics, dates, or any factual information";
      "- Do NOT make up course details, admission requirements, or deadlines";
      "- If uncertain, request human handoff instead of guessing";
      "- Be helpful and professional, but accuracy is more important than being comprehensive";
      EmptyString;
      "ADDITIONAL INSTRUCTIONS:";
      "- Detect student intent and interest level from their questions";
      "- Identify any objections or concerns they express";
      "- Determine if human handoff is needed (complex questions, pricing details not in context, etc.)";
      "- Suggest relevant courses only if they are mentioned in the context";
      EmptyString;
      "IMPORTANT: You MUST respond with ONLY valid JSON in this exact format:";
      "{";
      ("  " +:+ JS.dq +:+ "response" +:+ JS.dq +:+ ": " +:+ JS.dq +:+ "your conversational response to the student" +:+ JS.dq +:+ ",");
      ("  " +:+ JS.dq +:+ "intent" +:+ JS.dq +:+ ": " +:+ JS.dq +:+ "information_seeking|course_inquiry|admission_process|pricing|objection|general" +:+ JS.dq +:+ ",");
      ("  " +:+ JS.dq +:+ "interest_score_delta" +:+ JS.dq +:+ ": 0,");
      ("  " +:+ JS.dq +:+ "course_detected" +:+ JS.dq +:+ ": " +:+ JS.dq +:+ "course name or empty string" +:+ JS.dq +:+ ",");
      ("  " +:+ JS.dq +:+ "objection_detected" +:+ JS.dq +:+ ": " +:+ JS.dq +:+ "objection text or empty string" +:+ JS.dq +:+ ",");
      ("  " +:+ JS.dq +:+ "handoff_required" +:+ JS.dq +:+ ": false");
      "}";
      EmptyString;
      "interest_score_delta should be:";
      "- Positive (1-3) if student shows interest";
      "- Negative (-1 to -3) if student shows disinterest";
      "- 0 if neutral";
      EmptyString;
      "Do not include any text outside the JSON object." ].

Definition systemPrompt (retrievedContext : string) : string :=
  prompt_head +:+ retrievedContext +:+ prompt_tail.

(** The record returned when no context was retrieved. *)
Definition handoff : AiResult :=
  mkAiResult
    "I don't have that information in the knowledge base. Let me connect you with a counselor who can help you better."
    "handoff" 0 EmptyString EmptyString true.

(** The record returned from the [catch] block. *)
Definition fallback : AiResult :=
  mkAiResult
    "I'm here to help you with admissions. Could you please rephrase your question?"
    "general" 0 EmptyString EmptyString false.

Definition getModel : Proc unit :=
  has <- call (Load cell_model);;
  if has then Ret tt
  else
    key <- call (Getenv "GROQ_API_KEY");;
    match key with
    | Some (String _ _) => call (Store cell_model true)
    | _ => Raise "GROQ_API_KEY environment variable is not set"
    end.

(** [msg => ({ role: msg.role === 'assistant' ? 'assistant' : 'user',
    content: msg.text })]. *)
Definition chat_message (msg : Entry) : ChatMessage :=
  mkChatMessage (match role msg with assistant => "assistant" | _ => "user" end)
                (text msg).

Definition messages_for (conversationHistory : list Entry)
    (retrievedContext : string) : list ChatMessage :=
  mkChatMessage "system" (systemPrompt retrievedContext)
  :: map chat_message conversationHistory.

(** The validation expression, operand by operand. *)
Definition isValid (parsed : JS.value) : JS.value :=
  JS.and (JS.get parsed "response")
 (JS.and (JS.typeof_is (JS.get parsed "response") "string")
 (JS.and (JS.get parsed "intent")
 (JS.and (JS.typeof_is (JS.get parsed "intent") "string")
 (JS.and (JS.typeof_is (JS.get parsed "interest_score_delta") "number")
 (JS.and (JS.typeof_is (JS.get parsed "course_detected") "string")
 (JS.and (JS.typeof_is (JS.get parsed "objection_detected") "string")
         (JS.typeof_is (JS.get parsed "handoff_required") "boolean"))))))).

Definition as_string (v : JS.value) : string :=
  match v with JS.Str s => s | _ => EmptyString end.
Definition as_number (v : JS.value) : Q :=
  match v with JS.Num q => q | _ => 0 end.
Definition as_boolean (v : JS.value) : bool :=
  match v with JS.Bool b => b | _ => false end.

(** The six properties of [parsed] that callers read, each at the type
    the validation has established. *)
Definition record_of (parsed : JS.value) : AiResult :=
  mkAiResult (as_string (JS.get parsed "response"))
             (as_string (JS.get parsed "intent"))
             (as_number (JS.get parsed "interest_score_delta"))
             (as_string (JS.get parsed "course_detected"))
             (as_string (JS.get parsed "objection_detected"))
             (as_boolean (JS.get parsed "handoff_required")).

Definition generateAIResponse (conversationHistory : list Entry)
    (retrievedContext : string) : Proc AiResult :=
  try_catch
    (if JS.includes "No relevant information found" retrievedContext ||
        JS.includes "Unable to retrieve context" retrievedContext
     then Ret handoff
     else
       let messages := messages_for conversationHistory retrievedContext in
       getModel;;
       response_content <- call (ModelInvoke messages);;
       let content := JS.trim response_content in
       match JS.match_braces content with
       | None => Raise "No JSON found in LLM response"
       | Some jsonMatch =>
           parsed <- call (JsonParse jsonMatch);;
           if JS.nullish parsed
           then Raise "Cannot read properties of null (reading 'response')"
           else if negb (JS.truthy (isValid parsed))
           then call (Log warn "LLM returned incomplete JSON structure, using fallback");;
                Raise "Invalid JSON structure from LLM"
           else Ret (record_of parsed)
       end)
    (fun e =>
       call (Log error ("LLM Service Error: " +:+ e));;
       Ret fallback).

End LLMService.

(** ** services/conversation.service.js *)

Module ConversationService.

(** [`${t.role}: ${t.text}`]. *)
Definition summary_line (t : Entry) : string :=
  Role_show (role t) +:+ ": " +:+ text t.

Definition generateSummary (recentTranscript : list Entry) : string :=
  let messages := JS.join " | " (map summary_line recentTranscript) in
  JS.substring0 500 messages.

(** [Math.max(0, Math.min(100, lead.interest_score +
    aiResult.interest_score_delta))]. *)
Definition newInterestScore (lead : Lead) (aiResult : AiResult) : Q :=
  JS.Math_max 0 (JS.Math_min 100 (interest_score lead + interest_score_delta aiResult)).

(** The update object, as assembled between the two clock reads and the
    store call. *)
Definition updateData (lead : Lead) (aiResult : AiResult)
    (conversationHistory : list Entry)
    (userMessageEntry assistantMessageEntry : Entry) : UpdateData :=
  mkUpdateData
    [userMessageEntry; assistantMessageEntry]
    (newInterestScore lead aiResult)
    (if negb (String.eqb (course_detected aiResult) EmptyString)
     then Some (course_detected aiResult) else None)
    (if (4 <? length conversationHistory)%nat
     then Some (generateSummary
                  (JS.slice_last 6 conversationHistory ++ [assistantMessageEntry]))
     else None).

Definition callLog (leadId : LeadId) (userMessage : string)
    (aiResult : AiResult) : CallLog :=
  mkCallLog leadId 0 [intent aiResult] (objection_detected aiResult)
            (handoff_required aiResult)
            ("User: " +:+ userMessage +:+ JS.nl +:+ "AI: " +:+ response aiResult).

Definition result (aiResult : AiResult) (leadId : LeadId)
    (updatedLead : Lead) : TurnResult :=
  mkTurnResult (response aiResult)
    (mkLeadView leadId (name updatedLead) (interest_score updatedLead)
                (course_interest updatedLead) (status updatedLead))
    (mkMetadata (intent aiResult) (handoff_required aiResult)
                (objection_detected aiResult)).

Definition processMessage (leadId : LeadId) (userMessage : string)
    : Proc TurnResult :=
  try_catch
    (found <- call (LeadFindById leadId);;
     match found with
     | None => Raise "Lead not found"
     | Some lead =>
         retrievedContext <- await (RAGService.retrieveContext userMessage 3 []);;
         let conversationHistory :=
           transcript lead ++ [mkEntry user userMessage None] in
         aiResult <- await (LLMService.generateAIResponse
                              conversationHistory retrievedContext);;
         t_user <- call NewDate;;
         let userMessageEntry := mkEntry user userMessage (Some t_user) in
         t_assistant <- call NewDate;;
         let assistantMessageEntry :=
           mkEntry assistant (response aiResult) (Some t_assistant) in
         updatedLead <- call (LeadFindByIdAndUpdate leadId
                                (updateData lead aiResult conversationHistory
                                   userMessageEntry assistantMessageEntry));;
         call (CallLogCreate (callLog leadId userMessage aiResult));;
         call (Log info ("Processed message for lead " +:+ JS.show_nat leadId));;
         match updatedLead with
         | None => Raise "Cannot read properties of null (reading '_id')"
         | Some updated => Ret (result aiResult leadId updated)
         end
     end)
    (fun e =>
       call (Log error ("Conversation Service Error: " +:+ e));;
       Raise e).

End ConversationService.

(** ** workers/call.worker.js *)

Module CallWorker.

(** [simulateCallOutcome(lead)]. *)
Definition simulateCallOutcome (lead : DocRef) : Proc string :=
  let outcomes := ["completed"; "no_answer"; "no_answer"; "completed"] in
  i <- call (RandomIndex (length outcomes));;
  let randomOutcome := default "undefined" (outcomes !! i) in
  call (Sleep 100);;
  Ret randomOutcome.

(** The branches on the outcome, with the status they assign. *)
Definition applyOutcome (lead : DocRef) (outcome : string) : Proc unit :=
  if String.eqb outcome "completed" then
    call (DocSetStatus lead completed)
  else if String.eqb outcome "no_answer" then
    d <- call (DocRead lead);;
    if (3 <=? doc_attempts d)%Z then
      call (DocSetStatus lead failed);;
      call (Log warn ("Lead " +:+ doc_name d +:+ " marked as failed after " +:+
                      JS.show_Z (doc_attempts d) +:+ " attempts"))
    else
      call (DocSetStatus lead pending)
  else if String.eqb outcome "failed" then
    call (DocSetStatus lead failed)
  else Ret tt.

(** The [try] block of the loop body.  [resolve] stands for
    [this.simulateCallOutcome], the method that the voice integration is
    to replace. *)
Definition attempt (resolve : DocRef -> Proc string) (lead : DocRef)
    : Proc unit :=
  call (DocSetStatus lead calling);;
  d <- call (DocRead lead);;
  call (DocSetAttempts lead (doc_attempts d + 1));;
  call (DocSave lead);;
  d <- call (DocRead lead);;
  call (Log info ("Simulated call initiated for lead: " +:+ doc_name d +:+
                  " (" +:+ doc_email d +:+ ") - Attempt " +:+
                  JS.show_Z (doc_attempts d)));;
  outcome <- await (resolve lead);;
  applyOutcome lead outcome;;
  call (DocSave lead);;
  d <- call (DocRead lead);;
  call (Log info ("Call outcome for " +:+ doc_name d +:+ ": " +:+ outcome +:+
                  " (status: " +:+ Status_show (doc_status d) +:+ ")")).

(** Its [catch] block. *)
Definition recover (lead : DocRef) (e : Err) : Proc unit :=
  d <- call (DocRead lead);;
  call (Log error ("Failed to process lead " +:+ JS.show_nat (doc_id d) +:+
                   ": " +:+ e));;
  try_catch
    (call (DocSetStatus lead failed);;
     call (DocSave lead))
    (fun saveError =>
       call (Log error ("Failed to update lead status: " +:+ saveError))).

(** The body of the loop over the fetched leads. *)
Definition processLead (resolve : DocRef -> Proc string) (lead : DocRef)
    : Proc unit :=
  try_catch (attempt resolve lead) (recover lead).

Definition processCallQueueWith (resolve : DocRef -> Proc string) : Proc unit :=
  try_catch
    (leads <- call (LeadFindPending 5);;
     if (length leads =? 0)%nat then
       call (Log debug "No pending leads in queue")
     else
       call (Log info ("Processing " +:+ JS.show_nat (length leads) +:+
                       " leads from call queue"));;
       for_of leads (processLead resolve))
    (fun e => call (Log error ("Call worker error: " +:+ e))).

Definition processCallQueue : Proc unit :=
  processCallQueueWith simulateCallOutcome.

(** The callback [start()] hands to [cron.schedule]: one firing of the
    periodic trigger. *)
Definition scheduled : Proc unit :=
  running <- call (Load cell_isRunning);;
  if running then
    call (Log debug "Call worker already running, skipping...")
  else
    call (Store cell_isRunning true);;
    try_finally
      (try_catch
         (await processCallQueue)
         (fun e => call (Log error ("Call worker execution failed: " +:+ e))))
      (call (Store cell_isRunning false)).

Definition triggerManually : Proc unit :=
  call (Log info "Manual call queue trigger");;
  await processCallQueue.

End CallWorker.

(** ** Schedules *)

(** [resume env i c]: the event loop answers the request awaited by
    procedure [i]; a procedure that awaits nothing is left alone. *)
Definition resume (env : Env) {A} (i : nat)
    (c : list (Proc A) * World) : list (Proc A) * World :=
  match c.1 !! i with
  | Some (Do op k) =>
      if is_await op then
        let '(r, w1) := exec env op c.2 in
        let '(p', w2) := settle env (k r) w1 in
        (<[i := p']> c.1, w2)
      else c
  | _ => c
  end.

(** The procedures resumed in the given order. *)
Definition schedule (env : Env) {A} (order : list nat)
    (c : list (Proc A) * World) : list (Proc A) * World :=
  fold_left (fun c i => resume env i c) order c.

(** ** Footprints *)

(** [never bad p]: whatever the world answers, [p] issues no request that
    [bad] singles out. *)
Fixpoint never {A} (bad : forall X, Op X -> bool) (p : Proc A) : Prop :=
  match p with
  | Do op k => bad _ op = false /\ forall r, never bad (k r)
  | _ => True
  end.

Definition is_store_write {X} (op : Op X) : bool :=
  match op with
  | LeadFindByIdAndUpdate _ _ | DocSave _ | CallLogCreate _ => true
  | _ => false
  end.

Definition is_model_invoke {X} (op : Op X) : bool :=
  match op with
  | ModelInvoke _ => true
  | _ => false
  end.

Definition is_doc_change {X} (op : Op X) : bool :=
  match op with
  | LeadFindPending _ | DocSave _ | DocSetStatus _ _ | DocSetAttempts _ _ => true
  | _ => false
  end.

(** An update that would store a score outside of the scale. *)
Definition is_unclamped_update {X} (op : Op X) : bool :=
  match op with
  | LeadFindByIdAndUpdate _ u =>
      negb (Qle_bool 0 (set_interest_score u) && Qle_bool (set_interest_score u) 100)
  | _ => false
  end.

(** The transcript entries that the answered request [op] has appended to
    lead [id], one chunk per update. *)
Definition pushed (id : LeadId) {X} (op : Op X) : Res X -> list (list Entry) :=
  match op in Op X return Res X -> list (list Entry) with
  | LeadFindByIdAndUpdate id' u =>
      fun r =>
        match r with
        | Ok (Some _) => if (id' =? id)%nat then [push_transcript u] else []
        | _ => []
        end
  | _ => fun _ => []
  end.

(** [appends id post epost chunks p]: on every path of [p], whatever the
    world answers, the chunks appended to lead [id] so far ([chunks]) and
    from here on satisfy [post] where [p] returns and [epost] where it
    throws. *)
Fixpoint appends (id : LeadId) {A}
    (post : list (list Entry) -> A -> Prop)
    (epost : list (list Entry) -> Err -> Prop)
    (chunks : list (list Entry)) (p : Proc A) : Prop :=
  match p with
  | Ret a => post chunks a
  | Raise e => epost chunks e
  | Do op k => forall r, appends id post epost (chunks ++ pushed id op r) (k r)
  end.

(** Two sequences merged, each in its own order. *)
Inductive merged {T} : list T -> list T -> list T -> Prop :=
| merged_nil : merged [] [] []
| merged_left x a b g : merged a b g -> merged (x :: a) b (x :: g)
| merged_right x a b g : merged a b g -> merged a (x :: b) (x :: g).

Definition transcript_of (w : World) (id : LeadId) : list Entry :=
  match db_leads w !! id with
  | Some l => transcript l
  | None => []
  end.

(** The two entries a turn appends. *)
Definition turn_entries (userMessage : string) (out : TurnResult)
    (t_user t_assistant : Z) : list Entry :=
  [mkEntry user userMessage (Some t_user);
   mkEntry assistant (turn_response out) (Some t_assistant)].

(** ** The specification's vocabulary *)

(** The outcome table of the scheduler, row by row. *)
Definition outcome_table (outcome : string) (attempts_now : Z) : option Status :=
  if String.eqb outcome "completed" then Some completed
  else if String.eqb outcome "no_answer" then
    if (3 <=? attempts_now)%Z then Some failed else Some pending
  else if String.eqb outcome "failed" then Some failed
  else None.

(** All six fields present, each with its primitive type. *)
Definition six_fields_typed (parsed : JS.value) : bool :=
  String.eqb (JS.typeof (JS.get parsed "response")) "string" &&
  String.eqb (JS.typeof (JS.get parsed "intent")) "string" &&
  String.eqb (JS.typeof (JS.get parsed "interest_score_delta")) "number" &&
  String.eqb (JS.typeof (JS.get parsed "course_detected")) "string" &&
  String.eqb (JS.typeof (JS.get parsed "objection_detected")) "string" &&
  String.eqb (JS.typeof (JS.get parsed "handoff_required")) "boolean".

(** [clamp(x, lo, hi)]. *)
Definition clamp (x lo hi : Q) : Q :=
  if Qle_bool x lo then lo else if Qle_bool hi x then hi else x.

(** A procedure that leaves documents and store as they are. *)
Definition quiet (env : Env) {A} (p : Proc A) : Prop :=
  forall w,
    docs (run env p w).2 = docs w /\
    db_leads (run env p w).2 = db_leads w /\
    store_log (run env p w).2 = store_log w.

(** ** The stages of a turn *)

(** The statements of [processMessage] behind the generation step. *)
Definition persist (leadId : LeadId) (userMessage : string) (lead : Lead)
    (aiResult : AiResult) : Proc TurnResult :=
  let conversationHistory := transcript lead ++ [mkEntry user userMessage None] in
  t_user <- call NewDate;;
  let userMessageEntry := mkEntry user userMessage (Some t_user) in
  t_assistant <- call NewDate;;
  let assistantMessageEntry :=
    mkEntry assistant (response aiResult) (Some t_assistant) in
  updatedLead <- call (LeadFindByIdAndUpdate leadId
                         (ConversationService.updateData lead aiResult conversationHistory
                            userMessageEntry assistantMessageEntry));;
  call (CallLogCreate (ConversationService.callLog leadId userMessage aiResult));;
  call (Log info ("Processed message for lead " +:+ JS.show_nat leadId));;
  match updatedLead with
  | None => Raise "Cannot read properties of null (reading '_id')"
  | Some updated => Ret (ConversationService.result aiResult leadId updated)
  end.

Definition rethrow (e : Err) : Proc TurnResult :=
  call (Log error ("Conversation Service Error: " +:+ e));;
  Raise e.


(** ** Worlds and environments for the worked examples *)

Module Example.

(** [JSON.parse], known on the listed texts only. *)
Fixpoint parse_from (table : list (string * JS.value)) (s : string) : option JS.value :=
  match table with
  | [] => None
  | (t, v) :: rest => if String.eqb t s then Some v else parse_from rest s
  end.

Definition env_with
    (index : Res QueryResults) (model : Res string)
    (table : list (string * JS.value)) : Env :=
  mkEnv (fun _ => None) (fun _ => None) (fun _ => None)
        (fun _ _ => index) (fun _ _ => model)
        (fun t => Z.of_nat t) (fun _ => 1%nat)
        (fun var => if String.eqb var "GROQ_API_KEY" then Some "gsk" else None)
        (parse_from table).

Definition ann : Lead :=
  mkLead "Ann" "9000000001" "ann@example.org" pending 0 0
         EmptyString EmptyString [] 0.

(** One lead, number 7, and the vector index client connected. *)
Definition world_of (l : Lead) : World :=
  mkWorld {[ 7%nat := l ]} [] [] [] [] [] [] true false false false 0.

(** The index answers without a ranked list, the model is not needed. *)
Definition env_no_match : Env := env_with (Ok (Some [])) (Throw "unused") [].

(** The JSON text of an integer or of a half ([n/2] is [5n] tenths,
    written with an exponent). *)
Definition show_number (q : Q) : string :=
  match Qden q with
  | 1%positive => JS.show_Z (Qnum q)
  | 2%positive => JS.show_Z (5 * Qnum q) +:+ "e-1"
  | _ => "null"
  end.

(** The text of a flat record, as a model would write it. *)
Definition show_field (kv : string * JS.value) : string :=
  JS.dq +:+ kv.1 +:+ JS.dq +:+ ": " +:+
  match kv.2 with
  | JS.Str s => JS.dq +:+ s +:+ JS.dq
  | JS.Bool true => "true"
  | JS.Bool false => "false"
  | JS.Num q => show_number q
  | _ => "null"
  end.

Definition show_record (props : list (string * JS.value)) : string :=
  "{" +:+ JS.join ", " (map show_field props) +:+ "}".

(** The model answers with the text of [reply], some prose around it, and
    [JSON.parse] reads that text back. *)
Definition env_chat (reply : list (string * JS.value)) : Env :=
  env_with (Ok (Some [["Fees are listed in the brochure."; "Hostel is optional."]]))
           (Ok ("Here is my answer: " +:+ show_record reply +:+ " "))
           [(show_record reply, JS.Obj reply)].

Definition reply_with (delta : Q) : list (string * JS.value) :=
  [("response", JS.Str "The fee is listed in the brochure.");
   ("intent", JS.Str "pricing");
   ("interest_score_delta", JS.Num delta);
   ("course_detected", JS.Str "B.Tech");
   ("objection_detected", JS.Str EmptyString);
   ("handoff_required", JS.Bool false)].

(** A reply without the [objection_detected] field. *)
Definition reply_incomplete : list (string * JS.value) :=
  [("response", JS.Str "The fee is listed in the brochure.");
   ("intent", JS.Str "pricing");
   ("interest_score_delta", JS.Num 1);
   ("course_detected", JS.Str "B.Tech");
   ("handoff_required", JS.Bool false)].

(** What the turn on the message below returns in [world_of ann] under
    [env_chat (reply_with 2)]. *)
Definition fees_question : string := "What are the fees?".

Definition fees_result : TurnResult :=
  mkTurnResult "The fee is listed in the brochure."
    (mkLeadView 7 "Ann" 2 "B.Tech" pending)
    (mkMetadata "pricing" false EmptyString).

(** Ann after [n] unanswered calls, and her document as a queue pass has
    just fetched it. *)
Definition ann_called (n : Z) : Lead :=
  mkLead "Ann" "9000000001" "ann@example.org" pending n 0
         EmptyString EmptyString [] 0.

Definition fetched (l : Lead) : World :=
  with_docs (fun _ => [hydrate (7%nat, l)]) (world_of l).

(** What is stored for lead 7 after the periodic trigger has fired once,
    every call going unanswered ([random] picks [outcomes[1]]). *)
Definition after_unanswered_pass (l : Lead) : option (Status * Z) :=
  (fun l' => (status l', attempts l')) <$>
  db_leads (run env_no_match CallWorker.scheduled (world_of l)).2 !! 7%nat.

(** The vector index rejects every query. *)
Definition env_index_down : Env :=
  env_with (Throw "connect ECONNREFUSED 127.0.0.1:8000") (Throw "unused") [].

(** Ann with two exchanges on record: a transcript of four entries. *)
Definition ann_talked : Lead :=
  mkLead "Ann" "9000000001" "ann@example.org" pending 1 4
         EmptyString EmptyString
         [mkEntry user "Hello" (Some 1%Z);
          mkEntry assistant "Hello Ann, how can I help?" (Some 2%Z);
          mkEntry user "Do you offer B.Tech?" (Some 3%Z);
          mkEntry assistant "Yes, B.Tech is offered." (Some 4%Z)]
         0.

(** The index answers the query with one ranked list, and that list is
    empty: nothing matched. *)
Definition env_nothing_matched : Env :=
  env_with (Ok (Some [[]]))
           (Ok ("Here is my answer: " +:+ show_record (reply_with 1) +:+ " "))
           [(show_record (reply_with 1), JS.Obj (reply_with 1))].

(** The store rejects every write. *)
Definition env_store_down : Env :=
  mkEnv (fun _ => None) (fun _ => Some "write rejected") (fun _ => None)
        (fun _ _ => Ok (Some [])) (fun _ _ => Throw "unused")
        (fun t => Z.of_nat t) (fun _ => 1%nat) (fun _ => None) (fun _ => None).

(** The document the worker holds for lead 7 after a pass during which the
    store rejects every write. *)
Definition after_rejected_pass (l : Lead) : option (Status * Z) :=
  (fun d => (doc_status d, doc_attempts d)) <$>
  docs (run env_store_down CallWorker.scheduled (world_of l)).2 !! 0%nat.

(** The store rejects one write, the one asked for when [k] requests
    have been answered, and accepts every other. *)
Definition env_store_hiccup (k : nat) : Env :=
  mkEnv (fun _ => None)
        (fun t => if (t =? k)%nat then Some "write rejected" else None)
        (fun _ => None)
        (fun _ _ => Ok (Some [])) (fun _ _ => Throw "unused")
        (fun t => Z.of_nat t) (fun _ => 1%nat) (fun _ => None) (fun _ => None).

(** What is stored for lead 7 after the periodic trigger has fired once,
    the call going unanswered and the store rejecting the save of its
    outcome (the sixteenth request of the firing) but accepting the save
    of the [catch] block. *)
Definition after_interrupted_pass (l : Lead) : option (Status * Z) :=
  (fun l' => (status l', attempts l')) <$>
  db_leads (run (env_store_hiccup 15) CallWorker.scheduled (world_of l)).2 !! 7%nat.

End Example.

(** ** Invariants and observations of the properties *)

(** The invariant of two procedures running side by side: the chunks each
    has appended to lead [id] are accounted for, and the stored transcript
    is the initial one followed by those chunks, merged. *)
Definition side_by_side (id : LeadId) (initial : list Entry) {A}
    (post1 post2 : list (list Entry) -> A -> Prop)
    (c : list (Proc A) * World) : Prop :=
  exists p1 p2 chunks1 chunks2 all,
    c.1 = [p1; p2] /\
    appends id post1 (fun _ _ => True) chunks1 p1 /\
    appends id post2 (fun _ _ => True) chunks2 p2 /\
    merged chunks1 chunks2 all /\
    transcript_of c.2 id = initial ++ concat all.

(** A queue pass that has been started and awaits its query. *)
Definition pass_started {A} (p : Proc A) : bool :=
  match p with
  | Do (LeadFindPending _) _ => true
  | _ => false
  end.

Definition finished {A} (p : Proc A) : bool :=
  match p with
  | Ret _ => true
  | _ => false
  end.

Definition is_call_to (id : LeadId) (ev : StoreEvent) : bool :=
  match written ev with
  | WriteSave id' (Some calling) _ => (id' =? id)%nat
  | _ => false
  end.

(** The requests to save lead [id] as [calling]: the calls placed. *)
Definition calls_placed (id : LeadId) (w : World) : nat :=
  length (filter (fun ev => is_call_to id ev = true) (store_log w)).

(** Every stored interest score lies on the scale. *)
Definition scores_in_range (w : World) : Prop :=
  forall id l, db_leads w !! id = Some l ->
    (0 <= interest_score l)%Q /\ (interest_score l <= 100)%Q.

(** Procedures called one after the other. *)
Definition spawn_all (env : Env) {A} (ps : list (Proc A))
    (c : list (Proc A) * World) : list (Proc A) * World :=
  fold_left (fun c p => spawn env p c) ps c.

(** The score after a run of turns with the given deltas. *)
Definition score_after (start : Q) (deltas : list Q) : Q :=
  fold_left (fun s d => JS.Math_max 0 (JS.Math_min 100 (s + d))) deltas start.

(** ** The reentrancy guard and the queue pass, observed *)

(** A store to [callWorker.isRunning]. *)
Definition is_flag_store {X} (op : Op X) : bool :=
  match op with
  | Store cell_isRunning _ => true
  | _ => false
  end.

(** [this.isRunning = false]. *)
Definition is_release {X} (op : Op X) : bool :=
  match op with
  | Store cell_isRunning false => true
  | _ => false
  end.

(** A procedure that has neither returned nor thrown. *)
Definition awaiting {A} (p : Proc A) : bool :=
  match p with
  | Do _ _ => true
  | _ => false
  end.

(** [releases p]: on every path, whatever the world answers, [p] leaves
    [isRunning] alone until it stores [false] in it, and ends right
    behind that store. *)
Fixpoint releases {A} (p : Proc A) : Prop :=
  match p with
  | Do op k =>
      if is_release op then forall r, awaiting (k r) = false
      else is_flag_store op = false /\ forall r, releases (k r)
  | _ => False
  end.

(** The event loop at work beside procedures that arrive at any moment,
    each of them satisfying [P]. *)
Inductive beside (env : Env) {A} (P : Proc A -> Prop) :
    list (Proc A) * World -> list (Proc A) * World -> Prop :=
| beside_refl c : beside env P c c
| beside_step c1 c2 c3 :
    step env c1 c2 -> beside env P c2 c3 -> beside env P c1 c3
| beside_arrival p c1 c3 :
    P p -> beside env P (spawn env p c1) c3 -> beside env P c1 c3.

(** The invariant of the guard: the pass the periodic trigger has started
    is the first procedure; [isRunning] is set exactly while it awaits. *)
Definition guard_held (c : list (Proc unit) * World) : Prop :=
  exists p0 rest,
    c.1 = p0 :: rest /\ Forall (never (@is_flag_store)) rest /\
    ((awaiting p0 = true /\ releases p0 /\ isRunning c.2 = true) \/
     (awaiting p0 = false /\ isRunning c.2 = false)).

(** A request that changes a lead, or a document other than document
    [ref]. *)
Definition is_foreign_to (ref : DocRef) {X} (op : Op X) : bool :=
  match op with
  | DocSetStatus d _ | DocSetAttempts d _ | DocSave d => negb (d =? ref)%nat
  | LeadFindPending _ | LeadFindByIdAndUpdate _ _ => true
  | _ => false
  end.

(** What the worker's loop body makes of a stored pending lead [l]: the
    call is counted and the status is the one the outcome calls for; or,
    a write having been rejected, the lead is as it was, or is counted
    and left [calling] or [failed]. *)
Definition attempted (env : Env) (l l' : Lead) : Prop :=
  (exists s,
      l' = apply_save (Some s) (Some (attempts l + 1)%Z) l /\
      (s = completed \/
       (s = failed /\ (3 <= attempts l + 1)%Z) \/
       (s = pending /\ (attempts l + 1 < 3)%Z))) \/
  ((exists t e, write_fault env t = Some e) /\
   (l' = l \/
    l' = apply_save (Some calling) (Some (attempts l + 1)%Z) l \/
    l' = apply_save (Some failed) (Some (attempts l + 1)%Z) l)).

(** The documents beside [ref] and the leads beside the one [ref] is a
    document of are out of reach of the loop body. *)
Definition beside_ref (ref : DocRef) (id : LeadId) (w0 w : World) : Prop :=
  length (docs w) = length (docs w0) /\
  (forall j, j <> ref -> docs w !! j = docs w0 !! j) /\
  (forall id', id' <> id -> db_leads w !! id' = db_leads w0 !! id') /\
  (doc_id <$> docs w !! ref = Some id).

(** No lead has been called more than three times, and one that is
    still to be called has been called less often. *)
Definition within_retries (w : World) : Prop :=
  forall id l, db_leads w !! id = Some l ->
    (attempts l <= 3)%Z /\ (status l = pending -> (attempts l < 3)%Z).

(** No stored lead is in the middle of a call. *)
Definition none_calling (w : World) : Prop :=
  forall id l, db_leads w !! id = Some l -> status l <> calling.

(** A save of lead [id] as [calling] that the store accepted.  The worker
    places the call right behind it: the log line and the outcome
    resolver follow without a test in between. *)
Definition is_call_made (id : LeadId) (ev : StoreEvent) : bool :=
  is_call_to id ev &&
  match write_error ev with
  | None => true
  | Some _ => false
  end.

(** The calls made to lead [id]. *)
Definition calls_made (id : LeadId) (w : World) : nat :=
  length (filter (fun ev => is_call_made id ev = true) (store_log w)).

(** The world after [n] queue passes run one after the other, as the
    periodic trigger runs them. *)
Fixpoint after_passes (env : Env) (resolve : DocRef -> Proc string)
    (n : nat) (w : World) : World :=
  match n with
  | O => w
  | S n => after_passes env resolve n
             (run env (CallWorker.processCallQueueWith resolve) w).2
  end.

(** The worker at work on document [ref] of lead [id], started in [w]:
    nothing but that document and that lead differs from [w], and
    [events] are the writes asked for since. *)
Definition held (w : World) (ref : DocRef) (id : LeadId) (d : LeadDoc) (l : Lead)
    (events : list StoreEvent) (w' : World) : Prop :=
  docs w' = <[ref := d]> (docs w) /\
  db_leads w' = <[id := l]> (db_leads w) /\
  store_log w' = store_log w ++ events.

(** What the loop body makes of the pending lead [l] of number [id],
    fetched as document [ref], with an outcome resolver [resolve]: [e1] is
    the answer of the store to the save of status [calling], [l'] the lead
    stored in the end.  Either the [try] block ended normally, and the
    status is the one the outcome table gives for the outcome the
    resolver returned on that document; or a write was rejected or the
    resolver threw, and the lead is as it was, or counted and left
    [calling] or [failed]. *)
Definition processed (env : Env) (resolve : DocRef -> Proc string)
    (ref : DocRef) (id : LeadId) (l : Lead) (e1 : option Err) (l' : Lead) : Prop :=
  let n := (attempts l + 1)%Z in
  (e1 = None /\
   exists outcome w2 d2,
     docs w2 !! ref = Some d2 /\ doc_id d2 = id /\
     (run env (resolve ref) w2).1 = Ok outcome /\
     l' = apply_save (Some (default calling (outcome_table outcome n))) (Some n) l) \/
  (((exists t e, write_fault env t = Some e) \/
    (exists w2 d2 e,
       docs w2 !! ref = Some d2 /\ doc_id d2 = id /\
       (run env (resolve ref) w2).1 = Throw e)) /\
   match e1 with
   | Some _ => l' = l \/ l' = apply_save (Some failed) (Some n) l
   | None =>
       l' = apply_save (Some calling) (Some n) l \/
       l' = apply_save (Some failed) (Some n) l
   end).

(** A query of the vector index. *)
Definition is_index_query {X} (op : Op X) : bool :=
  match op with
  | ChromaQuery _ => true
  | _ => false
  end.

(** An assignment to a field of a service singleton or to the module
    variable of the index client. *)
Definition is_cell_store {X} (op : Op X) : bool :=
  match op with
  | Store _ _ => true
  | _ => false
  end.

(** ** config/chroma.js, the initialisation *)

Module Chroma.

(** [initializeChroma()].  The constructor records the address
    [process.env.CHROMA_URL || 'http://localhost:8000'] and sends nothing;
    the module variable is assigned before the heartbeat is awaited.
    [heartbeat] stands for [chromaClient.heartbeat()], a request of the
    client library to the index. *)
Definition initializeChroma (heartbeat : Proc unit) : Proc unit :=
  try_catch
    (call (Getenv "CHROMA_URL");;
     call (Store cell_client true);;
     await heartbeat;;
     call (Log info "ChromaDB connected successfully"))
    (fun e =>
       call (Log error ("ChromaDB Connection Error: " +:+ e));;
       Raise e).

End Chroma.

(** ** services/rag.service.js, the methods beside retrieval *)

Module RAGCollection.

(** [a || b], which yields one of its operands. *)
Definition or (a b : JS.value) : JS.value := if JS.truthy a then a else b.

(** A document handed to [addDocuments]; a property that is absent is
    [JS.Undefined]. *)
Record Document : Type := mkDocument {
  pageContent : JS.value;
  text : JS.value;
  metadata : JS.value
}.

(** The argument of [collection.add]. *)
Record AddRequest : Type := mkAddRequest {
  ids : list string;
  documents : list JS.value;
  metadatas : list JS.value
}.

Record AddResult : Type := mkAddResult {
  success : bool;
  count : nat
}.

Record Stats : Type := mkStats {
  stats_collectionName : string;
  documentCount : nat
}.

(** [`doc_${Date.now()}_${idx}`]. *)
Definition doc_id_of (now : Z) (idx : nat) : string :=
  "doc_" +:+ JS.show_Z now +:+ "_" +:+ JS.show_nat idx.

(** [documents.map((_, idx) => `doc_${Date.now()}_${idx}`)], from index
    [idx] on: the clock is read once per document. *)
Fixpoint ids_from (idx : nat) (docs : list Document) : Proc (list string) :=
  match docs with
  | [] => Ret []
  | _ :: rest =>
      now <- call NewDate;;
      more <- ids_from (S idx) rest;;
      Ret (doc_id_of now idx :: more)
  end.

(** [add] stands for [this.collection.add], a method of the client
    library. *)
Definition addDocuments (add : AddRequest -> Proc unit)
    (docs : list Document) : Proc AddResult :=
  try_catch
    (has <- call (Load cell_collection);;
     (if has then Ret tt else await RAGService.initializeCollection);;
     ids <- ids_from 0 docs;;
     let texts := map (fun doc => or (pageContent doc) (text doc)) docs in
     let metadatas := map (fun doc => or (metadata doc) (JS.Obj [])) docs in
     await (add (mkAddRequest ids texts metadatas));;
     call (Log info ("Added " +:+ JS.show_nat (length docs) +:+
                     " documents to ChromaDB"));;
     Ret (mkAddResult true (length docs)))
    (fun e =>
       call (Log error ("Add Documents Error: " +:+ e));;
       Raise e).

(** [count] stands for [this.collection.count], a method of the client
    library. *)
Definition getCollectionStats (count : Proc nat) : Proc Stats :=
  try_catch
    (has <- call (Load cell_collection);;
     (if has then Ret tt else await RAGService.initializeCollection);;
     c <- await count;;
     n <- RAGService.collectionName;;
     Ret (mkStats n c))
    (fun e =>
       call (Log error ("Get Stats Error: " +:+ e));;
       n <- RAGService.collectionName;;
       Ret (mkStats n 0)).

End RAGCollection.

(** ** app.js, the detailed health check *)

Module Health.

Record Dependency : Type := mkDependency {
  dep_status : string;
  dep_message : string
}.

Record Report : Type := mkReport {
  health_status : string;
  health_timestamp : Z;
  mongodb : Dependency;
  chromadb : Dependency;
  groq : Dependency
}.

(** What the handler sends: the status code and the body. *)
Record Response : Type := mkResponse {
  statusCode : nat;
  body_success : bool;
  body_data : Report
}.

Section handler.
(** [mongoose.connection.readyState], [mongoose.connection.db.admin().ping()],
    [ragService.collection.count()], and the race of the test invocation
    against the five-second timer. *)
Context (readyState : Proc nat) (ping : Proc unit) (count : Proc nat)
        (raced : Proc unit).

(** Each check yields the entry of its dependency and whether it has
    set [health.status] to [degraded]. *)
Definition check_mongodb : Proc (Dependency * bool) :=
  try_catch
    (state <- readyState;;
     if (state =? 1)%nat then
       await ping;;
       Ret (mkDependency "connected" "MongoDB is accessible", false)
     else
       Ret (mkDependency "disconnected" "MongoDB not connected", true))
    (fun e => Ret (mkDependency "error" e, true)).

Definition check_chromadb : Proc (Dependency * bool) :=
  try_catch
    (stats <- await (RAGCollection.getCollectionStats count);;
     Ret (mkDependency "connected"
            ("Collection accessible with " +:+
             JS.show_nat (RAGCollection.documentCount stats) +:+ " documents"),
          false))
    (fun e => Ret (mkDependency "error" e, true)).

Definition check_groq : Proc (Dependency * bool) :=
  try_catch
    (key <- call (Getenv "GROQ_API_KEY");;
     match key with
     | Some (String _ _) =>
         await raced;;
         Ret (mkDependency "connected" "Groq API is reachable", false)
     | _ => Ret (mkDependency "error" "GROQ_API_KEY not configured", true)
     end)
    (fun e => Ret (mkDependency "error" e, true)).

Definition detailed : Proc Response :=
  now <- call NewDate;;
  m <- check_mongodb;;
  c <- check_chromadb;;
  g <- check_groq;;
  let status := if m.2 || c.2 || g.2 then "degraded" else "healthy" in
  Ret (mkResponse (if String.eqb status "healthy" then 200 else 503)
                  (String.eqb status "healthy")
                  (mkReport status now m.1 c.1 g.1)).

End handler.

End Health.

(** The code unit [c] occurs in [s]. *)
Fixpoint occurs (c : ascii) (s : string) : bool :=
  match s with
  | EmptyString => false
  | String c' s' => Ascii.eqb c c' || occurs c s'
  end.

(** ** utils/ingest.js *)

Module DocumentIngestion.

Definition chunkSize : nat := 1000.
Definition chunkOverlap : nat := 200.

(** The fields of [s] between its runs of white space, the first one
    being the field open at the start of [s]; [in_run] says that the code
    unit before [s] was white space. *)
Fixpoint fields (in_run : bool) (s : string) : list string :=
  match s with
  | EmptyString => [EmptyString]
  | String c s' =>
      if JS.is_space c then
        if in_run then fields true s' else EmptyString :: fields true s'
      else
        match fields false s' with
        | field :: rest => String c field :: rest
        | [] => [String c EmptyString]
        end
  end.

(** [text.split(/\s+/)]: a text that starts or ends with white space has
    an empty first or last field, and the empty text has one empty
    field. *)
Definition split_spaces (text : string) : list string := fields false text.

(** Assignment to the property [key] of an object: in place where the
    object has the property, behind the others where it has not. *)
Fixpoint put (key : string) (v : JS.value) (props : list (string * JS.value))
    : list (string * JS.value) :=
  match props with
  | [] => [(key, v)]
  | (k, x) :: rest =>
      if String.eqb k key then (k, v) :: rest else (k, x) :: put key v rest
  end.

Record Chunk : Type := mkChunk {
  pageContent : string;
  metadata : list (string * JS.value)
}.

(** [words.slice(i, i + this.chunkSize).join(' ')]. *)
Definition window (words : list string) (i : nat) : string :=
  JS.join " " (take chunkSize (drop i words)).

(** [chunk.trim().length > 0]. *)
Definition not_blank (chunk : string) : bool :=
  (0 <? String.length (JS.trim chunk))%nat.

(** The [for] loop from [i] on, [chunks] being the chunks pushed so far;
    [fuel] bounds the iterations. *)
Fixpoint chunk_loop (fuel : nat) (words : list string)
    (meta : list (string * JS.value)) (i : nat) (chunks : list Chunk)
    : list Chunk :=
  match fuel with
  | 0%nat => chunks
  | S fuel' =>
      if (i <? length words)%nat then
        let chunk := window words i in
        chunk_loop fuel' words meta (i + (chunkSize - chunkOverlap))
          (if not_blank chunk then
             chunks ++
             [mkChunk chunk
                (put "source"
                   (RAGCollection.or (JS.assoc "source" meta) (JS.Str "unknown"))
                   (put "chunkIndex" (JS.Num (inject_Z (Z.of_nat (length chunks))))
                      meta))]
           else chunks)
      else chunks
  end.

(** [chunkText(text, metadata)]; the loop advances by 800 words, so that
    as many iterations as there are words suffice. *)
Definition chunkText (text : string) (meta : list (string * JS.value))
    : list Chunk :=
  let words := split_spaces text in
  chunk_loop (length words) words meta 0 [].

End DocumentIngestion.

(** ** routes/leads.routes.js, the import of leads *)

Module LeadsRoutes.

(** A row of the uploaded file as the CSV parser hands it over; a column
    the file does not have is [None]. *)
Record Row : Type := mkRow {
  row_name : option string;
  row_phone : option string;
  row_email : option string
}.

Record LeadData : Type := mkLeadData {
  lead_name : string;
  lead_phone : string;
  lead_email : string;
  lead_status : Status
}.

(** [toLowerCase] on one code unit below 256: the capital letters of
    ASCII and of Latin-1. *)
Definition lower_unit (c : ascii) : ascii :=
  let n := nat_of_ascii c in
  if ((65 <=? n)%nat && (n <=? 90)%nat) ||
     ((192 <=? n)%nat && (n <=? 214)%nat) ||
     ((216 <=? n)%nat && (n <=? 222)%nat)
  then ascii_of_nat (n + 32) else c.

Fixpoint toLowerCase (s : string) : string :=
  match s with
  | EmptyString => EmptyString
  | String c s' => String (lower_unit c) (toLowerCase s')
  end.

(** The listener for [data]: a row with a non-empty name, phone and email
    is pushed, trimmed. *)
Definition on_data (leads : list LeadData) (row : Row) : list LeadData :=
  match row_name row, row_phone row, row_email row with
  | Some (String a n), Some (String b p), Some (String c e) =>
      leads ++
      [mkLeadData (JS.trim (String a n)) (JS.trim (String b p))
                  (toLowerCase (JS.trim (String c e))) pending]
  | _, _, _ => leads
  end.

Definition parsed (rows : list Row) : list LeadData := fold_left on_data rows [].

Record DuplicateReason : Type := mkDuplicateReason {
  dup_name : string;
  dup_field : string;
  dup_value : string
}.

(** [insertedCount], [skippedCount] and [duplicateReasons]. *)
Record Counters : Type := mkCounters {
  insertedCount : nat;
  skippedCount : nat;
  duplicateReasons : list DuplicateReason
}.

(** [data] of the response. *)
Record UploadData : Type := mkUploadData {
  total : nat;
  inserted : nat;
  skipped : nat;
  duplicates : option (list DuplicateReason)
}.

Section upload.
(** [Lead.create], the test [error.code === 11000] on the error it throws,
    the reading of the uploaded file and its removal. *)
Context (create : LeadData -> Proc unit) (code_is_11000 : Err -> bool)
        (read : Proc (list Row)) (unlink : Proc unit).

(** [leadData[duplicateField]], interpolated. *)
Definition field_of (leadData : LeadData) (field : string) : string :=
  if String.eqb field "email" then lead_email leadData
  else if String.eqb field "phone" then lead_phone leadData
  else "undefined".

(** The body of the loop over the leads. *)
Definition insert_one (acc : Counters) (leadData : LeadData) : Proc Counters :=
  try_catch
    (await (create leadData);;
     Ret (mkCounters (insertedCount acc + 1) (skippedCount acc) (duplicateReasons acc)))
    (fun e =>
       if code_is_11000 e then
         let duplicateField :=
           if JS.includes "email" e then "email"
           else if JS.includes "phone" e then "phone" else "unknown" in
         let reason :=
           mkDuplicateReason (lead_name leadData) duplicateField
             (if String.eqb duplicateField "email"
              then lead_email leadData else lead_phone leadData) in
         call (Log debug ("Duplicate lead skipped: " +:+ lead_name leadData +:+ " (" +:+
                          duplicateField +:+ ": " +:+
                          field_of leadData duplicateField +:+ ")"));;
         Ret (mkCounters (insertedCount acc) (skippedCount acc + 1)
                         (duplicateReasons acc ++ [reason]))
       else
         call (Log error ("Failed to insert lead " +:+ lead_name leadData +:+ ": " +:+ e));;
         Ret acc).

Fixpoint insert_all (acc : Counters) (leads : list LeadData) : Proc Counters :=
  match leads with
  | [] => Ret acc
  | leadData :: rest =>
      acc' <- insert_one acc leadData;;
      insert_all acc' rest
  end.

(** The handler of [POST /upload-leads]; an [AppError] is thrown with its
    message. *)
Definition upload_leads (has_file : bool) : Proc UploadData :=
  if negb has_file then Raise "No file uploaded"
  else
    rows <- await read;;
    let leads := parsed rows in
    unlink;;
    if (length leads =? 0)%nat then Raise "No valid leads found in CSV"
    else
      acc <- insert_all (mkCounters 0 0 []) leads;;
      call (Log info ("CSV Upload: " +:+ JS.show_nat (insertedCount acc) +:+
                      " inserted, " +:+ JS.show_nat (skippedCount acc) +:+ " skipped"));;
      Ret (mkUploadData (length leads) (insertedCount acc) (skippedCount acc)
             (if (0 <? length (duplicateReasons acc))%nat
              then Some (duplicateReasons acc) else None)).

End upload.

End LeadsRoutes.

(** ** Inputs for the worked examples of the import *)

Module Samples.

(** A file of two rows, the second one without an email. *)
Definition two_rows : list LeadsRoutes.Row :=
  [LeadsRoutes.mkRow (Some " Ann ") (Some "9000000001") (Some "Ann@Example.org");
   LeadsRoutes.mkRow (Some "Bob") (Some "9000000002") None].

End Samples.

(** ** The fields each service owns *)

Definition is_doc_save {X} (op : Op X) : bool :=
  match op with
  | DocSave _ => true
  | _ => false
  end.

Definition is_lead_update {X} (op : Op X) : bool :=
  match op with
  | LeadFindByIdAndUpdate _ _ => true
  | _ => false
  end.

(** What identifies a lead. *)
Definition same_identity (l l' : Lead) : Prop :=
  name l' = name l /\ phone l' = phone l /\ email l' = email l /\
  createdAt l' = createdAt l.

(** The fields of the call queue. *)
Definition same_call_state (l l' : Lead) : Prop :=
  status l' = status l /\ attempts l' = attempts l.

(** The fields of the conversation. *)
Definition same_conversation (l l' : Lead) : Prop :=
  transcript l' = transcript l /\ interest_score l' = interest_score l /\
  course_interest l' = course_interest l /\ summary l' = summary l.

(** [kept R w0 w]: the store of [w] holds the leads of [w0], no more and
    no less, each one related by [R] to what it was. *)
Definition kept (R : Lead -> Lead -> Prop) (w0 w : World) : Prop :=
  forall id,
    match db_leads w0 !! id with
    | None => db_leads w !! id = None
    | Some l => exists l', db_leads w !! id = Some l' /\ R l l'
    end.

(* ================================================================= *)
(** * Properties *)

(** ** Running procedures *)

Section run_algebra.
Context (env : Env).

Lemma run_bind {A B} (p : Proc A) (f : A -> Proc B) w :
  run env (bind p f) w =
  match run env p w with
  | (Ok a, w') => run env (f a) w'
  | (Throw e, w') => (Throw e, w')
  end.
Proof.
  revert w. induction p as [a|e|X op k IH]; intros w; simpl; try done.
  destruct (exec env op w) as [r w1]. apply IH.
Qed.

Lemma run_try_catch {A} (p : Proc A) (h : Err -> Proc A) w :
  run env (try_catch p h) w =
  match run env p w with
  | (Ok a, w') => (Ok a, w')
  | (Throw e, w') => run env (h e) w'
  end.
Proof.
  revert w. induction p as [a|e|X op k IH]; intros w; simpl; try done.
  destruct (exec env op w) as [r w1]. apply IH.
Qed.

Lemma run_try_finally {A} (p : Proc A) (fin : Proc unit) w :
  run env (try_finally p fin) w =
  match run env p w with
  | (r, w') =>
      match run env fin w' with
      | (Ok _, w'') => (r, w'')
      | (Throw e, w'') => (Throw e, w'')
      end
  end.
Proof.
  revert w. induction p as [a|e|X op k IH]; intros w; simpl.
  - rewrite run_bind. by destruct (run env fin w) as [[[]|?] ?].
  - rewrite run_bind. by destruct (run env fin w) as [[[]|?] ?].
  - destruct (exec env op w) as [r w1]. apply IH.
Qed.

Lemma run_await {A} (p : Proc A) w :
  run env (await p) w = ((run env p w).1, tick (run env p w).2).
Proof.
  unfold await. rewrite run_try_catch, run_bind.
  by destruct (run env p w) as [[a|e] w'].
Qed.

Lemma run_call {X} (op : Op X) w :
  run env (call op) w = exec env op w.
Proof. simpl. by destruct (exec env op w) as [[x|e] w']. Qed.
End run_algebra.

(** ** Footprints of the services *)

Section footprints.
Context (bad : forall X, Op X -> bool).

Lemma never_bind {A B} (p : Proc A) (f : A -> Proc B) :
  never bad p -> (forall a, never bad (f a)) -> never bad (bind p f).
Proof.
  intros Hp Hf. induction p as [a|e|X op k IH]; simpl in *; auto.
  destruct Hp as [Hop Hk]. split; auto.
Qed.

Lemma never_try_catch {A} (p : Proc A) (h : Err -> Proc A) :
  never bad p -> (forall e, never bad (h e)) -> never bad (try_catch p h).
Proof.
  intros Hp Hh. induction p as [a|e|X op k IH]; simpl in *; auto.
  destruct Hp as [Hop Hk]. split; auto.
Qed.

Lemma never_try_finally {A} (p : Proc A) (fin : Proc unit) :
  never bad p -> never bad fin -> never bad (try_finally p fin).
Proof.
  intros Hp Hf. induction p as [a|e|X op k IH]; simpl in *.
  - by apply never_bind.
  - by apply never_bind.
  - destruct Hp as [Hop Hk]. split; auto.
Qed.

Lemma never_call {X} (op : Op X) : bad X op = false -> never bad (call op).
Proof. intros H. simpl. split; [done|]. by intros [x|e]. Qed.

Lemma never_await {A} (p : Proc A) :
  bad _ Yield = false -> never bad p -> never bad (await p).
Proof.
  intros Hy Hp. unfold await. apply never_try_catch.
  - apply never_bind; [done|]. intros a. simpl. auto.
  - intros e. simpl. auto.
Qed.

Lemma never_for_of {X} (xs : list X) (body : X -> Proc unit) :
  (forall x, never bad (body x)) -> never bad (for_of xs body).
Proof.
  intros Hb. induction xs as [|x xs IH]; simpl; [done|].
  apply never_bind; auto.
Qed.

(** A field of the world that only singled-out requests change is left
    unchanged by a procedure that never issues them. *)
Lemma never_run env {T} (field : World -> T) {A} (p : Proc A) w :
  (forall X (op : Op X) w, bad X op = false -> field (exec env op w).2 = field w) ->
  never bad p -> field (run env p w).2 = field w.
Proof.
  intros Hexec. revert w. induction p as [a|e|X op k IH]; intros w Hp; simpl; try done.
  destruct Hp as [Hop Hk]. specialize (Hexec X op w Hop).
  destruct (exec env op w) as [r w1]. simpl in Hexec.
  rewrite IH; auto.
Qed.

Lemma never_settle env {A} (p : Proc A) w :
  never bad p -> never bad (settle env p w).1.
Proof.
  revert w. induction p as [a|e|X op k IH]; intros w Hp; simpl; try done.
  destruct (is_await op); [done|].
  destruct Hp as [Hop Hk]. destruct (exec env op w) as [r w1]. by apply IH.
Qed.

Lemma never_settle_field env {T} (field : World -> T) {A} (p : Proc A) w :
  (forall X (op : Op X) w, bad X op = false -> field (exec env op w).2 = field w) ->
  never bad p -> field (settle env p w).2 = field w.
Proof.
  intros Hexec. revert w. induction p as [a|e|X op k IH]; intros w Hp; simpl; try done.
  destruct (is_await op); [done|].
  destruct Hp as [Hop Hk]. specialize (Hexec X op w Hop).
  destruct (exec env op w) as [r w1]. simpl in Hexec. rewrite IH; auto.
Qed.
End footprints.

Ltac never_step :=
  match goal with
  | |- never _ (bind _ _) => apply never_bind; [|intros]
  | |- never _ (try_catch _ _) => apply never_try_catch; [|intros]
  | |- never _ (try_finally _ _) => apply never_try_finally
  | |- never _ (await _) => apply never_await; [reflexivity|]
  | |- never _ (call _) => apply never_call; reflexivity
  | |- never _ (for_of _ _) => apply never_for_of; intros
  | |- never _ (Ret _) => exact I
  | |- never _ (Raise _) => exact I
  | |- never _ (if ?b then _ else _) => destruct b
  | |- never _ (match ?x with _ => _ end) => destruct x
  end.

Section exec_frames.
Context (env : Env).

Lemma exec_keeps_store {X} (op : Op X) w :
  is_store_write op = false ->
  db_leads (exec env op w).2 = db_leads w /\
  db_calllogs (exec env op w).2 = db_calllogs w /\
  store_log (exec env op w).2 = store_log w.
Proof.
  destruct op; simpl; try done; intros _;
    repeat match goal with
           | |- context [match ?x with _ => _ end] => destruct x
           end; done.
Qed.

Lemma exec_keeps_model_requests {X} (op : Op X) w :
  is_model_invoke op = false ->
  model_requests (exec env op w).2 = model_requests w.
Proof.
  destruct op; simpl; try done; intros _;
    repeat match goal with
           | |- context [match ?x with _ => _ end] => destruct x
           end; done.
Qed.

Lemma exec_keeps_docs {X} (op : Op X) w :
  is_doc_change op = false -> docs (exec env op w).2 = docs w.
Proof.
  destruct op; simpl; try done; intros _;
    repeat match goal with
           | |- context [match ?x with _ => _ end] => destruct x
           end; done.
Qed.
End exec_frames.

Lemma retrieveContext_no_write q k f :
  never (@is_store_write) (RAGService.retrieveContext q k f).
Proof.
  unfold RAGService.retrieveContext, RAGService.initializeCollection,
    RAGService.getChromaClient, RAGService.collectionName.
  repeat never_step.
Qed.

Lemma retrieveContext_no_invoke q k f :
  never (@is_model_invoke) (RAGService.retrieveContext q k f).
Proof.
  unfold RAGService.retrieveContext, RAGService.initializeCollection,
    RAGService.getChromaClient, RAGService.collectionName.
  repeat never_step.
Qed.

Lemma generateAIResponse_no_write h c :
  never (@is_store_write) (LLMService.generateAIResponse h c).
Proof.
  unfold LLMService.generateAIResponse, LLMService.getModel.
  repeat never_step.
Qed.

(** ** Anatomy of a conversation turn *)

Lemma gate_closed env history context w :
  context = RAGService.no_match \/ context = RAGService.unavailable ->
  run env (LLMService.generateAIResponse history context) w = (Ok LLMService.handoff, w).
Proof. intros [-> | ->]; reflexivity. Qed.

Lemma processMessage_stages leadId userMessage :
  ConversationService.processMessage leadId userMessage =
  try_catch
    (found <- call (LeadFindById leadId);;
     match found with
     | None => Raise "Lead not found"
     | Some lead =>
         retrievedContext <- await (RAGService.retrieveContext userMessage 3 []);;
         aiResult <- await (LLMService.generateAIResponse
                              (transcript lead ++ [mkEntry user userMessage None])
                              retrievedContext);;
         persist leadId userMessage lead aiResult
     end)
    rethrow.
Proof. reflexivity. Qed.

Lemma run_rethrow env e w :
  run env (rethrow e) w =
  (Throw e, tick (with_log_lines (fun ls => ls ++ [(error, "Conversation Service Error: " +:+ e)]) w)).
Proof. reflexivity. Qed.

(** How a turn runs when the lead is found and both collaborators have
    answered. *)
Lemma run_processMessage env leadId userMessage w lead w1 context w2 aiResult w3 :
  run env (call (LeadFindById leadId)) w = (Ok (Some lead), w1) ->
  run env (await (RAGService.retrieveContext userMessage 3 [])) w1 = (Ok context, w2) ->
  run env (await (LLMService.generateAIResponse
                    (transcript lead ++ [mkEntry user userMessage None]) context)) w2
    = (Ok aiResult, w3) ->
  run env (ConversationService.processMessage leadId userMessage) w =
  match run env (persist leadId userMessage lead aiResult) w3 with
  | (Ok out, w') => (Ok out, w')
  | (Throw e, w') => run env (rethrow e) w'
  end.
Proof.
  intros H1 H2 H3.
  rewrite processMessage_stages, run_try_catch, run_bind, H1, run_bind, H2, run_bind, H3.
  done.
Qed.

Section turns.
Context (env : Env).

(** A [try] whose [catch] block returns a value never throws. *)
Lemma run_try_catch_returns {A} (p : Proc A) (h : Err -> Proc A) w :
  (forall e w, exists a w', run env (h e) w = (Ok a, w')) ->
  exists a w', run env (try_catch p h) w = (Ok a, w').
Proof.
  intros Hh. rewrite run_try_catch.
  destruct (run env p w) as [[a|e] w']; eauto.
Qed.

Lemma retrieveContext_returns q k f w :
  exists context w', run env (RAGService.retrieveContext q k f) w = (Ok context, w').
Proof.
  apply run_try_catch_returns. intros e w0. simpl. eauto.
Qed.

Lemma generateAIResponse_returns history context w :
  exists aiResult w',
    run env (LLMService.generateAIResponse history context) w = (Ok aiResult, w').
Proof.
  apply run_try_catch_returns. intros e w0. simpl. eauto.
Qed.

Lemma keeps_store {A} (p : Proc A) w :
  never (@is_store_write) p ->
  db_leads (run env p w).2 = db_leads w /\
  db_calllogs (run env p w).2 = db_calllogs w /\
  store_log (run env p w).2 = store_log w.
Proof.
  intros Hp. repeat split.
  - apply (never_run (@is_store_write)); [|done]. intros. by apply exec_keeps_store.
  - apply (never_run (@is_store_write)); [|done]. intros. by apply exec_keeps_store.
  - apply (never_run (@is_store_write)); [|done]. intros. by apply exec_keeps_store.
Qed.

Lemma keeps_model_requests {A} (p : Proc A) w :
  never (@is_model_invoke) p ->
  model_requests (run env p w).2 = model_requests w.
Proof.
  intros Hp. apply (never_run (@is_model_invoke)); [|done].
  intros. by apply exec_keeps_model_requests.
Qed.

(** The three ways a turn can go: the lookup throws, the lead is
    missing, or both collaborators answer and the turn reaches its
    persistence stage with the store as it was. *)
Lemma turn_cases leadId userMessage w :
  (exists e, read_fault env (ticks w) = Some e /\
     run env (ConversationService.processMessage leadId userMessage) w =
     run env (rethrow e) (tick w)) \/
  (read_fault env (ticks w) = None /\ db_leads w !! leadId = None /\
     run env (ConversationService.processMessage leadId userMessage) w =
     run env (rethrow "Lead not found") (tick w)) \/
  (exists lead context w2 aiResult w3,
     read_fault env (ticks w) = None /\
     db_leads w !! leadId = Some lead /\
     run env (await (RAGService.retrieveContext userMessage 3 [])) (tick w)
       = (Ok context, w2) /\
     run env (await (LLMService.generateAIResponse
                       (transcript lead ++ [mkEntry user userMessage None])
                       context)) w2 = (Ok aiResult, w3) /\
     db_leads w3 = db_leads w /\ db_calllogs w3 = db_calllogs w /\
     store_log w3 = store_log w /\
     run env (ConversationService.processMessage leadId userMessage) w =
     match run env (persist leadId userMessage lead aiResult) w3 with
     | (Ok out, w') => (Ok out, w')
     | (Throw e, w') => run env (rethrow e) w'
     end).
Proof.
  destruct (read_fault env (ticks w)) as [e|] eqn:Hread.
  { left. exists e. split; [done|].
    rewrite processMessage_stages, run_try_catch, run_bind, run_call. simpl.
    by rewrite Hread. }
  right. destruct (db_leads w !! leadId) as [lead|] eqn:Hlead.
  2:{ left. repeat split; try done.
      rewrite processMessage_stages, run_try_catch, run_bind, run_call. simpl.
      by rewrite Hread, Hlead. }
  right.
  destruct (retrieveContext_returns userMessage 3 [] (tick w)) as (context & w2 & H2).
  destruct (generateAIResponse_returns
              (transcript lead ++ [mkEntry user userMessage None]) context (tick w2))
    as (aiResult & w3 & H3).
  exists lead, context, (tick w2), aiResult, (tick w3).
  assert (Hfind : run env (call (LeadFindById leadId)) w = (Ok (Some lead), tick w)).
  { rewrite run_call. simpl. by rewrite Hread, Hlead. }
  assert (Hctx : run env (await (RAGService.retrieveContext userMessage 3 [])) (tick w)
                 = (Ok context, tick w2)).
  { rewrite run_await, H2. done. }
  assert (Hgen : run env (await (LLMService.generateAIResponse
                       (transcript lead ++ [mkEntry user userMessage None])
                       context)) (tick w2) = (Ok aiResult, tick w3)).
  { rewrite run_await, H3. done. }
  pose proof (keeps_store _ (tick w) (retrieveContext_no_write userMessage 3 [])) as K2.
  rewrite H2 in K2. simpl in K2.
  pose proof (keeps_store _ (tick w2)
                (generateAIResponse_no_write
                   (transcript lead ++ [mkEntry user userMessage None]) context)) as K3.
  rewrite H3 in K3. simpl in K3.
  destruct K2 as (K2a & K2b & K2c), K3 as (K3a & K3b & K3c).
  repeat split; try done.
  - simpl. congruence.
  - simpl. congruence.
  - simpl. congruence.
  - by apply run_processMessage with (w1 := tick w) (context := context) (w2 := tick w2).
Qed.

(** The persistence stage, when it returns. *)
Lemma persist_returns leadId userMessage lead aiResult w out w' :
  run env (persist leadId userMessage lead aiResult) w = (Ok out, w') ->
  let u := ConversationService.updateData lead aiResult
             (transcript lead ++ [mkEntry user userMessage None])
             (mkEntry user userMessage (Some (clock env (ticks w))))
             (mkEntry assistant (response aiResult) (Some (clock env (S (ticks w))))) in
  exists stored,
    db_leads w !! leadId = Some stored /\
    out = ConversationService.result aiResult leadId (apply_update u stored) /\
    db_leads w' = <[leadId := apply_update u stored]> (db_leads w) /\
    db_calllogs w' = db_calllogs w ++ [ConversationService.callLog leadId userMessage aiResult] /\
    store_log w' = store_log w ++
      [mkStoreEvent (WriteUpdate leadId u) None;
       mkStoreEvent (WriteCallLog (ConversationService.callLog leadId userMessage aiResult)) None] /\
    model_requests w' = model_requests w.
Proof.
  unfold persist. simpl.
  destruct (write_fault env (S (S (ticks w)))) as [e|] eqn:Hw1; simpl; [done|].
  destruct (db_leads w !! leadId) as [stored|] eqn:Hs; simpl.
  - destruct (write_fault env (S (S (S (ticks w))))) as [e|] eqn:Hw2; simpl; [done|].
    intros [= <- <-]. exists stored. simpl.
    repeat split; try done. by rewrite <- app_assoc.
  - destruct (write_fault env (S (S (S (ticks w))))) as [e|] eqn:Hw2; simpl; done.
Qed.

(** The persistence stage never hides a rejected write. *)
Lemma persist_surfaces leadId userMessage lead aiResult w r w' :
  run env (persist leadId userMessage lead aiResult) w = (r, w') ->
  exists events,
    store_log w' = store_log w ++ events /\
    forall sw e, mkStoreEvent sw (Some e) ∈ events -> r = Throw e.
Proof.
  unfold persist. simpl.
  destruct (write_fault env (S (S (ticks w)))) as [e|] eqn:Hw1; simpl.
  { intros [= <- <-]. eexists; split; [reflexivity|].
    intros sw e' Hin. apply list_elem_of_singleton in Hin. congruence. }
  destruct (db_leads w !! leadId) as [stored|] eqn:Hs; simpl;
    (destruct (write_fault env (S (S (S (ticks w))))) as [e|] eqn:Hw2; simpl;
     intros [= <- <-]; eexists; (split; [simpl; rewrite <- app_assoc; reflexivity|]);
     intros sw e' Hin; simpl in Hin;
     repeat (apply elem_of_cons in Hin as [Hin|Hin]; [congruence|]);
     by apply elem_of_nil in Hin).
Qed.
End turns.

(** ** C1: the grounding gate *)

Lemma model_requests_kept env {A} (p : Proc A) w r w' :
  never (@is_model_invoke) p ->
  run env p w = (r, w') -> model_requests w' = model_requests w.
Proof.
  intros Hp Hrun. rewrite <- (keeps_model_requests env p w Hp). by rewrite Hrun.
Qed.

(** C1.  When the context retrieved for an inbound message is the no-match
    sentinel or the retrieval-failure sentinel, the generation step returns
    the fixed handoff record, whose [handoff_required] is [true], without
    issuing any request at all (the world is unchanged), so the model is
    not invoked: over the whole turn the list of model requests stays as it
    was, and a turn that returns carries the handoff text and flag. *)
Theorem C1_grounding_gate env leadId userMessage w lead w1 context w2 :
  run env (call (LeadFindById leadId)) w = (Ok (Some lead), w1) ->
  run env (await (RAGService.retrieveContext userMessage 3 [])) w1 = (Ok context, w2) ->
  context = RAGService.no_match \/ context = RAGService.unavailable ->
  (forall history w',
      run env (LLMService.generateAIResponse history context) w'
      = (Ok LLMService.handoff, w')) /\
  handoff_required LLMService.handoff = true /\
  model_requests (run env (ConversationService.processMessage leadId userMessage) w).2
  = model_requests w /\
  (forall out,
      (run env (ConversationService.processMessage leadId userMessage) w).1 = Ok out ->
      turn_response out = response LLMService.handoff /\
      meta_handoff_required (turn_metadata out) = true).
Proof.
  intros Hfind Hctx Hsentinel.
  assert (Hgate : forall history w',
             run env (LLMService.generateAIResponse history context) w'
             = (Ok LLMService.handoff, w')).
  { intros. by apply gate_closed. }
  split; [done|]. split; [done|].
  assert (Hgen : run env (await (LLMService.generateAIResponse
                    (transcript lead ++ [mkEntry user userMessage None]) context)) w2
                 = (Ok LLMService.handoff, tick w2)).
  { by rewrite run_await, Hgate. }
  rewrite (run_processMessage env _ _ _ _ _ _ _ _ _ Hfind Hctx Hgen).
  assert (Hw1 : model_requests w1 = model_requests w).
  { apply (model_requests_kept env _ _ _ _ (never_call _ (LeadFindById leadId) eq_refl) Hfind). }
  assert (Hw2 : model_requests w2 = model_requests w1).
  { apply (model_requests_kept env _ _ _ _
             (never_await _ _ eq_refl (retrieveContext_no_invoke userMessage 3 [])) Hctx). }
  destruct (run env (persist leadId userMessage lead LLMService.handoff) (tick w2))
    as [[out|e] w'] eqn:Hp.
  - apply persist_returns in Hp as (stored & _ & -> & _ & _ & _ & Hm).
    simpl. split; [|by intros ? [= <-]].
    rewrite Hm. simpl. congruence.
  - rewrite run_rethrow. simpl. split; [|done].
    assert (K : model_requests w' = model_requests (tick w2)).
    { apply (model_requests_kept env (persist leadId userMessage lead LLMService.handoff) (tick w2) (Throw e)); [|exact Hp].
      unfold persist. by repeat never_step. }
    rewrite K. simpl. congruence.
Qed.

Lemma C1_grounding_gate_witness :
  model_requests
    (run Example.env_no_match
         (ConversationService.processMessage 7 "What are the hostel fees?")
         (Example.world_of Example.ann)).2 = [] /\
  (run Example.env_no_match
       (ConversationService.processMessage 7 "What are the hostel fees?")
       (Example.world_of Example.ann)).1
  = Ok (mkTurnResult (response LLMService.handoff)
          (mkLeadView 7 "Ann" 0 EmptyString pending)
          (mkMetadata "handoff" true EmptyString)).
Proof.
  split.
  - eapply (C1_grounding_gate Example.env_no_match 7 "What are the hostel fees?"
              (Example.world_of Example.ann));
      [vm_compute; reflexivity | vm_compute; reflexivity | left; reflexivity].
  - vm_compute. reflexivity.
Defined.

(** ** Appended transcript chunks *)

Section appends_rules.
Context (id : LeadId).

Lemma appends_mono {A} (post post' : list (list Entry) -> A -> Prop)
    (epost epost' : list (list Entry) -> Err -> Prop) chunks (p : Proc A) :
  (forall c a, post c a -> post' c a) ->
  (forall c e, epost c e -> epost' c e) ->
  appends id post epost chunks p -> appends id post' epost' chunks p.
Proof.
  intros Hpost Hepost. revert chunks.
  induction p as [a|e|X op k IH]; intros chunks; simpl; auto.
Qed.

Lemma appends_bind {A B} (p : Proc A) (f : A -> Proc B) post epost chunks :
  appends id (fun c a => appends id post epost c (f a)) epost chunks p ->
  appends id post epost chunks (bind p f).
Proof.
  revert chunks. induction p as [a|e|X op k IH]; intros chunks; simpl; auto.
Qed.

Lemma appends_try_catch {A} (p : Proc A) (h : Err -> Proc A) post epost chunks :
  appends id post (fun c e => appends id post epost c (h e)) chunks p ->
  appends id post epost chunks (try_catch p h).
Proof.
  revert chunks. induction p as [a|e|X op k IH]; intros chunks; simpl; auto.
Qed.

Lemma appends_await {A} (p : Proc A) post epost chunks :
  appends id post epost chunks p -> appends id post epost chunks (await p).
Proof.
  intros Hp. unfold await. apply appends_try_catch, appends_bind.
  revert Hp. apply appends_mono.
  - intros c a Hc. simpl. intros _. by rewrite app_nil_r.
  - intros c e Hc. simpl. intros _. by rewrite app_nil_r.
Qed.

Lemma pushed_not_write {X} (op : Op X) r :
  is_store_write op = false -> pushed id op r = [].
Proof. by destruct op. Qed.

(** A procedure that writes nothing appends nothing. *)
Lemma appends_never {A} (p : Proc A) (post : list (list Entry) -> A -> Prop)
    (epost : list (list Entry) -> Err -> Prop) chunks :
  never (@is_store_write) p ->
  (forall a, post chunks a) -> (forall e, epost chunks e) ->
  appends id post epost chunks p.
Proof.
  intros Hp Hpost Hepost.
  induction p as [a|e|X op k IH]; simpl; auto.
  destruct Hp as [Hop Hk]. intros r.
  rewrite (pushed_not_write op r Hop), app_nil_r. auto.
Qed.
End appends_rules.

(** Case analysis on the answers the environment can give. *)
Ltac case_answer :=
  match goal with
  | |- context [match read_fault ?e ?t with _ => _ end] => destruct (read_fault e t)
  | |- context [match write_fault ?e ?t with _ => _ end] => destruct (write_fault e t)
  | |- context [match index_fault ?e ?t with _ => _ end] => destruct (index_fault e t)
  | |- context [match JSON_parse ?e ?s with _ => _ end] => destruct (JSON_parse e s)
  | |- context [match docs ?w !! ?d with _ => _ end] => destruct (docs w !! d)
  end.

(** Every request leaves the transcript of every lead as it was, up to the
    chunk it appends. *)
Lemma exec_appends env id {X} (op : Op X) w :
  transcript_of (exec env op w).2 id =
  transcript_of w id ++ concat (pushed id op (exec env op w).1).
Proof.
  unfold transcript_of.
  destruct op; simpl; try (repeat case_answer; simpl; by rewrite ?app_nil_r).
  - (* findByIdAndUpdate *)
    destruct (write_fault env (ticks w)); simpl; [by rewrite app_nil_r|].
    destruct (db_leads w !! id0) as [l|] eqn:Hl; simpl; [|by rewrite app_nil_r].
    destruct (Nat.eqb_spec id0 id) as [->|Hne].
    + rewrite lookup_insert_eq, Hl. simpl. by rewrite app_nil_r.
    + rewrite lookup_insert_ne by done. by rewrite app_nil_r.
  - (* save *)
    destruct (docs w !! d) as [doc|]; simpl; [|by rewrite app_nil_r].
    destruct (modified_status doc || modified_attempts doc); simpl;
      [|by rewrite app_nil_r].
    destruct (write_fault env (ticks w)); simpl; [by rewrite app_nil_r|].
    destruct (db_leads w !! doc_id doc) as [l|] eqn:Hl; simpl;
      [|by rewrite app_nil_r].
    destruct (decide (doc_id doc = id)) as [<-|Hne].
    + rewrite lookup_insert_eq, Hl. simpl. by rewrite app_nil_r.
    + rewrite lookup_insert_ne by done. by rewrite app_nil_r.
Qed.

Lemma appends_call id {X} (op : Op X) (post : list (list Entry) -> X -> Prop) epost chunks :
  (forall x, post (chunks ++ pushed id op (Ok x)) x) ->
  (forall e, epost (chunks ++ pushed id op (Throw e)) e) ->
  appends id post epost chunks (call op).
Proof. intros Hok Herr [x|e]; simpl; auto. Qed.

Lemma rethrow_appends id (post : list (list Entry) -> TurnResult -> Prop) chunks e :
  appends id post (fun _ _ => True) chunks (rethrow e).
Proof. intros [[]|?]; exact I. Qed.

(** A turn that returns has appended one chunk to its lead: the user
    entry and the assistant entry, each with a timestamp. *)
Lemma turn_appends leadId userMessage :
  appends leadId
    (fun chunks out =>
       exists t_user t_assistant,
         chunks = [turn_entries userMessage out t_user t_assistant])
    (fun _ _ => True) []
    (ConversationService.processMessage leadId userMessage).
Proof.
  rewrite processMessage_stages.
  apply appends_try_catch, appends_bind, appends_call;
    [|intros; apply rethrow_appends].
  intros [lead|]; [|apply rethrow_appends].
  apply appends_bind, appends_await, appends_never;
    [apply retrieveContext_no_write| |intros; apply rethrow_appends].
  intros context.
  apply appends_bind, appends_await, appends_never;
    [apply generateAIResponse_no_write| |intros; apply rethrow_appends].
  intros aiResult. unfold persist.
  apply appends_bind, appends_call; [|intros; apply rethrow_appends].
  intros t_user.
  apply appends_bind, appends_call; [|intros; apply rethrow_appends].
  intros t_assistant.
  apply appends_bind, appends_call; [|intros; apply rethrow_appends].
  intros updated.
  apply appends_bind, appends_call; [|intros; apply rethrow_appends].
  intros [].
  apply appends_bind, appends_call; [|intros; apply rethrow_appends].
  intros [].
  destruct updated as [updated|]; [|apply rethrow_appends].
  simpl. rewrite Nat.eqb_refl. simpl.
  by exists t_user, t_assistant.
Qed.

Lemma merged_left_only {T} (l : list T) : merged l [] l.
Proof. induction l; constructor; auto. Qed.

Lemma merged_right_only {T} (l : list T) : merged [] l l.
Proof. induction l; constructor; auto. Qed.

Lemma merged_app_left {T} (a b g l : list T) :
  merged a b g -> merged (a ++ l) b (g ++ l).
Proof.
  induction 1; simpl; try (constructor; auto). apply merged_left_only.
Qed.

Lemma merged_app_right {T} (a b g l : list T) :
  merged a b g -> merged a (b ++ l) (g ++ l).
Proof.
  induction 1; simpl; try (constructor; auto). apply merged_right_only.
Qed.

Lemma merged_singletons {T} (x y : T) g :
  merged [x] [y] g -> g = [x; y] \/ g = [y; x].
Proof.
  intros H. inversion H as [|? ? ? ? H1|? ? ? ? H1]; subst.
  - inversion H1 as [|? ? ? ? H2|? ? ? ? H2]; subst.
    inversion H2; subst. by left.
  - inversion H1 as [|? ? ? ? H2|? ? ? ? H2]; subst.
    inversion H2; subst. by right.
Qed.

Section interleaving.
Context (env : Env) (id : LeadId).

(** Running on to the next [await] keeps the account of appended chunks. *)
Lemma settle_appends {A} (p : Proc A) post epost chunks w :
  appends id post epost chunks p ->
  exists more,
    appends id post epost (chunks ++ more) (settle env p w).1 /\
    transcript_of (settle env p w).2 id = transcript_of w id ++ concat more.
Proof.
  revert chunks w. induction p as [a|e|X op k IH]; intros chunks w Hp.
  - exists []. simpl. by rewrite !app_nil_r.
  - exists []. simpl. by rewrite !app_nil_r.
  - simpl. destruct (is_await op).
    { exists []. simpl. rewrite !app_nil_r. split; [exact Hp|done]. }
    pose proof (exec_appends env id op w) as Hexec.
    destruct (exec env op w) as [r w1]. simpl in Hexec.
    destruct (IH r (chunks ++ pushed id op r) w1 (Hp r)) as (more & Ha & Ht).
    exists (pushed id op r ++ more). split.
    + by rewrite app_assoc.
    + rewrite Ht, Hexec, concat_app. by rewrite app_assoc.
Qed.

(** One turn of the event loop on an accounted procedure. *)
Lemma resume_appends {A X} (op : Op X) (k : Res X -> Proc A) post epost chunks w :
  appends id post epost chunks (Do op k) ->
  exists more,
    appends id post epost (chunks ++ more)
      (settle env (k (exec env op w).1) (exec env op w).2).1 /\
    transcript_of (settle env (k (exec env op w).1) (exec env op w).2).2 id
    = transcript_of w id ++ concat more.
Proof.
  intros Hp. simpl in Hp.
  pose proof (exec_appends env id op w) as Hexec.
  destruct (exec env op w) as [r w1]. simpl in *.
  destruct (settle_appends (k r) post epost (chunks ++ pushed id op r) w1 (Hp r))
    as (more & Ha & Ht).
  exists (pushed id op r ++ more). split.
  - by rewrite app_assoc.
  - rewrite Ht, Hexec, concat_app. by rewrite app_assoc.
Qed.

Lemma step_side_by_side {A} initial (post1 post2 : list (list Entry) -> A -> Prop) c c' :
  side_by_side id initial post1 post2 c -> step env c c' ->
  side_by_side id initial post1 post2 c'.
Proof.
  intros (p1 & p2 & chunks1 & chunks2 & all & Hps & H1 & H2 & Hm & Ht) Hstep.
  destruct Hstep as [ps w i X op k r w1 p' w2 Hi Hawait Hexec Hsettle].
  simpl in *. subst ps.
  destruct i as [|[|i]]; simpl in Hi; [| |done].
  - injection Hi as ->.
    destruct (resume_appends op k post1 _ chunks1 w H1) as (more & Ha & Hmore).
    rewrite Hexec in Ha, Hmore. simpl in Ha, Hmore. rewrite Hsettle in Ha, Hmore.
    simpl in Ha, Hmore.
    exists p', p2, (chunks1 ++ more), chunks2, (all ++ more). simpl.
    repeat split; try done.
    + by apply merged_app_left.
    + rewrite Hmore, Ht, concat_app. by rewrite app_assoc.
  - injection Hi as ->.
    destruct (resume_appends op k post2 _ chunks2 w H2) as (more & Ha & Hmore).
    rewrite Hexec in Ha, Hmore. simpl in Ha, Hmore. rewrite Hsettle in Ha, Hmore.
    simpl in Ha, Hmore.
    exists p1, p', chunks1, (chunks2 ++ more), (all ++ more). simpl.
    repeat split; try done.
    + by apply merged_app_right.
    + rewrite Hmore, Ht, concat_app. by rewrite app_assoc.
Qed.

Lemma steps_side_by_side {A} initial (post1 post2 : list (list Entry) -> A -> Prop) c c' :
  steps env c c' -> side_by_side id initial post1 post2 c ->
  side_by_side id initial post1 post2 c'.
Proof.
  induction 1 as [c|c1 c2 c3 Hstep _ IH]; [done|].
  intros Hc. eapply IH, step_side_by_side; eauto.
Qed.

(** Two accounted procedures, called one after the other, run side by
    side. *)
Lemma spawn_side_by_side {A} (p1 p2 : Proc A) post1 post2 w :
  appends id post1 (fun _ _ => True) [] p1 ->
  appends id post2 (fun _ _ => True) [] p2 ->
  side_by_side id (transcript_of w id) post1 post2
    (spawn env p2 (spawn env p1 ([], w))).
Proof.
  intros H1 H2. unfold spawn. simpl.
  destruct (settle_appends p1 post1 _ [] w H1) as (more1 & Ha1 & Ht1).
  destruct (settle env p1 w) as [p1' w1]. simpl in *.
  destruct (settle_appends p2 post2 _ [] w1 H2) as (more2 & Ha2 & Ht2).
  destruct (settle env p2 w1) as [p2' w2]. simpl in *.
  exists p1', p2', more1, more2, (more1 ++ more2). repeat split; try done.
  - apply (merged_app_right more1 [] more1 more2), merged_left_only.
  - simpl. rewrite Ht2, Ht1, concat_app. by rewrite app_assoc.
Qed.
End interleaving.

(** ** C2: the transcript only grows, two entries per turn *)

Lemma resume_steps env {A} i (c : list (Proc A) * World) :
  steps env c (resume env i c).
Proof.
  unfold resume. destruct c as [ps w]. simpl.
  destruct (ps !! i) as [[a|e|X op k]|] eqn:Hi; try apply steps_refl.
  destruct (is_await op) eqn:Hop; [|apply steps_refl].
  destruct (exec env op w) as [r w1] eqn:Hexec.
  destruct (settle env (k r) w1) as [p' w2] eqn:Hsettle.
  eapply steps_step; [|apply steps_refl].
  eapply step_resume; eauto.
Qed.

Lemma steps_trans env {A} (c1 c2 c3 : list (Proc A) * World) :
  steps env c1 c2 -> steps env c2 c3 -> steps env c1 c3.
Proof.
  induction 1; [done|]. intros. eapply steps_step; eauto.
Qed.

(** Every schedule is an execution of the event loop. *)
Lemma schedule_steps env {A} order (c : list (Proc A) * World) :
  steps env c (schedule env order c).
Proof.
  revert c. induction order as [|i order IH]; intros c; simpl.
  - apply steps_refl.
  - eapply steps_trans; [apply resume_steps|apply IH].
Qed.

(** A turn that returns, run without interference. *)
Lemma turn_returns env leadId userMessage w out w' :
  run env (ConversationService.processMessage leadId userMessage) w = (Ok out, w') ->
  exists lead context w2 aiResult w3,
    db_leads w !! leadId = Some lead /\
    run env (await (RAGService.retrieveContext userMessage 3 [])) (tick w)
      = (Ok context, w2) /\
    run env (await (LLMService.generateAIResponse
                      (transcript lead ++ [mkEntry user userMessage None])
                      context)) w2 = (Ok aiResult, w3) /\
    db_leads w3 = db_leads w /\ db_calllogs w3 = db_calllogs w /\
    store_log w3 = store_log w /\
    run env (persist leadId userMessage lead aiResult) w3 = (Ok out, w').
Proof.
  intros Hrun.
  destruct (turn_cases env leadId userMessage w)
    as [(e & _ & H)|[(_ & _ & H)|(lead & context & w2 & aiResult & w3 & _ & Hlead
                                   & Hctx & Hgen & Hdb & Hlogs & Hstore & H)]].
  - rewrite H, run_rethrow in Hrun. done.
  - rewrite H, run_rethrow in Hrun. done.
  - exists lead, context, w2, aiResult, w3. repeat split; try done.
    rewrite H in Hrun.
    destruct (run env (persist leadId userMessage lead aiResult) w3) as [[o|e] w4];
      [done|]. by rewrite run_rethrow in Hrun.
Qed.

(** C2.  A turn that returns has asked the store for exactly one update of
    its lead, accepted, followed by the call-log insertion; that update
    pushes exactly two entries, the user's message and then the
    assistant's reply, each with the timestamp of its own clock read (two
    successive reads); the
    stored lead is the former one with the update applied, so that its
    transcript is the former transcript followed by the two entries, and
    no other lead changes.  No request of any kind does more to a stored
    transcript than append to it.  Hence, when two turns on the same lead
    run concurrently and both return, the transcript is the initial one
    followed by the two entries of one turn and the two entries of the
    other: four entries more, all present. *)
Theorem C2_atomic_append env leadId userMessage w out w' :
  run env (ConversationService.processMessage leadId userMessage) w = (Ok out, w') ->
  (exists lead u c t_user t_assistant,
      db_leads w !! leadId = Some lead /\
      store_log w' = store_log w ++
        [mkStoreEvent (WriteUpdate leadId u) None; mkStoreEvent (WriteCallLog c) None] /\
      push_transcript u = turn_entries userMessage out t_user t_assistant /\
      db_leads w' = <[leadId := apply_update u lead]> (db_leads w) /\
      transcript_of w' leadId =
      transcript_of w leadId ++ turn_entries userMessage out t_user t_assistant /\
      exists n, t_user = clock env n /\ t_assistant = clock env (S n)) /\
  (forall X (op : Op X) w0 id,
      exists added,
        transcript_of (exec env op w0).2 id = transcript_of w0 id ++ added) /\
  (forall other w0 c out1 out2,
      steps env
        (spawn env (ConversationService.processMessage leadId other)
           (spawn env (ConversationService.processMessage leadId userMessage) ([], w0)))
        c ->
      c.1 = [Ret out1; Ret out2] ->
      exists t1 t2 t3 t4,
        (transcript_of c.2 leadId =
         transcript_of w0 leadId ++ turn_entries userMessage out1 t1 t2
                                 ++ turn_entries other out2 t3 t4 \/
         transcript_of c.2 leadId =
         transcript_of w0 leadId ++ turn_entries other out2 t3 t4
                                 ++ turn_entries userMessage out1 t1 t2) /\
        length (transcript_of c.2 leadId) = (length (transcript_of w0 leadId) + 4)%nat).
Proof.
  intros Hrun. split; [|split].
  - apply turn_returns in Hrun
      as (lead & context & w2 & aiResult & w3 & Hlead & _ & _ & Hdb & _ & Hstore & Hp).
    apply persist_returns in Hp as (stored & Hstored & Hout & Hdb' & _ & Hlog & _).
    rewrite Hdb, Hlead in Hstored. injection Hstored as <-.
    eexists lead, _, _, (clock env (ticks w3)), (clock env (S (ticks w3))).
    split; [done|]. split; [rewrite Hlog, Hstore; reflexivity|].
    split; [by rewrite Hout|]. split; [by rewrite Hdb', Hdb|].
    split; [|by eexists].
    unfold transcript_of. rewrite Hdb', Hdb, lookup_insert_eq, Hlead. simpl.
    by rewrite Hout.
  - intros X op w0 id. eexists. apply exec_appends.
  - intros other w0 c out1 out2 Hsteps Hdone.
    pose proof (spawn_side_by_side env leadId _ _ _ _ w0
                  (turn_appends leadId userMessage) (turn_appends leadId other)) as Hinit.
    pose proof (steps_side_by_side env leadId _ _ _ _ _ Hsteps Hinit)
      as (p1 & p2 & chunks1 & chunks2 & all & Hps & H1 & H2 & Hm & Ht).
    rewrite Hdone in Hps. injection Hps as <- <-.
    simpl in H1, H2.
    destruct H1 as (t1 & t2 & ->), H2 as (t3 & t4 & ->).
    exists t1, t2, t3, t4.
    apply merged_singletons in Hm as [-> | ->]; rewrite Ht; simpl.
    + split; [by left|]. rewrite length_app. simpl. lia.
    + split; [by right|]. rewrite length_app. simpl. lia.
Qed.

Lemma C2_atomic_append_witness :
  let env := Example.env_chat (Example.reply_with 2) in
  let w := Example.world_of Example.ann in
  let w' := (run env (ConversationService.processMessage 7 Example.fees_question) w).2 in
  (exists t_user t_assistant,
      transcript_of w' 7 =
      transcript_of w 7 ++
      turn_entries Example.fees_question Example.fees_result t_user t_assistant) /\
  length (transcript_of
            (schedule env [0; 1; 0; 1; 0; 1; 0; 1; 0; 1; 0; 1; 0; 1; 0; 1; 0; 1]%nat
               (spawn env (ConversationService.processMessage 7 "And the hostel?")
                  (spawn env (ConversationService.processMessage 7 Example.fees_question)
                     ([], w)))).2 7) = 4%nat.
Proof.
  intros env w w'.
  destruct (C2_atomic_append env 7 Example.fees_question w Example.fees_result w')
    as ((lead & u & c & t1 & t2 & _ & _ & _ & _ & Ht & _) & _ & Hpair).
  { vm_compute. reflexivity. }
  split.
  - exists t1, t2. exact Ht.
  - destruct (Hpair "And the hostel?" w
                (schedule env [0; 1; 0; 1; 0; 1; 0; 1; 0; 1; 0; 1; 0; 1; 0; 1; 0; 1]%nat
                   (spawn env (ConversationService.processMessage 7 "And the hostel?")
                      (spawn env (ConversationService.processMessage 7 Example.fees_question)
                         ([], w))))
                Example.fees_result Example.fees_result)
      as (t3 & t4 & t5 & t6 & _ & Hlen).
    + apply schedule_steps.
    + vm_compute. reflexivity.
    + exact Hlen.
Defined.

(** ** C3: the reentrancy guard and the manual trigger *)

(** C3, evaluated where it fails.  In every state, a firing of the
    periodic trigger while [isRunning] is set finishes at once and leaves
    store and documents alone, whereas the manual trigger always starts a
    pass and leaves [isRunning] as it finds it: it neither reads nor sets
    the flag.  Concretely, with one pending lead, number 7: the periodic
    trigger fires, a pass starts and [isRunning] is set; a second firing of
    the periodic trigger at that moment is skipped; the manual trigger at
    that same moment starts a second pass beside the first, both fetch lead
    7 and both place a call to it. *)
Theorem C3_manual_trigger_overlaps :
  let env := Example.env_no_match in
  let active := spawn env CallWorker.scheduled ([], Example.world_of Example.ann) in
  let periodic_again := spawn env CallWorker.scheduled active in
  let manual := spawn env CallWorker.triggerManually active in
  let done := schedule env [0; 1; 0; 1; 0; 1; 0; 1; 0; 1; 0; 1]%nat manual in
  (forall env0 (ps : list (Proc unit)) w,
      let c := spawn env0 CallWorker.scheduled (ps, with_cell cell_isRunning true w) in
      map finished c.1 = map finished ps ++ [true] /\
      db_leads c.2 = db_leads w /\ docs c.2 = docs w /\ store_log c.2 = store_log w) /\
  (forall env0 (ps : list (Proc unit)) w,
      let c := spawn env0 CallWorker.triggerManually (ps, w) in
      map pass_started c.1 = map pass_started ps ++ [true] /\
      isRunning c.2 = isRunning w) /\
  (isRunning active.2 = true /\ map pass_started active.1 = [true]) /\
  (map pass_started periodic_again.1 = [true; false] /\
   map finished periodic_again.1 = [false; true]) /\
  (isRunning manual.2 = true /\ map pass_started manual.1 = [true; true]) /\
  (steps env manual done /\ map finished done.1 = [true; true] /\
   calls_placed 7 done.2 = 2%nat /\
   attempts <$> (db_leads done.2 !! 7%nat) = Some 1%Z).
Proof.
  intros env active periodic_again manual done.
  split; [intros env0 ps w; unfold spawn; simpl; by rewrite map_app|].
  split; [intros env0 ps w; unfold spawn; simpl; by rewrite map_app|].
  split; [by vm_compute|]. split; [by vm_compute|]. split; [by vm_compute|].
  split; [apply schedule_steps|]. by vm_compute.
Qed.

(** ** C4: one lead of a scheduler pass *)

Section worker.
Context (env : Env).

Lemma run_bind_call {X B} (op : Op X) (f : X -> Proc B) w :
  run env (bind (call op) f) w =
  match exec env op w with
  | (Ok x, w') => run env (f x) w'
  | (Throw e, w') => (Throw e, w')
  end.
Proof. rewrite run_bind, run_call. done. Qed.

(** The catch block marks the document failed and asks to save it. *)
Lemma recover_marks_failed lead e w d r w' :
  docs w !! lead = Some d ->
  run env (CallWorker.recover lead e) w = (r, w') ->
  r = Ok tt /\
  store_log w `prefix_of` store_log w' /\
  exists d',
    docs w' !! lead = Some d' /\
    doc_status d' = failed /\ doc_attempts d' = doc_attempts d /\
    doc_id d' = doc_id d.
Proof.
  intros Hd. unfold CallWorker.recover.
  rewrite run_bind_call. cbn [exec]. rewrite Hd.
  rewrite run_bind_call. cbn [exec].
  rewrite run_try_catch, run_bind_call. cbn [exec].
  rewrite run_call. cbn [exec docs tick with_docs with_log_lines].
  rewrite list_lookup_alter_eq, Hd. cbn [fmap option_fmap option_map].
  destruct (modified_status (assign_status failed d) ||
            modified_attempts (assign_status failed d)).
  2:{ intros [= <- <-]. split; [done|]. split; [done|]. eexists.
      cbn [docs tick with_docs with_log_lines].
      rewrite list_lookup_alter_eq, Hd. by repeat split. }
  destruct (write_fault env _) as [e'|].
  { cbn [run exec]. intros [= <- <-]. split; [done|].
    split; [by apply prefix_app_r|]. eexists.
    cbn [docs tick with_docs with_log_lines record_write with_store_log].
    rewrite list_lookup_alter_eq, Hd. by repeat split. }
  cbn [db_leads tick with_docs with_log_lines].
  destruct (db_leads w !! _) as [l|].
  - intros [= <- <-]. split; [done|]. split; [by apply prefix_app_r|]. eexists.
    cbn [docs tick with_docs with_log_lines record_write with_store_log with_db].
    rewrite !list_lookup_alter_eq, Hd. by repeat split.
  - cbn [run exec]. intros [= <- <-]. split; [done|].
    split; [by apply prefix_app_r|]. eexists.
    cbn [docs tick with_docs with_log_lines record_write with_store_log with_db].
    rewrite !list_lookup_alter_eq, Hd. by repeat split.
Qed.

(** The branches on the outcome assign the status of the table, and
    nothing else. *)
Lemma applyOutcome_assigns lead outcome w d r w' :
  docs w !! lead = Some d ->
  run env (CallWorker.applyOutcome lead outcome) w = (r, w') ->
  r = Ok tt /\
  docs w' !! lead =
    Some (match outcome_table outcome (doc_attempts d) with
          | Some s => assign_status s d
          | None => d
          end) /\
  db_leads w' = db_leads w /\ store_log w' = store_log w.
Proof.
  intros Hd. unfold CallWorker.applyOutcome, outcome_table.
  destruct (String.eqb outcome "completed").
  { rewrite run_call. cbn [exec]. intros [= <- <-].
    cbn [docs tick with_docs]. by rewrite list_lookup_alter_eq, Hd. }
  destruct (String.eqb outcome "no_answer").
  { rewrite run_bind_call. cbn [exec]. rewrite Hd.
    destruct (3 <=? doc_attempts d)%Z.
    - rewrite run_bind_call. cbn [exec]. rewrite run_call. cbn [exec].
      intros [= <- <-]. cbn [docs tick with_docs with_log_lines].
      by rewrite list_lookup_alter_eq, Hd.
    - rewrite run_call. cbn [exec]. intros [= <- <-].
      cbn [docs tick with_docs]. by rewrite list_lookup_alter_eq, Hd. }
  destruct (String.eqb outcome "failed").
  { rewrite run_call. cbn [exec]. intros [= <- <-].
    cbn [docs tick with_docs]. by rewrite list_lookup_alter_eq, Hd. }
  cbn [run]. by intros [= <- <-].
Qed.

(** Saving a document whose status or attempts are modified and which the
    store holds. *)
Lemma save_modified lead w d r w' :
  docs w !! lead = Some d ->
  run env (call (DocSave lead)) w = (r, w') ->
  exists events,
    store_log w' = store_log w ++ events /\
    ((r = Ok tt /\ docs w' !! lead = Some (mark_clean d) /\
      (modified_status d || modified_attempts d = true ->
       events = [mkStoreEvent (save_request d) None]) /\
      forall l, db_leads w !! doc_id d = Some l ->
        db_leads w' !! doc_id d =
        Some (apply_save (if modified_status d then Some (doc_status d) else None)
                         (if modified_attempts d then Some (doc_attempts d) else None)
                         l)) \/
     (exists e, r = Throw e /\ docs w' !! lead = Some d /\
        events = [mkStoreEvent (save_request d) (Some e)])).
Proof.
  intros Hd. rewrite run_call. cbn [exec]. rewrite Hd.
  destruct (modified_status d || modified_attempts d) eqn:Hm.
  2:{ intros [= <- <-]. exists []. rewrite app_nil_r. split; [done|]. left.
      apply orb_false_elim in Hm as [Hs Ha].
      split; [done|]. split; [|split; [done|]].
      - cbn [docs tick]. rewrite Hd. f_equal. destruct d. simpl in *. by subst.
      - intros l Hl. cbn [db_leads tick]. rewrite Hl, Hs, Ha. f_equal. by destruct l. }
  destruct (write_fault env (ticks w)) as [e|].
  { intros [= <- <-]. eexists. split; [reflexivity|]. right. exists e.
    by repeat split. }
  destruct (db_leads w !! doc_id d) as [l|] eqn:Hl.
  - intros [= <- <-]. eexists. split; [reflexivity|]. left.
    split; [done|]. split; [|split; [done|]].
    + cbn [docs tick record_write with_store_log with_docs with_db].
      by rewrite list_lookup_alter_eq, Hd.
    + intros l' [= <-]. cbn [db_leads tick record_write with_store_log with_docs with_db].
      by rewrite lookup_insert_eq.
  - intros [= <- <-]. eexists. split; [reflexivity|]. right. eexists.
    by repeat split.
Qed.

(** What the [try] block has done when it ends, either way. *)
Lemma attempt_anatomy resolve lead w d r w' :
  docs w !! lead = Some d ->
  doc_status d = pending ->
  modified_status d = false -> modified_attempts d = false ->
  quiet env (resolve lead) ->
  run env (CallWorker.attempt resolve lead) w = (r, w') ->
  exists d' e later,
    docs w' !! lead = Some d' /\ doc_id d' = doc_id d /\
    doc_attempts d' = (doc_attempts d + 1)%Z /\
    store_log w' = store_log w ++
      mkStoreEvent (WriteSave (doc_id d) (Some calling) (Some (doc_attempts d + 1)%Z)) e
      :: later /\
    (r = Ok tt ->
     exists outcome w2 w3,
       run env (resolve lead) w2 = (Ok outcome, w3) /\
       doc_status d' = default calling (outcome_table outcome (doc_attempts d + 1)) /\
       forall l, db_leads w !! doc_id d = Some l ->
         exists l', db_leads w' !! doc_id d = Some l' /\
                    status l' = doc_status d' /\ attempts l' = doc_attempts d').
Proof.
  intros Hd Hpending Hms Hma Hquiet. unfold CallWorker.attempt.
  (* lead.status = 'calling' *)
  rewrite run_bind_call. cbn [exec].
  set (w0 := tick _).
  assert (Hd0 : docs w0 !! lead = Some (assign_status calling d)).
  { subst w0. cbn [docs tick with_docs]. by rewrite list_lookup_alter_eq, Hd. }
  assert (Hs0 : store_log w0 = store_log w /\ db_leads w0 = db_leads w) by done.
  clearbody w0.
  (* lead.attempts += 1 *)
  rewrite run_bind_call. cbn [exec]. rewrite Hd0.
  rewrite run_bind_call. cbn [exec].
  set (w1 := tick _).
  set (d1 := assign_attempts (doc_attempts (assign_status calling d) + 1)
               (assign_status calling d)).
  assert (Hd1 : docs w1 !! lead = Some d1).
  { subst w1. cbn [docs tick with_docs]. by rewrite list_lookup_alter_eq, Hd0. }
  assert (Hs1 : store_log w1 = store_log w /\ db_leads w1 = db_leads w).
  { subst w1. by destruct Hs0. }
  clearbody w1. clear Hd0 Hs0 w0.
  assert (Hreq : save_request d1 =
                 WriteSave (doc_id d) (Some calling) (Some (doc_attempts d + 1)%Z)).
  { unfold save_request, d1. simpl. rewrite Hms, Hpending. simpl.
    destruct (doc_attempts d + 1 =? doc_attempts d)%Z eqn:E; [lia|].
    by rewrite orb_true_r. }
  assert (Hmod : modified_status d1 || modified_attempts d1 = true).
  { unfold d1. simpl. by rewrite Hms, Hpending. }
  (* await lead.save() *)
  rewrite run_bind.
  destruct (run env (call (DocSave lead)) w1) as [r2 w2] eqn:Hsave.
  apply (save_modified _ _ _ _ _ Hd1) in Hsave
    as (events & Hlog & [(-> & Hd2 & Hev & Hdb2)|(e & -> & Hd2 & Hev)]).
  2:{ intros [= <- <-]. exists d1, (Some e), []. rewrite Hlog, Hev, Hreq.
      destruct Hs1 as [-> _]. repeat split; try done. }
  specialize (Hev Hmod). rewrite Hev, Hreq in Hlog. destruct Hs1 as [Hs1 Hdb1].
  rewrite Hs1 in Hlog. rewrite Hdb1 in Hdb2. clear Hs1 Hdb1 Hev.
  (* the log line *)
  rewrite run_bind_call. cbn [exec]. rewrite Hd2.
  rewrite run_bind_call. cbn [exec].
  set (w3 := tick _).
  assert (Hd3 : docs w3 !! lead = Some (mark_clean d1)) by done.
  assert (Hs3 : store_log w3 = store_log w2 /\ db_leads w3 = db_leads w2) by done.
  clearbody w3.
  (* await this.simulateCallOutcome(lead) *)
  rewrite run_bind, run_await.
  destruct (run env (resolve lead) w3) as [ro w4] eqn:Hres.
  destruct (Hquiet w3) as (Hq1 & Hq2 & Hq3). rewrite Hres in Hq1, Hq2, Hq3.
  simpl in Hq1, Hq2, Hq3.
  assert (Hd4 : docs (tick w4) !! lead = Some (mark_clean d1)).
  { cbn [docs tick]. by rewrite Hq1. }
  assert (Hs4 : store_log (tick w4) = store_log w2 /\ db_leads (tick w4) = db_leads w2).
  { cbn [store_log db_leads tick]. destruct Hs3. split; congruence. }
  cbn [fst snd].
  destruct ro as [outcome|e].
  2:{ intros [= <- <-]. exists (mark_clean d1), None, []. rewrite Hd4.
      destruct Hs4 as [-> _]. by repeat split. }
  (* the branches on the outcome *)
  rewrite run_bind.
  destruct (run env (CallWorker.applyOutcome lead outcome) (tick w4)) as [r5 w5] eqn:Happly.
  apply (applyOutcome_assigns _ _ _ _ _ _ Hd4) in Happly as (-> & Hd5 & Hdb5 & Hlog5).
  set (d5 := match outcome_table outcome (doc_attempts (mark_clean d1)) with
             | Some s => assign_status s (mark_clean d1)
             | None => mark_clean d1
             end) in *.
  assert (Hid5 : doc_id d5 = doc_id d /\ doc_attempts d5 = (doc_attempts d + 1)%Z /\
                 modified_attempts d5 = false /\
                 doc_status d5 = default calling (outcome_table outcome (doc_attempts d + 1)) /\
                 (modified_status d5 = false -> doc_status d5 = calling)).
  { unfold d5. simpl. destruct (outcome_table outcome (doc_attempts d + 1)) as [s|]; simpl.
    - repeat split; try done. by destruct s. 
    - by repeat split. }
  destruct Hid5 as (Hid5 & Hatt5 & Hma5 & Hst5 & Hunmod5).
  clearbody d5.
  (* await lead.save() *)
  rewrite run_bind.
  destruct (run env (call (DocSave lead)) w5) as [r6 w6] eqn:Hsave.
  apply (save_modified _ _ _ _ _ Hd5) in Hsave
    as (events6 & Hlog6 & [(-> & Hd6 & _ & Hdb6)|(e & -> & Hd6 & _)]).
  2:{ intros [= <- <-]. exists d5, None, events6. rewrite Hd6, Hlog6, Hlog5.
      destruct Hs4 as [-> _]. rewrite Hlog, <- app_assoc. by repeat split. }
  (* the log line *)
  rewrite run_bind_call. cbn [exec]. rewrite Hd6.
  rewrite run_call. cbn [exec]. intros [= <- <-].
  exists (mark_clean d5), None, events6.
  cbn [docs store_log db_leads tick with_log_lines].
  rewrite Hd6, Hlog6, Hlog5. destruct Hs4 as [-> Hdb4]. rewrite Hlog, <- app_assoc.
  repeat split; try done.
  intros _. exists outcome, w3, w4. split; [done|]. split; [done|].
  intros l Hl. specialize (Hdb2 l). rewrite Hid5, Hdb5, Hdb4 in Hdb6.
  assert (Hid1 : doc_id d1 = doc_id d) by done. rewrite Hid1 in Hdb2.
  specialize (Hdb6 _ (Hdb2 Hl)). eexists. split; [exact Hdb6|].
  rewrite Hma5. simpl. split.
  - destruct (modified_status d5) eqn:E; simpl; [done|].
    rewrite (Hunmod5 eq_refl). unfold d1. simpl. by rewrite Hms, Hpending.
  - unfold d1. simpl. destruct (doc_attempts d + 1 =? doc_attempts d)%Z eqn:E; [lia|].
    rewrite orb_true_r. simpl. lia.
Qed.
End worker.

Lemma simulateCallOutcome_quiet env lead :
  quiet env (CallWorker.simulateCallOutcome lead).
Proof. intros w. by repeat split. Qed.

Section saving.
Context (env : Env).

(** Saving a document, in full: what becomes of documents, store and
    store log. *)
Lemma save_effect lead w d r w' :
  docs w !! lead = Some d ->
  run env (call (DocSave lead)) w = (r, w') ->
  (r = Ok tt /\ modified_status d || modified_attempts d = false /\
   docs w' = docs w /\ db_leads w' = db_leads w /\ store_log w' = store_log w) \/
  (r = Ok tt /\ modified_status d || modified_attempts d = true /\
   docs w' = alter mark_clean lead (docs w) /\
   store_log w' = store_log w ++ [mkStoreEvent (save_request d) None] /\
   exists l, db_leads w !! doc_id d = Some l /\
     db_leads w' =
       <[doc_id d :=
           apply_save (if modified_status d then Some (doc_status d) else None)
                      (if modified_attempts d then Some (doc_attempts d) else None)
                      l]> (db_leads w)) \/
  (exists e, r = Throw e /\ modified_status d || modified_attempts d = true /\
     docs w' = docs w /\ db_leads w' = db_leads w /\
     store_log w' = store_log w ++ [mkStoreEvent (save_request d) (Some e)] /\
     (write_fault env (ticks w) = Some e \/ db_leads w !! doc_id d = None)).
Proof.
  intros Hd. rewrite run_call. cbn [exec]. rewrite Hd.
  destruct (modified_status d || modified_attempts d) eqn:Hm.
  2:{ intros [= <- <-]. by left. }
  destruct (write_fault env (ticks w)) as [e|] eqn:Hf.
  { intros [= <- <-]. right. right. exists e. repeat split; auto. }
  destruct (db_leads w !! doc_id d) as [l|] eqn:Hl.
  - intros [= <- <-]. right. left. repeat split; try done. by exists l.
  - intros [= <- <-]. right. right. eexists. repeat split; auto.
Qed.

End saving.

Section worker_throws.
Context (env : Env).

(** The [try] block, when it throws: the document it leaves to the
    [catch] block, and the stored lead. *)
Lemma attempt_throws resolve lead w d err w1 :
  docs w !! lead = Some d ->
  doc_status d = pending ->
  modified_status d = false -> modified_attempts d = false ->
  quiet env (resolve lead) ->
  run env (CallWorker.attempt resolve lead) w = (Throw err, w1) ->
  exists d1,
    docs w1 !! lead = Some d1 /\ doc_id d1 = doc_id d /\
    doc_attempts d1 = (doc_attempts d + 1)%Z /\
    modified_status (assign_status failed d1) = true /\
    forall l, db_leads w !! doc_id d = Some l ->
      exists l1, db_leads w1 !! doc_id d = Some l1 /\
        (modified_attempts d1 = false -> attempts l1 = doc_attempts d1).
Proof.
  intros Hd Hpending Hms Hma Hquiet. unfold CallWorker.attempt.
  (* lead.status = 'calling' *)
  rewrite run_bind_call. cbn [exec].
  set (w0 := tick _).
  assert (Hd0 : docs w0 !! lead = Some (assign_status calling d)).
  { subst w0. cbn [docs tick with_docs]. by rewrite list_lookup_alter_eq, Hd. }
  assert (Hs0 : db_leads w0 = db_leads w) by done.
  clearbody w0.
  (* lead.attempts += 1 *)
  rewrite run_bind_call. cbn [exec]. rewrite Hd0.
  rewrite run_bind_call. cbn [exec].
  set (w1' := tick _).
  set (d1 := assign_attempts (doc_attempts (assign_status calling d) + 1)
               (assign_status calling d)).
  assert (Hd1 : docs w1' !! lead = Some d1).
  { subst w1'. cbn [docs tick with_docs]. by rewrite list_lookup_alter_eq, Hd0. }
  assert (Hs1 : db_leads w1' = db_leads w) by done.
  clearbody w1'. clear Hd0 Hs0 w0.
  assert (Hd1' : doc_id d1 = doc_id d /\ doc_attempts d1 = (doc_attempts d + 1)%Z /\
                 doc_status d1 = calling /\
                 modified_status d1 = true /\ modified_attempts d1 = true).
  { unfold d1. simpl. rewrite Hms, Hma, Hpending. simpl.
    destruct (doc_attempts d + 1 =? doc_attempts d)%Z eqn:E; [lia|]. done. }
  destruct Hd1' as (Hid1 & Hat1 & Hst1 & Hms1 & Hma1). clearbody d1.
  (* await lead.save() *)
  rewrite run_bind.
  destruct (run env (call (DocSave lead)) w1') as [r2 w2] eqn:Hsave.
  apply (save_effect env _ _ _ _ _ Hd1) in Hsave
    as [(_ & Hm & _)|[(-> & _ & Hd2 & _ & l0 & Hl0 & Hdb2)
                      |(e & -> & _ & Hd2 & Hdb2 & _)]].
  { by rewrite Hms1 in Hm. }
  2:{ intros [= <- <-]. exists d1. rewrite Hd2, Hdb2, Hs1.
      split; [done|]. split; [done|]. split; [done|].
      split; [simpl; by rewrite Hms1|].
      intros l Hl. exists l. split; [done|]. by rewrite Hma1. }
  rewrite Hms1, Hma1, Hst1, Hat1, Hid1, Hs1 in Hdb2. rewrite Hid1, Hs1 in Hl0.
  assert (Hd2' : docs w2 !! lead = Some (mark_clean d1)).
  { by rewrite Hd2, list_lookup_alter_eq, Hd1. }
  assert (Hstored : forall l, db_leads w !! doc_id d = Some l ->
            exists l1, db_leads w2 !! doc_id d = Some l1 /\
                       attempts l1 = (doc_attempts d + 1)%Z).
  { intros l Hl. rewrite Hdb2, lookup_insert_eq. eexists. split; [done|]. done. }
  clear Hd2 Hdb2 Hl0 l0.
  (* the log line *)
  rewrite run_bind_call. cbn [exec]. rewrite Hd2'.
  rewrite run_bind_call. cbn [exec].
  set (w3 := tick _).
  assert (Hd3 : docs w3 !! lead = Some (mark_clean d1)) by done.
  assert (Hs3 : db_leads w3 = db_leads w2) by done.
  clearbody w3.
  (* await this.simulateCallOutcome(lead) *)
  rewrite run_bind, run_await.
  destruct (run env (resolve lead) w3) as [ro w4] eqn:Hres.
  destruct (Hquiet w3) as (Hq1 & Hq2 & Hq3). rewrite Hres in Hq1, Hq2, Hq3.
  simpl in Hq1, Hq2, Hq3.
  assert (Hd4 : docs (tick w4) !! lead = Some (mark_clean d1)).
  { cbn [docs tick]. by rewrite Hq1. }
  assert (Hs4 : db_leads (tick w4) = db_leads w2).
  { cbn [db_leads tick]. congruence. }
  cbn [fst snd].
  destruct ro as [outcome|e].
  2:{ intros [= <- <-]. exists (mark_clean d1). rewrite Hd4.
      split; [done|]. split; [done|]. split; [done|].
      split; [simpl; by rewrite Hst1|].
      intros l Hl. destruct (Hstored l Hl) as (l1 & Hl1 & Ha1).
      exists l1. rewrite Hs4. split; [done|]. simpl. by rewrite Hat1. }
  (* the branches on the outcome *)
  rewrite run_bind.
  destruct (run env (CallWorker.applyOutcome lead outcome) (tick w4)) as [r5 w5] eqn:Happly.
  apply (applyOutcome_assigns env _ _ _ _ _ _ Hd4) in Happly as (-> & Hd5 & Hdb5 & _).
  set (d5 := match outcome_table outcome (doc_attempts (mark_clean d1)) with
             | Some s => assign_status s (mark_clean d1)
             | None => mark_clean d1
             end) in *.
  assert (Hid5 : doc_id d5 = doc_id d /\ doc_attempts d5 = (doc_attempts d + 1)%Z /\
                 modified_attempts d5 = false).
  { unfold d5. simpl. destruct (outcome_table outcome (doc_attempts d1)); by simpl. }
  destruct Hid5 as (Hid5 & Hatt5 & Hma5).
  clearbody d5.
  (* await lead.save() *)
  rewrite run_bind.
  destruct (run env (call (DocSave lead)) w5) as [r6 w6] eqn:Hsave.
  apply (save_effect env _ _ _ _ _ Hd5) in Hsave
    as [(-> & _ & Hd6 & _)|[(-> & _ & Hd6 & _)|(e & -> & Hm6 & Hd6 & Hdb6 & _)]].
  - rewrite run_bind_call. cbn [exec]. rewrite Hd6, Hd5.
    rewrite run_call. cbn [exec]. done.
  - rewrite run_bind_call. cbn [exec]. rewrite Hd6, list_lookup_alter_eq, Hd5. cbn [fmap option_fmap option_map].
    rewrite run_call. cbn [exec]. done.
  - intros [= <- <-]. exists d5. rewrite Hd6, Hdb6, Hdb5, Hs4.
    split; [done|]. split; [done|]. split; [done|].
    rewrite Hma5, orb_false_r in Hm6.
    split; [simpl; by rewrite Hm6|].
    intros l Hl. destruct (Hstored l Hl) as (l1 & Hl1 & Ha1).
    exists l1. split; [done|]. intros _. by rewrite Hatt5.
Qed.

(** The [catch] block on a document that differs from what is stored, or
    is not [failed] yet: it asks the store to save status [failed], with
    the attempts if they are still unsaved. *)
Lemma recover_saves_failed lead err w d r w' :
  docs w !! lead = Some d ->
  modified_status (assign_status failed d) = true ->
  run env (CallWorker.recover lead err) w = (r, w') ->
  exists e2,
    store_log w' = store_log w ++
      [mkStoreEvent
         (WriteSave (doc_id d) (Some failed)
            (if modified_attempts d then Some (doc_attempts d) else None)) e2] /\
    (forall l, db_leads w !! doc_id d = Some l ->
       (e2 = None ->
        db_leads w' !! doc_id d =
          Some (apply_save (Some failed)
                  (if modified_attempts d then Some (doc_attempts d) else None) l)) /\
       (forall e, e2 = Some e -> db_leads w' !! doc_id d = Some l)).
Proof.
  intros Hd Hms. unfold CallWorker.recover.
  rewrite run_bind_call. cbn [exec]. rewrite Hd.
  rewrite run_bind_call. cbn [exec].
  rewrite run_try_catch, run_bind_call. cbn [exec].
  set (w1 := tick _).
  assert (Hd1 : docs w1 !! lead = Some (assign_status failed d)).
  { subst w1. cbn [docs tick with_docs with_log_lines].
    by rewrite list_lookup_alter_eq, Hd. }
  assert (Hs1 : db_leads w1 = db_leads w /\ store_log w1 = store_log w) by done.
  clearbody w1. destruct Hs1 as [Hdb1 Hlog1].
  assert (Hreq : save_request (assign_status failed d) =
                 WriteSave (doc_id d) (Some failed)
                   (if modified_attempts d then Some (doc_attempts d) else None)).
  { unfold save_request. by rewrite Hms. }
  destruct (run env (call (DocSave lead)) w1) as [r2 w2] eqn:Hsave.
  apply (save_effect env _ _ _ _ _ Hd1) in Hsave
    as [(_ & Hm & _)|[(-> & _ & _ & Hlog2 & l0 & Hl0 & Hdb2)
                      |(e & -> & _ & _ & Hdb2 & Hlog2 & _)]].
  - by rewrite Hms in Hm.
  - intros [= <- <-]. exists None. rewrite Hlog2, Hreq, Hlog1. split; [done|].
    intros l Hl. split; [|done]. intros _.
    rewrite Hdb2, lookup_insert_eq. rewrite Hdb1 in Hl0. simpl in Hl0.
    rewrite Hl in Hl0. injection Hl0 as <-. by rewrite Hms.
  - rewrite run_call. cbn [exec]. intros [= <- <-]. exists (Some e).
    cbn [store_log db_leads tick with_log_lines].
    rewrite Hlog2, Hreq, Hlog1. split; [done|].
    intros l Hl. split; [done|]. intros _ _. by rewrite Hdb2, Hdb1.
Qed.
End worker_throws.

(** C4.  The worker processes a lead it has fetched (pending, nothing
    modified yet) as follows, [resolve] being any outcome resolver that
    leaves documents and store alone.  Processing never throws.  The
    document ends with the attempts incremented by exactly one, and the
    first write the store is asked for is the save of status [calling]
    with the incremented attempts.  If the [try] block ends normally, the
    resolver has returned an outcome and the status is the one the outcome
    table gives for it at the incremented attempts ([calling] stays for an
    outcome the table does not list), in the document and in the store.  If
    the [try] block throws (a processing error), the status of the
    document is [failed], the last write the store is asked for is the
    save of status [failed], and when the store accepts that save the lead
    is stored as [failed] with the incremented attempts.
    The table: [completed] gives completed; [no_answer] gives failed from
    three attempts on and pending below; [failed] gives failed.  In
    particular a pass in which the call goes unanswered takes a lead with
    one attempt to two attempts and pending, and a lead with two attempts
    to three attempts and failed; a pass during which the store rejects
    every write leaves the worker's document failed; and a pass during
    which the store rejects the save of the outcome only leaves the lead
    stored as failed. *)
Theorem C4_outcome_table env resolve lead w d :
  docs w !! lead = Some d ->
  doc_status d = pending ->
  modified_status d = false -> modified_attempts d = false ->
  quiet env (resolve lead) ->
  let w' := (run env (CallWorker.processLead resolve lead) w).2 in
  (run env (CallWorker.processLead resolve lead) w).1 = Ok tt /\
  (exists d' e later,
      docs w' !! lead = Some d' /\ doc_id d' = doc_id d /\
      doc_attempts d' = (doc_attempts d + 1)%Z /\
      store_log w' = store_log w ++
        mkStoreEvent (WriteSave (doc_id d) (Some calling) (Some (doc_attempts d + 1)%Z)) e
        :: later /\
      (forall w1,
          run env (CallWorker.attempt resolve lead) w = (Ok tt, w1) ->
          exists outcome w2 w3,
            run env (resolve lead) w2 = (Ok outcome, w3) /\
            doc_status d' = default calling (outcome_table outcome (doc_attempts d + 1)) /\
            forall l, db_leads w !! doc_id d = Some l ->
              exists l', db_leads w' !! doc_id d = Some l' /\
                         status l' = doc_status d' /\ attempts l' = doc_attempts d') /\
      (forall err w1,
          run env (CallWorker.attempt resolve lead) w = (Throw err, w1) ->
          doc_status d' = failed /\
          exists ma e2 before,
            store_log w' = store_log w ++ before ++
              [mkStoreEvent (WriteSave (doc_id d) (Some failed) ma) e2] /\
            forall l, db_leads w !! doc_id d = Some l ->
              exists l', db_leads w' !! doc_id d = Some l' /\
                (e2 = None -> status l' = failed /\ attempts l' = doc_attempts d'))) /\
  ((forall n, outcome_table "completed" n = Some completed) /\
   (forall n, (3 <= n)%Z -> outcome_table "no_answer" n = Some failed) /\
   (forall n, (n < 3)%Z -> outcome_table "no_answer" n = Some pending) /\
   (forall n, outcome_table "failed" n = Some failed)) /\
  Example.after_unanswered_pass (Example.ann_called 1) = Some (pending, 2%Z) /\
  Example.after_unanswered_pass (Example.ann_called 2) = Some (failed, 3%Z) /\
  Example.after_rejected_pass (Example.ann_called 1) = Some (failed, 2%Z) /\
  Example.after_interrupted_pass (Example.ann_called 1) = Some (failed, 2%Z).
Proof.
  intros Hd Hpending Hms Hma Hquiet w'. subst w'.
  split; [|split; [|split; [|by vm_compute]]].
  - unfold CallWorker.processLead. rewrite run_try_catch.
    destruct (run env (CallWorker.attempt resolve lead) w) as [[[]|err] w1] eqn:Hatt;
      [done|].
    destruct (attempt_anatomy env _ _ _ _ _ _ Hd Hpending Hms Hma Hquiet Hatt)
      as (d1 & e & later & Hd1 & _).
    destruct (run env (CallWorker.recover lead err) w1) as [r2 w2] eqn:Hrec.
    by apply (recover_marks_failed env _ _ _ _ _ _ Hd1) in Hrec as [-> _].
  - unfold CallWorker.processLead. rewrite run_try_catch.
    destruct (run env (CallWorker.attempt resolve lead) w) as [[[]|err] w1] eqn:Hatt.
    + destruct (attempt_anatomy env _ _ _ _ _ _ Hd Hpending Hms Hma Hquiet Hatt)
        as (d1 & e & later & Hd1 & Hid & Hatts & Hlog & Hok).
      exists d1, e, later. simpl. repeat split; try done.
      intros w1' [= <-]. by apply Hok.
    + destruct (attempt_anatomy env _ _ _ _ _ _ Hd Hpending Hms Hma Hquiet Hatt)
        as (d1 & e & later & Hd1 & Hid & Hatts & Hlog & _).
      destruct (attempt_throws env _ _ _ _ _ _ Hd Hpending Hms Hma Hquiet Hatt)
        as (d1' & Hd1' & _ & _ & Hmod & Hstored).
      rewrite Hd1 in Hd1'. injection Hd1' as <-.
      destruct (run env (CallWorker.recover lead err) w1) as [r2 w2] eqn:Hrec.
      pose proof Hrec as Hrec'.
      apply (recover_marks_failed env _ _ _ _ _ _ Hd1) in Hrec
        as (_ & _ & d2 & Hd2 & Hfailed & Hatts2 & Hid2).
      apply (recover_saves_failed env _ _ _ _ _ _ Hd1 Hmod) in Hrec'
        as (e2 & Hlog2 & Hdb2).
      exists d2, e, (later ++ [mkStoreEvent
         (WriteSave (doc_id d1) (Some failed)
            (if modified_attempts d1 then Some (doc_attempts d1) else None)) e2]).
      simpl.
      split; [done|]. split; [congruence|]. split; [congruence|].
      split; [by rewrite Hlog2, Hlog, <- app_assoc|]. split; [done|].
      intros err' w1' [= <- <-]. split; [done|].
      eexists _, e2, (_ :: later).
      split; [rewrite Hlog2, Hlog, <- app_assoc, Hid; reflexivity|].
      intros l Hl. destruct (Hstored l Hl) as (l1 & Hl1 & Ha1).
      rewrite <- Hid in Hl1. destruct (Hdb2 l1 Hl1) as [Hacc Hrej].
      rewrite Hid in Hacc, Hrej.
      destruct e2 as [e2|].
      * exists l1. split; [by apply (Hrej e2)|done].
      * eexists. split; [by apply Hacc|]. intros _. simpl. split; [done|].
        rewrite Hatts2. destruct (modified_attempts d1); simpl; auto.
  - unfold outcome_table. simpl. repeat split; try done.
    + intros n Hn. by destruct (Z.leb_spec 3 n); [|lia].
    + intros n Hn. by destruct (Z.leb_spec 3 n); [lia|].
Qed.

Lemma C4_outcome_table_witness :
  let env := Example.env_store_hiccup 3 in
  let w := Example.fetched (Example.ann_called 1) in
  let w' := (run env (CallWorker.processLead CallWorker.simulateCallOutcome 0) w).2 in
  (run env (CallWorker.processLead CallWorker.simulateCallOutcome 0) w).1 = Ok tt /\
  (exists d', docs w' !! 0%nat = Some d' /\
              doc_status d' = failed /\ doc_attempts d' = 2%Z) /\
  (exists l', db_leads w' !! 7%nat = Some l' /\
              status l' = failed /\ attempts l' = 2%Z).
Proof.
  intros env w w'.
  destruct (C4_outcome_table env CallWorker.simulateCallOutcome 0 w
              (hydrate (7%nat, Example.ann_called 1)))
    as (Hok & (d' & e & later & Hd' & _ & Hatts & _ & _ & Hthrow) & _).
  - reflexivity.
  - reflexivity.
  - reflexivity.
  - reflexivity.
  - intros w0. repeat split; reflexivity.
  - destruct (Hthrow "write rejected"
                (run env (CallWorker.attempt CallWorker.simulateCallOutcome 0) w).2)
      as (Hfailed & ma & e2 & before & Hlog & Hstored).
    { vm_compute. reflexivity. }
    destruct (Hstored (Example.ann_called 1)) as (l' & Hl' & Hl'').
    { reflexivity. }
    assert (He2 : e2 = None).
    { change (store_log (run env (CallWorker.processLead CallWorker.simulateCallOutcome 0) w).2)
        with ([mkStoreEvent (WriteSave 7 (Some calling) (Some 2%Z)) (Some "write rejected")]
              ++ [mkStoreEvent (WriteSave 7 (Some failed) (Some 2%Z)) None]) in Hlog.
      simpl in Hlog.
      change (?a :: ?b :: nil = before ++ ?c) with ([a] ++ [b] = before ++ c) in Hlog.
      apply app_inj_tail in Hlog as [_ Hlog]. by injection Hlog. }
    destruct (Hl'' He2) as [Hst Hat].
    split; [exact Hok|]. split.
    + exists d'. split; [exact Hd'|]. split; [exact Hfailed|exact Hatts].
    + exists l'. split; [exact Hl'|]. split; [exact Hst|]. rewrite Hat. exact Hatts.
Defined.

(** ** C5: the interest score stays on its scale *)

Lemma Qle_bool_false a b : Qle_bool a b = false -> (b < a)%Q.
Proof.
  intros H. apply Qnot_le_lt. intros Hle. apply Qle_bool_iff in Hle. congruence.
Qed.

Lemma Math_clamp_range x :
  (0 <= JS.Math_max 0 (JS.Math_min 100 x))%Q /\
  (JS.Math_max 0 (JS.Math_min 100 x) <= 100)%Q.
Proof.
  unfold JS.Math_max, JS.Math_min.
  destruct (Qle_bool 100 x) eqn:H1; simpl.
  - split; [done|apply Qle_refl].
  - apply Qle_bool_false in H1.
    destruct (Qle_bool 0 x) eqn:H2.
    + apply Qle_bool_iff in H2. split; [done|by apply Qlt_le_weak].
    + split; [apply Qle_refl|done].
Qed.

Lemma Math_clamp_is_clamp x :
  (JS.Math_max 0 (JS.Math_min 100 x) == clamp x 0 100)%Q.
Proof.
  unfold JS.Math_max, JS.Math_min, clamp.
  destruct (Qle_bool 100 x) eqn:H1; simpl.
  - apply Qle_bool_iff in H1.
    destruct (Qle_bool x 0) eqn:H2; [|reflexivity].
    apply Qle_bool_iff in H2.
    exfalso. apply (Qle_not_lt _ _ (Qle_trans _ _ _ H1 H2)). reflexivity.
  - destruct (Qle_bool 0 x) eqn:H2; destruct (Qle_bool x 0) eqn:H3; try reflexivity.
    + apply Qle_bool_iff in H2, H3. by apply Qle_antisym.
    + apply Qle_bool_false in H2, H3. exfalso. apply (Qlt_irrefl x).
      by apply Qlt_trans with 0%Q.
Qed.

Lemma score_after_range start deltas :
  ((0 <= start)%Q /\ (start <= 100)%Q) \/ deltas <> [] ->
  (0 <= score_after start deltas)%Q /\ (score_after start deltas <= 100)%Q.
Proof.
  unfold score_after. revert start.
  induction deltas as [|d deltas IH]; intros start; simpl.
  - intros [H|H]; [done|congruence].
  - intros _. apply IH. left. apply Math_clamp_range.
Qed.

Lemma updateData_clamped lead aiResult history e1 e2 leadId :
  is_unclamped_update
    (LeadFindByIdAndUpdate leadId
       (ConversationService.updateData lead aiResult history e1 e2)) = false.
Proof.
  simpl. unfold ConversationService.newInterestScore.
  destruct (Math_clamp_range (interest_score lead + interest_score_delta aiResult))
    as [H1 H2].
  apply Qle_bool_iff in H1, H2. by rewrite H1, H2.
Qed.

Lemma retrieveContext_clamped q k f :
  never (@is_unclamped_update) (RAGService.retrieveContext q k f).
Proof.
  unfold RAGService.retrieveContext, RAGService.initializeCollection,
    RAGService.getChromaClient, RAGService.collectionName.
  repeat never_step.
Qed.

Lemma generateAIResponse_clamped h c :
  never (@is_unclamped_update) (LLMService.generateAIResponse h c).
Proof.
  unfold LLMService.generateAIResponse, LLMService.getModel.
  repeat never_step.
Qed.

(** Every update a turn can ask for carries a score on the scale. *)
Lemma turn_clamped leadId userMessage :
  never (@is_unclamped_update) (ConversationService.processMessage leadId userMessage).
Proof.
  rewrite processMessage_stages.
  apply never_try_catch; [|intros; unfold rethrow; repeat never_step].
  apply never_bind; [by apply never_call|]. intros [lead|]; [|exact I].
  apply never_bind;
    [apply never_await; [done|apply retrieveContext_clamped]|]. intros context.
  apply never_bind;
    [apply never_await; [done|apply generateAIResponse_clamped]|]. intros aiResult.
  unfold persist.
  apply never_bind; [by apply never_call|]. intros t_user.
  apply never_bind; [by apply never_call|]. intros t_assistant.
  apply never_bind; [apply never_call, updateData_clamped|]. intros updated.
  repeat never_step.
Qed.

Lemma exec_scores_in_range env {X} (op : Op X) w :
  is_unclamped_update op = false ->
  scores_in_range w -> scores_in_range (exec env op w).2.
Proof.
  intros Hop Hw.
  destruct op; simpl; try (repeat case_answer; by simpl).
  - (* findByIdAndUpdate *)
    simpl in Hop. apply negb_false_iff, andb_true_iff in Hop as [H1 H2].
    apply Qle_bool_iff in H1, H2.
    destruct (write_fault env (ticks w)); [done|].
    destruct (db_leads w !! id) as [l|] eqn:Hl; [|done].
    intros id' l'. simpl. destruct (decide (id = id')) as [<-|Hne].
    + rewrite lookup_insert_eq. by intros [= <-].
    + rewrite lookup_insert_ne by done. apply Hw.
  - (* save *)
    destruct (docs w !! d) as [doc|]; [|done].
    destruct (modified_status doc || modified_attempts doc); [|done].
    destruct (write_fault env (ticks w)); [done|].
    destruct (db_leads w !! doc_id doc) as [l|] eqn:Hl; [|done].
    intros id' l'. simpl. destruct (decide (doc_id doc = id')) as [<-|Hne].
    + rewrite lookup_insert_eq. intros [= <-]. simpl. by apply (Hw _ _ Hl).
    + rewrite lookup_insert_ne by done. apply Hw.
Qed.

Section clamped_pool.
Context (env : Env).

Lemma settle_scores {A} (p : Proc A) w :
  never (@is_unclamped_update) p -> scores_in_range w ->
  never (@is_unclamped_update) (settle env p w).1 /\
  scores_in_range (settle env p w).2.
Proof.
  revert w. induction p as [a|e|X op k IH]; intros w Hp Hw; simpl; try done.
  destruct (is_await op); [done|].
  destruct Hp as [Hop Hk].
  pose proof (exec_scores_in_range env op w Hop Hw) as Hw1.
  destruct (exec env op w) as [r w1]. by apply IH.
Qed.

Lemma step_scores {A} (c c' : list (Proc A) * World) :
  step env c c' ->
  Forall (never (@is_unclamped_update)) c.1 -> scores_in_range c.2 ->
  Forall (never (@is_unclamped_update)) c'.1 /\ scores_in_range c'.2.
Proof.
  intros [ps w i X op k r w1 p' w2 Hi Hawait Hexec Hsettle] Hps Hw. simpl in *.
  pose proof (Forall_lookup_1 _ _ _ _ Hps Hi) as [Hop Hk].
  pose proof (exec_scores_in_range env op w Hop Hw) as Hw1. rewrite Hexec in Hw1.
  destruct (settle_scores (k r) w1 (Hk r) Hw1) as [Hp' Hw2].
  rewrite Hsettle in Hp', Hw2. split; [|done].
  by apply Forall_insert.
Qed.

Lemma steps_scores {A} (c c' : list (Proc A) * World) :
  steps env c c' ->
  Forall (never (@is_unclamped_update)) c.1 -> scores_in_range c.2 ->
  Forall (never (@is_unclamped_update)) c'.1 /\ scores_in_range c'.2.
Proof.
  induction 1 as [c|c1 c2 c3 Hstep _ IH]; [done|].
  intros Hps Hw. destruct (step_scores _ _ Hstep Hps Hw). by apply IH.
Qed.

Lemma spawn_all_scores {A} (ps : list (Proc A)) c :
  Forall (never (@is_unclamped_update)) ps ->
  Forall (never (@is_unclamped_update)) c.1 -> scores_in_range c.2 ->
  Forall (never (@is_unclamped_update)) (spawn_all env ps c).1 /\
  scores_in_range (spawn_all env ps c).2.
Proof.
  unfold spawn_all. revert c.
  induction ps as [|p ps IH]; intros c Hps Hc Hw; simpl; [done|].
  apply Forall_cons in Hps as [Hp Hps].
  apply IH; [done| |]; unfold spawn;
    destruct (settle_scores p c.2 Hp Hw) as [H1 H2];
    destruct (settle env p c.2) as [p' w']; simpl in *; [|done].
  apply Forall_app. split; [done|]. by apply Forall_singleton.
Qed.
End clamped_pool.

(** C5.  A turn that returns has looked up its lead, retrieved a context
    for the message, obtained a record from the generation step for that
    context, and then asked the store for exactly one update, which the
    store accepted.  The score that update sets is
    [Math.max(0, Math.min(100, score + delta))], where [score] is the score
    of the lead as looked up and [delta] the delta of the record the
    generation step returned in this turn; it is the score stored for the
    lead when the turn returns and the score the turn reports; it equals
    [clamp(score + delta, 0, 100)] and lies in [0,100], whatever the two
    values are.  The same holds of the statements behind the generation
    step taken by themselves: whatever the store holds when they start
    (other turns may have written to the lead since the lookup), the score
    stored when they return is computed from the score looked up and the
    delta generated.  For every sequence of deltas the score stays in
    [0,100] from the first update on.  Under arbitrary interleaving: when
    any number of turns run concurrently on a store whose scores are in
    [0,100], they are in [0,100] at every moment. *)
Theorem C5_score_clamped env leadId userMessage w out w' :
  run env (ConversationService.processMessage leadId userMessage) w = (Ok out, w') ->
  (exists lead w1 context w2 aiResult w3 u c lead',
      run env (call (LeadFindById leadId)) w = (Ok (Some lead), w1) /\
      run env (await (RAGService.retrieveContext userMessage 3 [])) w1
        = (Ok context, w2) /\
      run env (await (LLMService.generateAIResponse
                        (transcript lead ++ [mkEntry user userMessage None])
                        context)) w2 = (Ok aiResult, w3) /\
      run env (persist leadId userMessage lead aiResult) w3 = (Ok out, w') /\
      store_log w' = store_log w ++
        [mkStoreEvent (WriteUpdate leadId u) None; mkStoreEvent (WriteCallLog c) None] /\
      set_interest_score u =
        JS.Math_max 0 (JS.Math_min 100
                         (interest_score lead + interest_score_delta aiResult)) /\
      db_leads w' !! leadId = Some lead' /\
      interest_score lead' = set_interest_score u /\
      (interest_score lead' ==
         clamp (interest_score lead + interest_score_delta aiResult) 0 100)%Q /\
      (0 <= interest_score lead')%Q /\ (interest_score lead' <= 100)%Q /\
      view_interest_score (turn_lead out) = interest_score lead') /\
  (forall lead aiResult w3 out0 w4,
      run env (persist leadId userMessage lead aiResult) w3 = (Ok out0, w4) ->
      exists lead',
        db_leads w4 !! leadId = Some lead' /\
        interest_score lead' =
          JS.Math_max 0 (JS.Math_min 100
                           (interest_score lead + interest_score_delta aiResult)) /\
        view_interest_score (turn_lead out0) = interest_score lead') /\
  (forall start delta deltas,
      (0 <= score_after start (delta :: deltas))%Q /\
      (score_after start (delta :: deltas) <= 100)%Q) /\
  (forall (turns : list (LeadId * string)) w0 c,
      scores_in_range w0 ->
      steps env
        (spawn_all env
           (map (fun t => ConversationService.processMessage t.1 t.2) turns) ([], w0))
        c ->
      scores_in_range c.2).
Proof.
  intros Hrun. split; [|split; [|split]].
  - assert (Hfind : exists lead,
              run env (call (LeadFindById leadId)) w = (Ok (Some lead), tick w) /\
              db_leads w !! leadId = Some lead).
    { destruct (turn_cases env leadId userMessage w)
        as [(e & _ & H)|[(_ & _ & H)|(lead & _ & _ & _ & _ & Hread & Hlead & _)]].
      - rewrite H, run_rethrow in Hrun. done.
      - rewrite H, run_rethrow in Hrun. done.
      - exists lead. split; [|done]. rewrite run_call. simpl. by rewrite Hread, Hlead. }
    destruct Hfind as (lead0 & Hfind & Hlead0).
    apply turn_returns in Hrun
      as (lead & context & w2 & aiResult & w3 & Hlead & Hctx & Hgen & Hdb & _ & Hlog & Hp).
    rewrite Hlead in Hlead0. injection Hlead0 as <-.
    pose proof Hp as Hp'.
    apply persist_returns in Hp' as (stored & Hstored & Hout & Hdb' & _ & Hlog' & _).
    exists lead, (tick w), context, w2, aiResult, w3.
    eexists _, _, _.
    split; [done|]. split; [done|]. split; [done|]. split; [done|].
    split; [rewrite Hlog', Hlog; reflexivity|].
    split; [reflexivity|].
    split; [by rewrite Hdb', lookup_insert_eq|]. simpl.
    unfold ConversationService.newInterestScore.
    split; [done|]. split; [apply Math_clamp_is_clamp|].
    split; [apply Math_clamp_range|]. split; [apply Math_clamp_range|].
    by rewrite Hout.
  - intros lead aiResult w3 out0 w4 Hp.
    apply persist_returns in Hp as (stored & _ & Hout & Hdb' & _).
    eexists. split; [by rewrite Hdb', lookup_insert_eq|]. simpl.
    split; [done|]. by rewrite Hout.
  - intros start delta deltas. apply score_after_range. by right.
  - intros turns w0 c Hw0 Hsteps.
    assert (Hturns : Forall (never (@is_unclamped_update))
              (map (fun t : nat * string =>
                      ConversationService.processMessage t.1 t.2) turns)).
    { apply Forall_map, Forall_forall. intros [id m] _. apply turn_clamped. }
    destruct (spawn_all_scores env _ ([], w0) Hturns (Forall_nil_2 _) Hw0) as [Hps Hw].
    by destruct (steps_scores env _ _ Hsteps Hps Hw).
Qed.

Lemma C5_score_clamped_witness :
  let env := Example.env_chat (Example.reply_with 2) in
  let w := Example.world_of Example.ann in
  let w' := (run env (ConversationService.processMessage 7 Example.fees_question) w).2 in
  exists lead',
    db_leads w' !! 7%nat = Some lead' /\
    interest_score lead' = 2%Q /\
    view_interest_score (turn_lead Example.fees_result) = interest_score lead'.
Proof.
  intros env w w'.
  destruct (C5_score_clamped env 7 Example.fees_question w Example.fees_result w')
    as ((lead & w1 & context & w2 & aiResult & w3 & u & c & lead'
         & Hfind & Hctx & Hgen & _ & _ & Hu & Hl & Hs & _ & _ & _ & Hv) & _).
  { vm_compute. reflexivity. }
  vm_compute in Hfind. injection Hfind as <- <-.
  vm_compute in Hctx. injection Hctx as <- <-.
  vm_compute in Hgen. injection Hgen as <- <-.
  exists lead'. split; [exact Hl|]. split; [|exact Hv].
  rewrite Hs, Hu. vm_compute. reflexivity.
Defined.

(** ** C6 and C8: the validation of the model's output *)

Lemma truthy_and a b : JS.truthy (JS.and a b) = JS.truthy a && JS.truthy b.
Proof. unfold JS.and. by destruct (JS.truthy a) eqn:E; simpl. Qed.

(** What the validation expression establishes. *)
Lemma isValid_truthy parsed :
  JS.truthy (LLMService.isValid parsed) =
  JS.truthy (JS.get parsed "response") &&
  (String.eqb (JS.typeof (JS.get parsed "response")) "string" &&
  (JS.truthy (JS.get parsed "intent") &&
  (String.eqb (JS.typeof (JS.get parsed "intent")) "string" &&
  (String.eqb (JS.typeof (JS.get parsed "interest_score_delta")) "number" &&
  (String.eqb (JS.typeof (JS.get parsed "course_detected")) "string" &&
  (String.eqb (JS.typeof (JS.get parsed "objection_detected")) "string" &&
   String.eqb (JS.typeof (JS.get parsed "handoff_required")) "boolean")))))).
Proof. unfold LLMService.isValid. by rewrite !truthy_and. Qed.

Lemma isValid_typed parsed :
  JS.truthy (LLMService.isValid parsed) = true -> six_fields_typed parsed = true.
Proof.
  rewrite isValid_truthy. unfold six_fields_typed.
  intros H. repeat (apply andb_true_iff in H as [? H]).
  repeat (apply andb_true_iff; split); done.
Qed.

Lemma run_getModel env w :
  (exists w', run env LLMService.getModel w = (Ok tt, w')) \/
  (exists w', run env LLMService.getModel w =
              (Throw "GROQ_API_KEY environment variable is not set", w')).
Proof.
  unfold LLMService.getModel.
  rewrite run_bind_call. cbn [exec cell].
  destruct (has_model w); [left; by eexists|].
  rewrite run_bind_call. cbn [exec].
  destruct (getenv env "GROQ_API_KEY") as [[|c s]|]; [right|left|right];
    eexists; reflexivity.
Qed.

(** The steps of the generation behind the gate, up to the validation. *)
Lemma run_generate_open env history context w :
  JS.includes "No relevant information found" context = false ->
  JS.includes "Unable to retrieve context" context = false ->
  run env (LLMService.generateAIResponse history context) w =
  match run env
          (LLMService.getModel;;
           response_content <-
             call (ModelInvoke (LLMService.messages_for history context));;
           match JS.match_braces (JS.trim response_content) with
           | None => Raise "No JSON found in LLM response"
           | Some jsonMatch =>
               parsed <- call (JsonParse jsonMatch);;
               if JS.nullish parsed
               then Raise "Cannot read properties of null (reading 'response')"
               else if negb (JS.truthy (LLMService.isValid parsed))
               then call (Log warn "LLM returned incomplete JSON structure, using fallback");;
                    Raise "Invalid JSON structure from LLM"
               else Ret (LLMService.record_of parsed)
           end) w with
  | (Ok a, w') => (Ok a, w')
  | (Throw e, w') =>
      (Ok LLMService.fallback,
       tick (with_log_lines (fun ls => ls ++ [(error, "LLM Service Error: " +:+ e)]) w'))
  end.
Proof.
  intros H1 H2. unfold LLMService.generateAIResponse.
  rewrite run_try_catch, H1, H2. simpl orb. cbv iota.
  match goal with |- context [run env ?p w] => destruct (run env p w) as [[a|e] w'] end;
    done.
Qed.

(** C6.  Suppose the gate is open and the model's raw output is [raw].
    If no brace-delimited substring can be located in it, or the located
    substring does not parse, or the parsed value lacks one of the six
    fields or holds one with the wrong primitive type, then the generation
    step returns the fallback record, whole: the clarification text, intent
    [general], delta zero, empty course and objection, no handoff.  And the
    generation step never throws, whatever its inputs and the world. *)
Theorem C6_fallback_on_invalid env history context w raw :
  JS.includes "No relevant information found" context = false ->
  JS.includes "Unable to retrieve context" context = false ->
  (forall t, model_answer env t (LLMService.messages_for history context) = Ok raw) ->
  (JS.match_braces (JS.trim raw) = None \/
   exists jsonMatch,
     JS.match_braces (JS.trim raw) = Some jsonMatch /\
     (JSON_parse env jsonMatch = None \/
      exists parsed,
        JSON_parse env jsonMatch = Some parsed /\ six_fields_typed parsed = false)) ->
  (run env (LLMService.generateAIResponse history context) w).1 = Ok LLMService.fallback /\
  LLMService.fallback =
    mkAiResult "I'm here to help you with admissions. Could you please rephrase your question?"
               "general" 0 EmptyString EmptyString false /\
  (forall history' context' w0,
      exists aiResult w0',
        run env (LLMService.generateAIResponse history' context') w0 = (Ok aiResult, w0')).
Proof.
  intros Hgate1 Hgate2 Hmodel Hbad.
  split; [|split; [done|intros; apply generateAIResponse_returns]].
  rewrite run_generate_open by done. rewrite run_bind.
  destruct (run_getModel env w) as [[w1 ->]|[w1 ->]]; [|done].
  rewrite run_bind_call. cbn [exec]. rewrite Hmodel.
  destruct Hbad as [-> | (jsonMatch & -> & Hparse)]; [done|].
  rewrite run_bind_call. cbn [exec].
  destruct Hparse as [-> | (parsed & -> & Htyped)]; [done|].
  destruct (JS.nullish parsed); [done|].
  destruct (JS.truthy (LLMService.isValid parsed)) eqn:Hvalid; [|done].
  apply isValid_typed in Hvalid. congruence.
Qed.

Lemma C6_fallback_on_invalid_witness :
  (run (Example.env_chat Example.reply_incomplete)
       (LLMService.generateAIResponse
          [mkEntry user Example.fees_question None]
          "[Source 1]: Fees are listed in the brochure.")
       (Example.world_of Example.ann)).1 = Ok LLMService.fallback.
Proof.
  apply (C6_fallback_on_invalid (Example.env_chat Example.reply_incomplete)
           [mkEntry user Example.fees_question None]
           "[Source 1]: Fees are listed in the brochure."
           (Example.world_of Example.ann)
           ("Here is my answer: " +:+ Example.show_record Example.reply_incomplete +:+ " ")).
  - vm_compute. reflexivity.
  - vm_compute. reflexivity.
  - intros t. reflexivity.
  - right. exists (Example.show_record Example.reply_incomplete). split.
    + vm_compute. reflexivity.
    + right. exists (JS.Obj Example.reply_incomplete). split.
      * vm_compute. reflexivity.
      * vm_compute. reflexivity.
Defined.

Lemma isValid_not_nullish parsed :
  JS.truthy (LLMService.isValid parsed) = true -> JS.nullish parsed = false.
Proof. by destruct parsed. Qed.

Lemma isValid_delta parsed :
  JS.truthy (LLMService.isValid parsed) = true ->
  exists q, JS.get parsed "interest_score_delta" = JS.Num q.
Proof.
  rewrite isValid_truthy. intros H. repeat (apply andb_true_iff in H as [? H]).
  destruct (JS.get parsed "interest_score_delta"); try done. by eexists.
Qed.

(** C8 as stated fails: a reply whose delta is 50 passes the validation,
    and the generation step returns it with that delta. *)
Lemma C8_counterexample :
  (run (Example.env_chat (Example.reply_with 50))
       (LLMService.generateAIResponse
          [mkEntry user Example.fees_question None]
          "[Source 1]: Fees are listed in the brochure.")
       (Example.world_of Example.ann)).1
  = Ok (mkAiResult "The fee is listed in the brochure." "pricing" 50 "B.Tech"
                   EmptyString false) /\
  ~ (forall parsed,
        JS.truthy (LLMService.isValid parsed) = true ->
        exists z : Z,
          (interest_score_delta (LLMService.record_of parsed) == inject_Z z)%Q /\
          (-3 <= z <= 3)%Z).
Proof.
  split; [by vm_compute|].
  intros H. destruct (H (JS.Obj (Example.reply_with 50))) as (z & Hz & Hrange).
  - by vm_compute.
  - unfold Qeq in Hz. simpl in Hz. lia.
Qed.

(** C8, amended.  A record that passes the validation, and that the
    generation step therefore returns as it is, has an
    [interest_score_delta] whose primitive type is number: the validation
    checks the type only.  Neither integrality nor a range is checked:
    whatever the number, the reply that carries it passes. *)
Theorem C8_delta_is_a_number env history context w raw jsonMatch parsed :
  JS.includes "No relevant information found" context = false ->
  JS.includes "Unable to retrieve context" context = false ->
  (forall t, model_answer env t (LLMService.messages_for history context) = Ok raw) ->
  (exists w1, run env LLMService.getModel w = (Ok tt, w1)) ->
  JS.match_braces (JS.trim raw) = Some jsonMatch ->
  JSON_parse env jsonMatch = Some parsed ->
  JS.truthy (LLMService.isValid parsed) = true ->
  (run env (LLMService.generateAIResponse history context) w).1
  = Ok (LLMService.record_of parsed) /\
  (exists q,
      JS.get parsed "interest_score_delta" = JS.Num q /\
      interest_score_delta (LLMService.record_of parsed) = q) /\
  (forall q, JS.truthy (LLMService.isValid (JS.Obj (Example.reply_with q))) = true).
Proof.
  intros Hgate1 Hgate2 Hmodel [w1 Hkey] Hmatch Hparse Hvalid.
  split; [|split; [|done]].
  - rewrite run_generate_open by done. rewrite run_bind, Hkey.
    rewrite run_bind_call. cbn [exec]. rewrite Hmodel, Hmatch.
    rewrite run_bind_call. cbn [exec]. rewrite Hparse.
    by rewrite (isValid_not_nullish _ Hvalid), Hvalid.
  - destruct (isValid_delta _ Hvalid) as [q Hq]. exists q. split; [done|].
    unfold LLMService.record_of. simpl. by rewrite Hq.
Qed.

Lemma C8_delta_is_a_number_witness :
  interest_score_delta
    (LLMService.record_of (JS.Obj (Example.reply_with (1 # 2)))) = (1 # 2)%Q /\
  (run (Example.env_chat (Example.reply_with (1 # 2)))
       (LLMService.generateAIResponse
          [mkEntry user Example.fees_question None]
          "[Source 1]: Fees are listed in the brochure.")
       (Example.world_of Example.ann)).1
  = Ok (LLMService.record_of (JS.Obj (Example.reply_with (1 # 2)))).
Proof.
  destruct (C8_delta_is_a_number
              (Example.env_chat (Example.reply_with (1 # 2)))
              [mkEntry user Example.fees_question None]
              "[Source 1]: Fees are listed in the brochure."
              (Example.world_of Example.ann)
              ("Here is my answer: " +:+
               Example.show_record (Example.reply_with (1 # 2)) +:+ " ")
              (Example.show_record (Example.reply_with (1 # 2)))
              (JS.Obj (Example.reply_with (1 # 2))))
    as (Hrun & (q & Hq & Hdelta) & _).
  - vm_compute. reflexivity.
  - vm_compute. reflexivity.
  - intros t. reflexivity.
  - eexists. vm_compute. reflexivity.
  - vm_compute. reflexivity.
  - vm_compute. reflexivity.
  - vm_compute. reflexivity.
  - split; [|exact Hrun]. reflexivity.
Defined.

(** ** C7: which failures surface *)

Lemma retrieveContext_degrades env e q k f w :
  (forall t p, index_answer env t p = Throw e) ->
  (run env (RAGService.retrieveContext q k f) w).1 = Ok RAGService.unavailable.
Proof.
  intros Hdown. unfold RAGService.retrieveContext. rewrite run_try_catch.
  match goal with
  | |- context [run env ?p w] => destruct (run env p w) as [[context|err] w1] eqn:Hbody
  end; [|done].
  exfalso. revert Hbody.
  rewrite run_bind_call. cbn [exec]. rewrite run_bind.
  match goal with
  | |- context [run env ?p ?w0] => destruct (run env p w0) as [[[]|err] w2]
  end; [|done].
  rewrite run_bind_call. cbn [exec]. by rewrite Hdown.
Qed.

Lemma persist_succeeds env leadId userMessage lead aiResult w stored :
  (forall t, write_fault env t = None) ->
  db_leads w !! leadId = Some stored ->
  exists out w',
    run env (persist leadId userMessage lead aiResult) w = (Ok out, w') /\
    turn_response out = response aiResult /\
    meta_handoff_required (turn_metadata out) = handoff_required aiResult.
Proof.
  intros Hstore Hstored. unfold persist. simpl.
  rewrite Hstore. simpl. rewrite Hstored. simpl. rewrite Hstore. simpl.
  do 2 eexists. split; [reflexivity|done].
Qed.

(** C7.  A write that the store rejects during a turn is never swallowed:
    in every environment and world, if one of the writes the turn asked
    for was rejected with an error, the turn throws that error to its
    caller (so a turn that returns had all its writes accepted).  A failure
    of the retrieval collaborator, in contrast, never aborts the turn:
    [retrieveContext] never throws, and when the index rejects the query it
    returns the retrieval-failure sentinel, after which a turn on an
    existing lead, the store accepting its writes, returns the handoff
    response. *)
Theorem C7_failures env leadId userMessage w lead e :
  read_fault env (ticks w) = None ->
  db_leads w !! leadId = Some lead ->
  (forall t p, index_answer env t p = Throw e) ->
  (forall env0 id message w0,
      exists events,
        store_log (run env0 (ConversationService.processMessage id message) w0).2
        = store_log w0 ++ events /\
        forall sw err,
          mkStoreEvent sw (Some err) ∈ events ->
          (run env0 (ConversationService.processMessage id message) w0).1 = Throw err) /\
  (forall env0 q k f w0,
      exists context w0',
        run env0 (RAGService.retrieveContext q k f) w0 = (Ok context, w0')) /\
  (forall w0, (run env (RAGService.retrieveContext userMessage 3 []) w0).1
              = Ok RAGService.unavailable) /\
  ((forall t, write_fault env t = None) ->
   exists out w',
     run env (ConversationService.processMessage leadId userMessage) w = (Ok out, w') /\
     turn_response out = response LLMService.handoff /\
     meta_handoff_required (turn_metadata out) = true).
Proof.
  intros Hread Hlead Hdown. split; [|split; [|split]].
  - intros env0 id message w0.
    destruct (turn_cases env0 id message w0)
      as [(err & _ & ->)|[(_ & _ & ->)|(lead0 & context & w2 & aiResult & w3 & _ & _
                                       & _ & _ & _ & _ & Hstore & ->)]].
    + exists []. rewrite run_rethrow, app_nil_r. split; [done|].
      intros sw err' Hin. by apply elem_of_nil in Hin.
    + exists []. rewrite run_rethrow, app_nil_r. split; [done|].
      intros sw err' Hin. by apply elem_of_nil in Hin.
    + destruct (run env0 (persist id message lead0 aiResult) w3) as [r w4] eqn:Hp.
      apply persist_surfaces in Hp as (events & Hlog & Hsurf).
      exists events. rewrite Hstore in Hlog.
      destruct r as [out|err]; [done|]. rewrite run_rethrow. simpl. split; [done|].
      intros sw err' Hin. by rewrite (Hsurf sw err' Hin).
  - intros. apply retrieveContext_returns.
  - intros w0. by apply retrieveContext_degrades with (e := e).
  - intros Hstore.
    destruct (turn_cases env leadId userMessage w)
      as [(err & Hf & _)|[(_ & Hnone & _)|(lead0 & context & w2 & aiResult & w3 & _ & Hl
                                       & Hctx & Hgen & Hdb & _ & _ & ->)]];
      [congruence|congruence|].
    assert (context = RAGService.unavailable) as ->.
    { pose proof (retrieveContext_degrades env e userMessage 3 [] (tick w) Hdown) as Hdeg.
      rewrite run_await, Hdeg in Hctx. congruence. }
    rewrite run_await, gate_closed in Hgen by (by right). injection Hgen as <- <-.
    destruct (persist_succeeds env leadId userMessage lead0 LLMService.handoff
                (tick w2) lead0 Hstore) as (out & w' & -> & Hresp & Hflag).
    { cbn [db_leads tick] in *. congruence. }
    by exists out, w'.
Qed.

Lemma C7_failures_witness :
  exists out w',
    run Example.env_index_down
        (ConversationService.processMessage 7 Example.fees_question)
        (Example.world_of Example.ann) = (Ok out, w') /\
    turn_response out = response LLMService.handoff /\
    meta_handoff_required (turn_metadata out) = true.
Proof.
  apply (C7_failures Example.env_index_down 7 Example.fees_question
           (Example.world_of Example.ann) Example.ann
           "connect ECONNREFUSED 127.0.0.1:8000").
  - reflexivity.
  - reflexivity.
  - intros t p. reflexivity.
  - intros t. reflexivity.
Defined.

(** ** C9: when the summary is set *)

Lemma substring0_length n s : String.length (JS.substring0 n s) <= n.
Proof.
  unfold JS.substring0. revert s.
  induction n as [|n IH]; intros [|c s]; simpl; try lia.
  specialize (IH s). lia.
Qed.

(** C9 as stated fails: with four entries stored before the turn, which
    do not exceed four, the turn sets the summary. *)
Lemma C9_counterexample :
  length (transcript Example.ann_talked) = 4%nat /\
  summary <$>
    (db_leads
       (run (Example.env_chat (Example.reply_with 2))
            (ConversationService.processMessage 7 Example.fees_question)
            (Example.world_of Example.ann_talked)).2 !! 7%nat)
  = Some "user: Hello | assistant: Hello Ann, how can I help? | user: Do you offer B.Tech? | assistant: Yes, B.Tech is offered. | user: What are the fees? | assistant: The fee is listed in the brochure." /\
  ~ (forall lead aiResult userMessage e1 e2,
        is_Some (set_summary
                   (ConversationService.updateData lead aiResult
                      (transcript lead ++ [mkEntry user userMessage None]) e1 e2))
        <-> 4 < length (transcript lead)).
Proof.
  split; [done|]. split; [by vm_compute|].
  intros H.
  destruct (H Example.ann_talked LLMService.handoff Example.fees_question
              (mkEntry user Example.fees_question None)
              (mkEntry assistant EmptyString None)) as [H1 _].
  assert (Hlt : 4 < length (transcript Example.ann_talked)).
  { apply H1. vm_compute. by eexists. }
  vm_compute in Hlt. lia.
Qed.

(** C9, amended.  The update of a turn sets the summary if and only if
    the history of the turn, which is the stored transcript followed by
    the new user message, exceeds four entries; that is, if and only if
    at least four entries were stored before the turn.  When set, the
    summary is [generateSummary] of the last six entries of that history
    followed by the assistant's entry: at most 500 characters, and it is
    what the store then holds; when not set, the stored summary stays as it
    was. *)
Theorem C9_summary_threshold env leadId userMessage w out w' :
  run env (ConversationService.processMessage leadId userMessage) w = (Ok out, w') ->
  exists lead lead' u c,
    db_leads w !! leadId = Some lead /\
    db_leads w' !! leadId = Some lead' /\
    store_log w' = store_log w ++
      [mkStoreEvent (WriteUpdate leadId u) None; mkStoreEvent (WriteCallLog c) None] /\
    (is_Some (set_summary u) <->
     4 < length (transcript lead ++ [mkEntry user userMessage None])) /\
    (is_Some (set_summary u) <-> 4 <= length (transcript lead)) /\
    (forall s,
        set_summary u = Some s ->
        (exists t,
            s = ConversationService.generateSummary
                  (JS.slice_last 6 (transcript lead ++ [mkEntry user userMessage None])
                   ++ [mkEntry assistant (turn_response out) (Some t)])) /\
        String.length s <= 500 /\
        summary lead' = s) /\
    (set_summary u = None -> summary lead' = summary lead).
Proof.
  intros Hrun.
  apply turn_returns in Hrun
    as (lead & context & w2 & aiResult & w3 & Hlead & _ & _ & Hdb & _ & Hstore & Hp).
  apply persist_returns in Hp as (stored & Hstored & Hout & Hdb' & _ & Hlog & _).
  rewrite Hdb, Hlead in Hstored. injection Hstored as <-.
  eexists lead, _, _, _.
  split; [done|]. split; [by rewrite Hdb', lookup_insert_eq|].
  split; [by rewrite Hlog, Hstore|].
  simpl. rewrite Hout. simpl.
  destruct (Nat.ltb_spec 4 (length (transcript lead ++ [mkEntry user userMessage None])))
    as [Hlong|Hshort].
  - split; [by split; [|eexists]|]. split.
    { split; [|by eexists]. intros _. rewrite length_app in Hlong. simpl in Hlong. lia. }
    split; [|done]. intros s [= <-]. split; [by eexists|]. split; [|done].
    apply substring0_length.
  - split.
    { split; [by intros [? ?]|lia]. }
    split.
    { split; [by intros [? ?]|]. rewrite length_app in Hshort. simpl in Hshort. lia. }
    split; [by intros s ?|done].
Qed.

Lemma C9_summary_threshold_witness :
  let env := Example.env_chat (Example.reply_with 2) in
  let w := Example.world_of Example.ann_talked in
  let w' := (run env (ConversationService.processMessage 7 Example.fees_question) w).2 in
  exists lead lead' u c,
    db_leads w !! 7%nat = Some lead /\
    db_leads w' !! 7%nat = Some lead' /\
    store_log w' = store_log w ++
      [mkStoreEvent (WriteUpdate 7 u) None; mkStoreEvent (WriteCallLog c) None] /\
    (is_Some (set_summary u) <-> 4 <= length (transcript lead)).
Proof.
  intros env w w'.
  destruct (C9_summary_threshold env 7 Example.fees_question w
              (mkTurnResult "The fee is listed in the brochure."
                 (mkLeadView 7 "Ann" 6 "B.Tech" pending)
                 (mkMetadata "pricing" false EmptyString)) w')
    as (lead & lead' & u & c & H1 & H2 & H3 & _ & H4 & _).
  { vm_compute. reflexivity. }
  exists lead, lead', u, c. split; [exact H1|]. split; [exact H2|].
  split; [exact H3|exact H4].
Defined.

(** ** C10: a query that matches nothing *)

Section empty_context.
Context (env : Env).

Lemma getModel_configured c s w :
  getenv env "GROQ_API_KEY" = Some (String c s) ->
  exists w1, run env LLMService.getModel w = (Ok tt, w1) /\
             model_requests w1 = model_requests w.
Proof.
  intros Hkey. unfold LLMService.getModel.
  rewrite run_bind_call. cbn [exec cell].
  destruct (has_model w); [by eexists|].
  rewrite run_bind_call. cbn [exec]. rewrite Hkey.
  rewrite run_call. cbn [exec]. by eexists.
Qed.

(** Behind the open gate, with the key configured, exactly one request
    goes to the model: the system prompt around the context, then the
    history. *)
Lemma generate_invokes c s history context w :
  getenv env "GROQ_API_KEY" = Some (String c s) ->
  JS.includes "No relevant information found" context = false ->
  JS.includes "Unable to retrieve context" context = false ->
  model_requests (run env (LLMService.generateAIResponse history context) w).2
  = model_requests w ++ [LLMService.messages_for history context].
Proof.
  intros Hkey Hg1 Hg2. rewrite run_generate_open by done. rewrite run_bind.
  destruct (getModel_configured c s w Hkey) as (w1 & -> & Hw1).
  rewrite run_bind_call. cbn [exec].
  set (w2 := tick _).
  assert (Hw2 : model_requests w2 =
                model_requests w ++ [LLMService.messages_for history context]).
  { subst w2. cbn [model_requests tick with_model_requests]. by rewrite Hw1. }
  clearbody w2.
  destruct (model_answer env (ticks w1) _) as [raw|e]; [|by rewrite <- Hw2].
  match goal with
  | |- context [run env ?p w2] =>
      assert (Hp : never (@is_model_invoke) p) by (repeat never_step);
      pose proof (keeps_model_requests env p w2 Hp) as Hkeep;
      destruct (run env p w2) as [[a|e] w3]
  end; simpl in *; congruence.
Qed.

Lemma initializeCollection_succeeds w :
  has_client w = true -> (forall t, index_fault env t = None) ->
  exists w1, run env RAGService.initializeCollection w = (Ok tt, w1).
Proof.
  intros Hclient Hindex. unfold RAGService.initializeCollection,
    RAGService.getChromaClient, RAGService.collectionName.
  simpl. rewrite Hclient. simpl. rewrite Hindex. simpl. by eexists.
Qed.

(** The query succeeds with an empty first ranked list: the context is the
    empty string. *)
Lemma retrieveContext_empty rest q k f w :
  has_client w = true -> (forall t, index_fault env t = None) ->
  (forall t p, index_answer env t p = Ok (Some ([] :: rest))) ->
  (run env (RAGService.retrieveContext q k f) w).1 = Ok EmptyString.
Proof.
  intros Hclient Hindex Hquery. unfold RAGService.retrieveContext.
  rewrite run_try_catch, run_bind_call. cbn [exec cell].
  destruct (has_collection w).
  - rewrite run_bind. simpl run at 1. cbv iota. rewrite run_bind_call. cbn [exec].
    by rewrite Hquery.
  - rewrite run_bind, run_await.
    destruct (initializeCollection_succeeds (tick w) Hclient Hindex) as (w1 & ->).
    cbn [fst snd]. rewrite run_bind_call. cbn [exec]. by rewrite Hquery.
Qed.
End empty_context.

(** C10.  Let the query of a turn succeed with a documents array whose
    first ranked list is empty (nothing matched), the index client being
    connected and the model key configured.  Then [retrieveContext]
    returns the empty string, which is not the no-match sentinel and does
    not close the gate; the generation collaborator is invoked, once, with
    the system prompt built around the empty context followed by the
    history; and the record the generation step returns is whatever the
    validation makes of the model's answer, not the short-circuit. *)
Theorem C10_empty_context_reaches_model env leadId userMessage w lead rest c s :
  read_fault env (ticks w) = None ->
  db_leads w !! leadId = Some lead ->
  has_client w = true ->
  (forall t, index_fault env t = None) ->
  (forall t p, index_answer env t p = Ok (Some ([] :: rest))) ->
  getenv env "GROQ_API_KEY" = Some (String c s) ->
  (run env (RAGService.retrieveContext userMessage 3 []) (tick w)).1 = Ok EmptyString /\
  EmptyString <> RAGService.no_match /\
  model_requests (run env (ConversationService.processMessage leadId userMessage) w).2
  = model_requests w ++
    [mkChatMessage "system" (LLMService.prompt_head +:+ LLMService.prompt_tail)
     :: map LLMService.chat_message
            (transcript lead ++ [mkEntry user userMessage None])].
Proof.
  intros Hread Hlead Hclient Hindex Hquery Hkey.
  pose proof (retrieveContext_empty env rest userMessage 3 [] (tick w)
                Hclient Hindex Hquery) as Hempty.
  split; [done|]. split; [done|].
  destruct (turn_cases env leadId userMessage w)
    as [(err & Hf & _)|[(_ & Hnone & _)|(lead0 & context & w2 & aiResult & w3 & _ & Hl
                                     & Hctx & Hgen & _ & _ & _ & ->)]];
    [congruence|congruence|].
  assert (lead0 = lead) as -> by congruence.
  assert (context = EmptyString) as ->.
  { rewrite run_await, Hempty in Hctx. congruence. }
  assert (Hw2 : model_requests w2 = model_requests w).
  { apply (model_requests_kept env _ _ _ _
             (never_await _ _ eq_refl (retrieveContext_no_invoke userMessage 3 [])) Hctx). }
  assert (Hw3 : model_requests w3 = model_requests w ++
            [LLMService.messages_for (transcript lead ++ [mkEntry user userMessage None])
               EmptyString]).
  { pose proof (generate_invokes env c s
                  (transcript lead ++ [mkEntry user userMessage None]) EmptyString w2
                  Hkey eq_refl eq_refl) as Hinvoked.
    rewrite run_await in Hgen.
    pose proof (f_equal snd Hgen) as Hsnd. cbn [snd] in Hsnd. rewrite <- Hsnd.
    change (model_requests (tick ?x)) with (model_requests x).
    by rewrite Hinvoked, Hw2. }
  assert (Hpersist : never (@is_model_invoke)
                       (persist leadId userMessage lead aiResult)).
  { unfold persist. repeat never_step. }
  pose proof (keeps_model_requests env _ w3 Hpersist) as Hkeep.
  destruct (run env (persist leadId userMessage lead aiResult) w3) as [[out|e] w4];
    simpl in Hkeep.
  - simpl. by rewrite Hkeep, Hw3.
  - rewrite run_rethrow. simpl. by rewrite Hkeep, Hw3.
Qed.

Lemma C10_empty_context_reaches_model_witness :
  let w := Example.world_of Example.ann in
  (run Example.env_nothing_matched
       (RAGService.retrieveContext Example.fees_question 3 []) (tick w)).1
  = Ok EmptyString /\
  length (model_requests
            (run Example.env_nothing_matched
                 (ConversationService.processMessage 7 Example.fees_question) w).2)
  = 1%nat.
Proof.
  intros w.
  destruct (C10_empty_context_reaches_model Example.env_nothing_matched 7
              Example.fees_question w Example.ann [] "g" "sk")
    as (Hcontext & _ & Hrequests).
  - reflexivity.
  - reflexivity.
  - reflexivity.
  - intros t. reflexivity.
  - intros t p. reflexivity.
  - reflexivity.
  - split; [exact Hcontext|]. rewrite Hrequests. reflexivity.
Defined.

(* ================================================================= *)
(** * Further properties of the services *)

(** ** The reentrancy guard of the periodic trigger *)

Lemma exec_keeps_flag env {X} (op : Op X) w :
  is_flag_store op = false -> isRunning (exec env op w).2 = isRunning w.
Proof.
  destruct op; simpl; try done;
    repeat match goal with
           | |- context [match ?x with _ => _ end] => destruct x
           end; done.
Qed.

Lemma release_is_sync {X} (op : Op X) : is_await op = true -> is_release op = false.
Proof. by destruct op. Qed.

Lemma exec_release env {X} (op : Op X) w :
  is_release op = true -> isRunning (exec env op w).2 = false.
Proof. destruct op; try done. by destruct c, b. Qed.

Lemma releases_try_finally {A} (q : Proc A) :
  never (@is_flag_store) q ->
  releases (try_finally q (call (Store cell_isRunning false))).
Proof.
  induction q as [a|e|X op k IH]; simpl.
  - intros _ [[]|e]; done.
  - intros _ [[]|e']; done.
  - intros [Hop Hk]. destruct (is_release op) eqn:E.
    + destruct op; try done. by destruct c.
    + split; [done|]. intros r. by apply IH.
Qed.

(** Up to its next [await], a procedure that holds the guard either keeps
    holding it or releases it and ends. *)
Lemma settle_releases env {A} (p : Proc A) w :
  releases p -> isRunning w = true ->
  (awaiting (settle env p w).1 = true /\ releases (settle env p w).1 /\
   isRunning (settle env p w).2 = true) \/
  (awaiting (settle env p w).1 = false /\ isRunning (settle env p w).2 = false).
Proof.
  revert w. induction p as [a|e|X op k IH]; intros w Hp Hw; simpl in Hp; try done.
  simpl. destruct (is_await op) eqn:Haw.
  { left. simpl. split; [done|]. split; [exact Hp|exact Hw]. }
  destruct (is_release op) eqn:Hrel.
  - pose proof (exec_release env op w Hrel) as Hflag.
    destruct (exec env op w) as [r w1]. simpl in Hflag.
    right. specialize (Hp r). destruct (k r); try done.
  - destruct Hp as [Hop Hk].
    pose proof (exec_keeps_flag env op w Hop) as Hflag.
    destruct (exec env op w) as [r w1]. simpl in Hflag.
    apply IH; [done|congruence].
Qed.

Lemma processCallQueue_keeps_flag :
  never (@is_flag_store) CallWorker.processCallQueue.
Proof.
  unfold CallWorker.processCallQueue, CallWorker.processCallQueueWith,
    CallWorker.processLead, CallWorker.attempt, CallWorker.recover,
    CallWorker.applyOutcome, CallWorker.simulateCallOutcome.
  repeat never_step.
Qed.

Lemma triggerManually_keeps_flag :
  never (@is_flag_store) CallWorker.triggerManually.
Proof.
  unfold CallWorker.triggerManually. never_step; [never_step|].
  never_step. apply processCallQueue_keeps_flag.
Qed.

Lemma step_guard_held env c c' :
  step env c c' -> guard_held c -> guard_held c'.
Proof.
  intros Hstep (p0 & rest & Hc & Hrest & Hp0).
  destruct Hstep as [ps w i X op k r w1 p' w2 Hi Haw Hexec Hsettle].
  simpl in *. subst ps. destruct i as [|i]; simpl in Hi.
  - injection Hi as ->. destruct Hp0 as [(_ & Hrel & Hw)|[Hno _]]; [|done].
    simpl in Hrel. rewrite (release_is_sync _ Haw) in Hrel. destruct Hrel as [Hop Hk].
    pose proof (exec_keeps_flag env op w Hop) as Hflag. rewrite Hexec in Hflag.
    simpl in Hflag.
    exists p', rest. split; [done|]. split; [done|].
    pose proof (settle_releases env (k r) w1 (Hk r)) as Hs.
    rewrite Hsettle in Hs. simpl in Hs. apply Hs. congruence.
  - exists p0, (<[i := p']> rest). split; [done|].
    pose proof (proj1 (Forall_lookup _ _) Hrest i _ Hi) as [Hop Hk].
    pose proof (exec_keeps_flag env op w Hop) as Hflag. rewrite Hexec in Hflag.
    pose proof (never_settle (@is_flag_store) env (k r) w1 (Hk r)) as Hn.
    pose proof (never_settle_field (@is_flag_store) env isRunning (k r) w1
                  (fun X op w => exec_keeps_flag env op w) (Hk r)) as Hf.
    rewrite Hsettle in Hn, Hf. simpl in Hn, Hf, Hflag.
    split; [by apply Forall_insert|].
    simpl. rewrite Hf, Hflag. done.
Qed.

Lemma spawn_guard_held env p c :
  never (@is_flag_store) p -> guard_held c -> guard_held (spawn env p c).
Proof.
  intros Hp (p0 & rest & Hc & Hrest & Hp0). unfold spawn.
  pose proof (never_settle (@is_flag_store) env p c.2 Hp) as Hn.
  pose proof (never_settle_field (@is_flag_store) env isRunning p c.2
                (fun X op w => exec_keeps_flag env op w) Hp) as Hf.
  destruct (settle env p c.2) as [p' w']. simpl in *.
  exists p0, (rest ++ [p']). rewrite Hc. split; [done|].
  split; [apply Forall_app; split; [done|by apply Forall_singleton]|].
  simpl. by rewrite Hf.
Qed.

Lemma beside_guard_held env c c' :
  beside env (never (@is_flag_store)) c c' -> guard_held c -> guard_held c'.
Proof.
  induction 1 as [c|c1 c2 c3 Hstep _ IH|p c1 c3 Hp _ IH]; intros Hc; [done| |].
  - apply IH. by apply (step_guard_held env c1).
  - apply IH. by apply spawn_guard_held.
Qed.

Lemma steps_beside env {A} (P : Proc A -> Prop) c c' :
  steps env c c' -> beside env P c c'.
Proof.
  induction 1 as [c|c1 c2 c3 Hstep _ IH]; [apply beside_refl|].
  by apply beside_step with c2.
Qed.

Lemma scheduled_body_keeps_flag :
  never (@is_flag_store)
    (try_catch (await CallWorker.processCallQueue)
       (fun e => call (Log error ("Call worker execution failed: " +:+ e)))).
Proof.
  never_step; [|never_step]. never_step. apply processCallQueue_keeps_flag.
Qed.

Lemma scheduled_takes_guard env w :
  isRunning w = false -> guard_held (spawn env CallWorker.scheduled ([], w)).
Proof.
  intros Hw. unfold spawn, CallWorker.scheduled. simpl. rewrite Hw. simpl.
  eexists _, []. split; [reflexivity|]. split; [done|]. left.
  split; [done|]. split; [|done].
  apply (releases_try_finally _ scheduled_body_keeps_flag).
Qed.

(** A firing of the periodic trigger while the guard is held is skipped. *)
Lemma scheduled_skips env (ps : list (Proc unit)) w :
  isRunning w = true ->
  let c := spawn env CallWorker.scheduled (ps, w) in
  c.1 = ps ++ [Ret tt] /\ db_leads c.2 = db_leads w /\ docs c.2 = docs w /\
  store_log c.2 = store_log w /\ isRunning c.2 = true.
Proof.
  intros Hw. unfold spawn, CallWorker.scheduled. simpl. rewrite Hw. simpl. done.
Qed.

(** X1.  Mutual exclusion of the periodic passes.  The periodic trigger
    fires with [isRunning] unset and starts a pass.  From then on, however
    the event loop interleaves the pending procedures, and whatever
    procedures that do not store [isRunning] arrive meanwhile (the manual
    trigger is one), [isRunning] is set exactly as long as that pass has
    neither returned nor thrown; and while it is set, a further firing of
    the periodic trigger ends at once, store, documents and flag left as
    they are. *)
Theorem periodic_passes_exclusive env w c :
  isRunning w = false ->
  beside env (never (@is_flag_store)) (spawn env CallWorker.scheduled ([], w)) c ->
  never (@is_flag_store) CallWorker.triggerManually /\
  exists pass others,
    c.1 = pass :: others /\ isRunning c.2 = awaiting pass /\
    (awaiting pass = true ->
     let c' := spawn env CallWorker.scheduled c in
     c'.1 = c.1 ++ [Ret tt] /\ db_leads c'.2 = db_leads c.2 /\
     docs c'.2 = docs c.2 /\ store_log c'.2 = store_log c.2 /\
     isRunning c'.2 = true).
Proof.
  intros Hw Hc. split; [apply triggerManually_keeps_flag|].
  apply beside_guard_held in Hc; [|by apply scheduled_takes_guard].
  destruct Hc as (p0 & rest & Hps & _ & Hp0).
  exists p0, rest. split; [done|].
  destruct c as [ps w']. simpl in *.
  destruct Hp0 as [(Ha & _ & Hf)|[Ha Hf]]; rewrite Ha, Hf; (split; [done|]); [|done].
  intros _. by apply scheduled_skips.
Qed.

Lemma periodic_passes_exclusive_witness :
  let env := Example.env_no_match in
  let c := spawn env CallWorker.triggerManually
             (spawn env CallWorker.scheduled ([], Example.world_of Example.ann)) in
  exists pass others, c.1 = pass :: others /\ isRunning c.2 = awaiting pass.
Proof.
  intros env c.
  destruct (periodic_passes_exclusive env (Example.world_of Example.ann) c)
    as (_ & pass & others & Hc & Hflag & _).
  - reflexivity.
  - apply beside_arrival with CallWorker.triggerManually;
      [apply triggerManually_keeps_flag|apply beside_refl].
  - exists pass, others. split; [exact Hc|exact Hflag].
Defined.

(** ** A queue pass and the stored leads *)

(** A property of the world that only singled-out requests can break
    holds after a procedure that never issues them. *)
Lemma never_run_inv env (bad : forall X, Op X -> bool) (I : World -> Prop)
    {A} (p : Proc A) w :
  (forall X (op : Op X) w, bad X op = false -> I w -> I (exec env op w).2) ->
  never bad p -> I w -> I (run env p w).2.
Proof.
  intros Hexec. revert w. induction p as [a|e|X op k IH]; intros w Hp Hw; simpl; try done.
  destruct Hp as [Hop Hk]. specialize (Hexec X op w Hop Hw).
  destruct (exec env op w) as [r w1]. simpl in Hexec. by apply IH.
Qed.

Lemma processLead_local ref :
  never (@is_foreign_to ref) (CallWorker.processLead CallWorker.simulateCallOutcome ref).
Proof.
  unfold CallWorker.processLead, CallWorker.attempt, CallWorker.recover,
    CallWorker.applyOutcome, CallWorker.simulateCallOutcome.
  repeat never_step; apply never_call; simpl; by rewrite Nat.eqb_refl.
Qed.

Ltac frame_kept := repeat split; simpl; auto.

Lemma exec_beside_ref env ref id w0 {X} (op : Op X) w :
  is_foreign_to ref op = false ->
  beside_ref ref id w0 w -> beside_ref ref id w0 (exec env op w).2.
Proof.
  intros Hop (Hlen & Hdocs & Hdb & Hid).
  destruct op; simpl in Hop; try done; simpl;
    repeat match goal with
           | |- context [match read_fault ?e ?t with _ => _ end] =>
               destruct (read_fault e t)
           | |- context [match JSON_parse ?e ?t with _ => _ end] =>
               destruct (JSON_parse e t)
           | |- context [match index_fault ?e ?t with _ => _ end] =>
               destruct (index_fault e t)
           end; try (by frame_kept).
  - (* save *)
    apply negb_false_iff, Nat.eqb_eq in Hop as ->.
    pose proof Hid as Hid0.
    destruct (docs w !! ref) as [doc|] eqn:Hd; [|by frame_kept].
    rewrite <- Hd in Hid0.
    destruct (modified_status doc || modified_attempts doc); [|by frame_kept].
    destruct (write_fault env (ticks w)); [by frame_kept|].
    destruct (db_leads w !! doc_id doc) as [l|] eqn:Hl; [|by frame_kept].
    simpl in Hid. injection Hid as Hid.
    repeat split; simpl.
    + by rewrite length_alter.
    + intros j Hj. rewrite list_lookup_alter_ne; auto.
    + intros id' Hid'. rewrite lookup_insert_ne; [auto|congruence].
    + rewrite list_lookup_alter_eq, Hd. simpl. by rewrite Hid.
  - (* the call log *)
    destruct (write_fault env (ticks w)); by frame_kept.
  - (* reading a document *)
    destruct (docs w !! d); by frame_kept.
  - (* status *)
    apply negb_false_iff, Nat.eqb_eq in Hop as ->.
    repeat split; simpl.
    + by rewrite length_alter.
    + intros j Hj. rewrite list_lookup_alter_ne; auto.
    + done.
    + rewrite list_lookup_alter_eq. by destruct (docs w !! ref).
  - (* attempts *)
    apply negb_false_iff, Nat.eqb_eq in Hop as ->.
    repeat split; simpl.
    + by rewrite length_alter.
    + intros j Hj. rewrite list_lookup_alter_ne; auto.
    + done.
    + rewrite list_lookup_alter_eq. by destruct (docs w !! ref).
Qed.

Lemma processLead_beside env ref id w :
  doc_id <$> docs w !! ref = Some id ->
  beside_ref ref id w
    (run env (CallWorker.processLead CallWorker.simulateCallOutcome ref) w).2.
Proof.
  intros Hid.
  apply (never_run_inv env (@is_foreign_to ref) (beside_ref ref id w)).
  - intros X op w1. apply exec_beside_ref.
  - apply processLead_local.
  - by repeat split.
Qed.

Section stored_leads.
Context (env : Env).

(** Saving a document of a lead the store holds: accepted, or rejected
    with store and document as they were. *)
Lemma save_cases ref w d l r w' :
  docs w !! ref = Some d ->
  db_leads w !! doc_id d = Some l ->
  run env (call (DocSave ref)) w = (r, w') ->
  (r = Ok tt /\ docs w' !! ref = Some (mark_clean d) /\
   db_leads w' !! doc_id d =
     Some (apply_save (if modified_status d then Some (doc_status d) else None)
                      (if modified_attempts d then Some (doc_attempts d) else None)
                      l)) \/
  (exists e, r = Throw e /\ docs w' !! ref = Some d /\
     db_leads w' !! doc_id d = Some l /\ write_fault env (ticks w) = Some e).
Proof.
  intros Hd Hl. rewrite run_call. cbn [exec]. rewrite Hd.
  destruct (modified_status d || modified_attempts d) eqn:Hm.
  2:{ intros [= <- <-]. left. apply orb_false_elim in Hm as [Hs Ha].
      split; [done|]. split.
      - cbn [docs tick]. rewrite Hd. f_equal. destruct d. simpl in *. by subst.
      - cbn [db_leads tick]. rewrite Hl, Hs, Ha. f_equal. by destruct l. }
  destruct (write_fault env (ticks w)) as [e|] eqn:Hf.
  { intros [= <- <-]. right. exists e. by repeat split. }
  rewrite Hl. intros [= <- <-]. left. split; [done|].
  cbn [docs db_leads tick record_write with_store_log with_docs with_db].
  by rewrite list_lookup_alter_eq, Hd, lookup_insert_eq.
Qed.

(** The simulated call ends with one of two outcomes. *)
Lemma simulateCallOutcome_runs lead w :
  exists outcome,
    (outcome = "completed" \/ outcome = "no_answer") /\
    run env (CallWorker.simulateCallOutcome lead) w = (Ok outcome, tick (tick w)).
Proof.
  unfold CallWorker.simulateCallOutcome. cbn [run bind call exec length].
  pose proof (Nat.mod_upper_bound (random env (ticks w)) 4 ltac:(lia)) as Hlt.
  destruct (random env (ticks w) `mod` 4)%nat as [|[|[|[|n]]]]; [..|lia];
    eexists; (split; [|reflexivity]); auto.
Qed.

(** The [try] block on a lead just fetched, and what is stored for the
    lead when it ends. *)
Lemma attempt_stored ref w d l r w' :
  docs w !! ref = Some d ->
  db_leads w !! doc_id d = Some l ->
  doc_status d = pending ->
  modified_status d = false -> modified_attempts d = false ->
  doc_attempts d = attempts l ->
  run env (CallWorker.attempt CallWorker.simulateCallOutcome ref) w = (r, w') ->
  exists d' l',
    docs w' !! ref = Some d' /\ db_leads w' !! doc_id d = Some l' /\
    doc_id d' = doc_id d /\ doc_attempts d' = (attempts l + 1)%Z /\
    match r with
    | Ok _ =>
        exists s,
          l' = apply_save (Some s) (Some (attempts l + 1)%Z) l /\
          (s = completed \/
           (s = failed /\ (3 <= attempts l + 1)%Z) \/
           (s = pending /\ (attempts l + 1 < 3)%Z))
    | Throw e =>
        (exists t, write_fault env t = Some e) /\
        modified_status d' = true /\
        ((l' = l /\ modified_attempts d' = true) \/
         (l' = apply_save (Some calling) (Some (attempts l + 1)%Z) l /\
          modified_attempts d' = false))
    end.
Proof.
  intros Hd Hl Hpending Hms Hma Hatt. unfold CallWorker.attempt.
  (* lead.status = 'calling' *)
  rewrite run_bind_call. cbn [exec].
  set (w0 := tick _).
  assert (Hd0 : docs w0 !! ref = Some (assign_status calling d)).
  { subst w0. cbn [docs tick with_docs]. by rewrite list_lookup_alter_eq, Hd. }
  assert (Hl0 : db_leads w0 = db_leads w) by done.
  clearbody w0.
  (* lead.attempts += 1 *)
  rewrite run_bind_call. cbn [exec]. rewrite Hd0.
  rewrite run_bind_call. cbn [exec].
  set (w1 := tick _).
  set (d1 := assign_attempts (doc_attempts (assign_status calling d) + 1)
               (assign_status calling d)).
  assert (Hd1 : docs w1 !! ref = Some d1).
  { subst w1. cbn [docs tick with_docs]. by rewrite list_lookup_alter_eq, Hd0. }
  assert (Hl1 : db_leads w1 !! doc_id d1 = Some l).
  { subst w1. cbn [db_leads tick with_docs]. by rewrite Hl0. }
  clearbody w1. clear Hd0 Hl0 w0.
  assert (Hd1' : doc_id d1 = doc_id d /\ doc_attempts d1 = (attempts l + 1)%Z /\
                 doc_status d1 = calling /\
                 modified_status d1 = true /\ modified_attempts d1 = true).
  { unfold d1. simpl. rewrite Hms, Hma, Hpending, Hatt. simpl.
    destruct (attempts l + 1 =? attempts l)%Z eqn:E; [lia|]. done. }
  destruct Hd1' as (Hid1 & Hat1 & Hst1 & Hms1 & Hma1). clearbody d1.
  (* await lead.save() *)
  rewrite run_bind.
  destruct (run env (call (DocSave ref)) w1) as [r2 w2] eqn:Hsave.
  apply (save_cases _ _ _ _ _ _ Hd1 Hl1) in Hsave
    as [(-> & Hd2 & Hl2)|(e & -> & Hd2 & Hl2 & Hf)].
  2:{ intros [= <- <-]. exists d1, l. rewrite Hid1 in Hl2.
      repeat split; try done; eauto. }
  rewrite Hms1, Hma1, Hst1, Hat1, Hid1 in Hl2.
  (* the log line *)
  rewrite run_bind_call. cbn [exec]. rewrite Hd2.
  rewrite run_bind_call. cbn [exec].
  set (w3 := tick _).
  assert (Hd3 : docs w3 !! ref = Some (mark_clean d1)) by done.
  assert (Hl3 : db_leads w3 = db_leads w2) by done.
  clearbody w3.
  (* await this.simulateCallOutcome(lead) *)
  rewrite run_bind, run_await.
  destruct (simulateCallOutcome_runs ref w3) as (outcome & Hout & ->).
  cbn [fst snd].
  (* the branches on the outcome *)
  rewrite run_bind.
  destruct (run env (CallWorker.applyOutcome ref outcome) (tick (tick (tick w3))))
    as [r5 w5] eqn:Happly.
  assert (Hd4 : docs (tick (tick (tick w3))) !! ref = Some (mark_clean d1)) by done.
  apply (applyOutcome_assigns env _ _ _ _ _ _ Hd4) in Happly as (-> & Hd5 & Hl5 & _).
  cbn [db_leads tick] in Hl5.
  set (d5 := match outcome_table outcome (doc_attempts (mark_clean d1)) with
             | Some s => assign_status s (mark_clean d1)
             | None => mark_clean d1
             end) in *.
  assert (Hd5' : exists s,
             (s = completed \/
              (s = failed /\ (3 <= attempts l + 1)%Z) \/
              (s = pending /\ (attempts l + 1 < 3)%Z)) /\
             doc_id d5 = doc_id d /\ doc_attempts d5 = (attempts l + 1)%Z /\
             doc_status d5 = s /\ modified_status d5 = true /\
             modified_attempts d5 = false).
  { unfold d5, outcome_table. simpl. rewrite Hat1.
    destruct Hout as [-> | ->]; simpl.
    - exists completed. simpl. rewrite ?Hst1. repeat split; auto.
    - destruct (Z.leb_spec 3 (attempts l + 1)).
      + exists failed. simpl. rewrite ?Hst1. repeat split; auto.
      + exists pending. simpl. rewrite ?Hst1. repeat split; auto. }
  destruct Hd5' as (s & Hs & Hid5 & Hat5 & Hst5 & Hms5 & Hma5). clearbody d5.
  assert (Hl5' : db_leads w5 !! doc_id d5 =
                 Some (apply_save (Some calling) (Some (attempts l + 1)%Z) l)).
  { rewrite Hl5, Hl3, Hid5. exact Hl2. }
  (* await lead.save() *)
  rewrite run_bind.
  destruct (run env (call (DocSave ref)) w5) as [r6 w6] eqn:Hsave.
  apply (save_cases _ _ _ _ _ _ Hd5 Hl5') in Hsave
    as [(-> & Hd6 & Hl6)|(e & -> & Hd6 & Hl6 & Hf)].
  2:{ intros [= <- <-]. exists d5, (apply_save (Some calling) (Some (attempts l + 1)%Z) l).
      rewrite Hid5 in Hl6. repeat split; try done; eauto. }
  rewrite Hms5, Hma5, Hst5, Hid5 in Hl6.
  (* the log line *)
  rewrite run_bind_call. cbn [exec]. rewrite Hd6.
  rewrite run_call. cbn [exec]. intros [= <- <-].
  exists (mark_clean d5), (apply_save (Some s) (Some (attempts l + 1)%Z) l).
  cbn [docs db_leads tick with_log_lines].
  split; [done|]. split; [exact Hl6|]. split; [done|]. split; [done|].
  by exists s.
Qed.

(** The [catch] block on a document whose status is modified. *)
Lemma recover_stored ref e w d l r w' :
  docs w !! ref = Some d ->
  db_leads w !! doc_id d = Some l ->
  modified_status d = true ->
  run env (CallWorker.recover ref e) w = (r, w') ->
  exists d',
    docs w' !! ref = Some d' /\ doc_id d' = doc_id d /\
    doc_attempts d' = doc_attempts d /\
    (((exists t e', write_fault env t = Some e') /\ db_leads w' !! doc_id d = Some l) \/
     db_leads w' !! doc_id d =
       Some (apply_save (Some failed)
               (if modified_attempts d then Some (doc_attempts d) else None) l)).
Proof.
  intros Hd Hl Hms. unfold CallWorker.recover.
  rewrite run_bind_call. cbn [exec]. rewrite Hd.
  rewrite run_bind_call. cbn [exec].
  rewrite run_try_catch, run_bind_call. cbn [exec].
  set (w1 := tick _).
  assert (Hd1 : docs w1 !! ref = Some (assign_status failed d)).
  { subst w1. cbn [docs tick with_docs with_log_lines].
    by rewrite list_lookup_alter_eq, Hd. }
  assert (Hl1 : db_leads w1 !! doc_id (assign_status failed d) = Some l) by done.
  clearbody w1.
  destruct (run env (call (DocSave ref)) w1) as [r2 w2] eqn:Hsave.
  apply (save_cases _ _ _ _ _ _ Hd1 Hl1) in Hsave
    as [(-> & Hd2 & Hl2)|(e2 & -> & Hd2 & Hl2 & Hf)].
  - intros [= <- <-]. eexists. split; [exact Hd2|]. split; [done|]. split; [done|].
    right. simpl in Hl2. by rewrite Hms in Hl2.
  - rewrite run_call. cbn [exec]. intros [= <- <-]. eexists.
    cbn [docs db_leads tick with_log_lines].
    split; [exact Hd2|]. split; [done|]. split; [done|]. left. eauto.
Qed.

(** The loop body on a lead just fetched. *)
Lemma processLead_stored ref w x :
  docs w !! ref = Some (hydrate x) ->
  db_leads w !! x.1 = Some x.2 ->
  status x.2 = pending ->
  let out := run env (CallWorker.processLead CallWorker.simulateCallOutcome ref) w in
  out.1 = Ok tt /\
  (exists d', docs out.2 !! ref = Some d' /\ doc_id d' = x.1 /\
              doc_attempts d' = (attempts x.2 + 1)%Z) /\
  exists l', db_leads out.2 !! x.1 = Some l' /\ attempted env x.2 l'.
Proof.
  intros Hd Hl Hpending out. subst out. unfold CallWorker.processLead.
  rewrite run_try_catch.
  destruct (run env (CallWorker.attempt CallWorker.simulateCallOutcome ref) w)
    as [r1 w1] eqn:Hrun.
  apply (attempt_stored _ _ _ _ _ _ Hd Hl Hpending eq_refl eq_refl eq_refl) in Hrun
    as (d1 & l1 & Hd1 & Hl1 & Hid1 & Hat1 & Hr).
  simpl in Hid1, Hl1.
  destruct r1 as [[]|e].
  { simpl. split; [done|]. split; [by exists d1|].
    exists l1. split; [done|]. left. exact Hr. }
  destruct Hr as ((t & Hf) & Hms1 & Hcase).
  rewrite <- Hid1 in Hl1.
  destruct (run env (CallWorker.recover ref e) w1) as [r2 w2] eqn:Hrec.
  pose proof Hrec as Hrec'.
  apply (recover_marks_failed env _ _ _ _ _ _ Hd1) in Hrec' as [-> _].
  apply (recover_stored _ _ _ _ _ _ _ Hd1 Hl1 Hms1) in Hrec
    as (d2 & Hd2 & Hid2 & Hat2 & Hl2).
  simpl. rewrite Hid1 in Hl2. split; [done|].
  split; [exists d2; repeat split; congruence|].
  destruct Hl2 as [[_ Hl2]|Hl2].
  - exists l1. split; [done|]. right. split; [eauto|].
    destruct Hcase as [[-> _]|[-> _]]; auto.
  - eexists. split; [exact Hl2|]. right. split; [eauto|].
    right. right.
    destruct Hcase as [[-> ->]|[-> ->]]; [by rewrite Hat1|done].
Qed.
End stored_leads.

(** ** What a queue pass fetches *)

#[local] Instance older_total : Total older.
Proof. intros x y. unfold older. lia. Qed.

#[local] Instance older_transitive : Transitive older.
Proof. intros x y z. unfold older. lia. Qed.

Lemma find_pending_stored n db x :
  x ∈ find_pending n db -> db !! x.1 = Some x.2 /\ status x.2 = pending.
Proof.
  unfold find_pending. intros Hx.
  apply (fun H => elem_of_sublist _ _ _ H (sublist_take _ _)) in Hx.
  rewrite merge_sort_Permutation in Hx.
  apply list_elem_of_filter in Hx as [Hp Hx].
  destruct x as [id l]. apply elem_of_map_to_list in Hx. split; [done|].
  simpl in *. by destruct (status l).
Qed.

Lemma find_pending_NoDup n db : NoDup (find_pending n db).*1.
Proof.
  unfold find_pending.
  eapply sublist_NoDup; [|apply fmap_sublist, sublist_take].
  rewrite merge_sort_Permutation.
  eapply sublist_NoDup; [|apply fmap_sublist, sublist_filter].
  apply NoDup_fst_map_to_list.
Qed.

Lemma find_pending_oldest n db id l :
  db !! id = Some l -> status l = pending ->
  (id, l) ∈ find_pending n db \/
  (length (find_pending n db) = n /\
   forall x, x ∈ find_pending n db -> older x (id, l)).
Proof.
  intros Hl Hp. unfold find_pending.
  set (sorted := merge_sort older _).
  assert (Hin : (id, l) ∈ sorted).
  { unfold sorted. rewrite merge_sort_Permutation.
    apply list_elem_of_filter. split; [by simpl; rewrite Hp|].
    by apply elem_of_map_to_list. }
  assert (Hs : StronglySorted older (take n sorted ++ drop n sorted)).
  { rewrite take_drop. apply StronglySorted_merge_sort; apply _. }
  rewrite <- (take_drop n sorted) in Hin.
  apply elem_of_app in Hin as [Hin|Hin]; [by left|right].
  split.
  - apply length_take_le. destruct (decide (n <= length sorted)); [done|].
    rewrite drop_ge in Hin by lia. by apply elem_of_nil in Hin.
  - intros x Hx. by apply (StronglySorted_app_1_elem_of _ _ _ _ _ Hs).
Qed.

(** ** The loop of a queue pass *)

Section pass.
Context (env : Env).

(** The loop over the fetched documents: each one gets its turn, whatever
    happened to those before it. *)
Lemma pass_loop items : forall base w,
  NoDup items.*1 ->
  (forall i x, items !! i = Some x ->
     docs w !! (base + i)%nat = Some (hydrate x) /\
     db_leads w !! x.1 = Some x.2 /\ status x.2 = pending) ->
  let out := run env (for_of (seq base (length items))
                        (CallWorker.processLead CallWorker.simulateCallOutcome)) w in
  out.1 = Ok tt /\
  length (docs out.2) = length (docs w) /\
  (forall j, (j < base)%nat -> docs out.2 !! j = docs w !! j) /\
  (forall id, id ∉ items.*1 -> db_leads out.2 !! id = db_leads w !! id) /\
  (forall i x, items !! i = Some x ->
     (exists d', docs out.2 !! (base + i)%nat = Some d' /\ doc_id d' = x.1 /\
                 doc_attempts d' = (attempts x.2 + 1)%Z) /\
     exists l', db_leads out.2 !! x.1 = Some l' /\ attempted env x.2 l').
Proof.
  induction items as [|x rest IH]; intros base w Hnd Hitems out; subst out.
  { simpl. repeat split; try done. }
  cbn [length seq for_of]. rewrite run_bind.
  apply NoDup_cons in Hnd as [Hx Hnd].
  destruct (Hitems 0%nat x eq_refl) as (Hd & Hl & Hp).
  rewrite Nat.add_0_r in Hd.
  destruct (processLead_stored env base w x Hd Hl Hp) as (Hok & Hdoc & Hst).
  assert (Hid : doc_id <$> docs w !! base = Some x.1) by by rewrite Hd.
  pose proof (processLead_beside env base x.1 w Hid) as (Hlen & Hdocs & Hdb & _).
  destruct (run env (CallWorker.processLead CallWorker.simulateCallOutcome base) w)
    as [r1 w1]. simpl in Hok, Hdoc, Hst, Hlen, Hdocs, Hdb. subst r1.
  destruct (IH (S base) w1 Hnd) as (Hok2 & Hlen2 & Hdocs2 & Hdb2 & Hrest).
  { intros i y Hy. specialize (Hitems (S i) y Hy) as (Hdy & Hly & Hpy).
    assert (Hne : y.1 <> x.1).
    { intros Heq. apply Hx. rewrite <- Heq.
      apply list_elem_of_fmap. exists y. split; [done|].
      by apply list_elem_of_lookup_2 with i. }
    rewrite Hdocs by lia. rewrite Hdb by done.
    replace (S base + i)%nat with (base + S i)%nat by lia. done. }
  split; [done|]. split; [congruence|].
  split; [intros j Hj; rewrite Hdocs2 by lia; apply Hdocs; lia|].
  split.
  { intros id Hid'. apply not_elem_of_cons in Hid' as [Hne Hid'].
    rewrite Hdb2 by done. by apply Hdb. }
  intros [|i] y Hy.
  - injection Hy as <-. rewrite Nat.add_0_r. rewrite Hdocs2 by lia.
    rewrite Hdb2 by done. done.
  - replace (base + S i)%nat with (S base + i)%nat by lia. by apply Hrest.
Qed.

(** A whole pass: what it fetches, and what becomes of each fetched lead
    and of the others. *)
Lemma pass_stored w :
  let found := find_pending 5 (db_leads w) in
  let out := run env CallWorker.processCallQueue w in
  out.1 = Ok tt /\
  (forall e, read_fault env (ticks w) = Some e ->
     db_leads out.2 = db_leads w /\ docs out.2 = docs w) /\
  (read_fault env (ticks w) = None ->
     length (docs out.2) = (length (docs w) + length found)%nat /\
     (forall j, (j < length (docs w))%nat -> docs out.2 !! j = docs w !! j) /\
     (forall id, id ∉ found.*1 -> db_leads out.2 !! id = db_leads w !! id) /\
     (forall i x, found !! i = Some x ->
        (exists d', docs out.2 !! (length (docs w) + i)%nat = Some d' /\
                    doc_id d' = x.1 /\ doc_attempts d' = (attempts x.2 + 1)%Z) /\
        exists l', db_leads out.2 !! x.1 = Some l' /\ attempted env x.2 l')).
Proof.
  intros found out. subst out.
  unfold CallWorker.processCallQueue, CallWorker.processCallQueueWith.
  rewrite run_try_catch, run_bind_call. cbn [exec].
  destruct (read_fault env (ticks w)) as [e|] eqn:Hread.
  { simpl. split; [done|]. split; [by intros e' _|done]. }
  fold found. rewrite length_seq.
  set (w1 := tick (with_docs _ w)).
  assert (Hw1 : docs w1 = docs w ++ map hydrate found /\ db_leads w1 = db_leads w)
    by done.
  clearbody w1. destruct Hw1 as [Hdocs1 Hdb1].
  destruct (length found =? 0)%nat eqn:Hempty.
  { apply Nat.eqb_eq in Hempty. rewrite run_call. cbn [exec fst snd].
    cbn [docs db_leads tick with_log_lines].
    split; [done|]. split; [done|]. intros _.
    apply nil_length_inv in Hempty. rewrite Hempty in *. simpl in Hdocs1.
    rewrite app_nil_r in Hdocs1. rewrite Hdocs1, Hdb1. simpl.
    rewrite Nat.add_0_r. repeat split; done. }
  rewrite run_bind_call. cbn [exec].
  set (w2 := tick (with_log_lines _ w1)).
  assert (Hw2 : docs w2 = docs w ++ map hydrate found /\ db_leads w2 = db_leads w)
    by done.
  clearbody w2. destruct Hw2 as [Hdocs2 Hdb2].
  destruct (pass_loop found (length (docs w)) w2 (find_pending_NoDup 5 (db_leads w)))
    as (Hok & Hlen & Hold & Hdb & Hitems).
  { intros i x Hx. rewrite Hdocs2, Hdb2.
    rewrite lookup_app_r by lia.
    replace (length (docs w) + i - length (docs w))%nat with i by lia.
    rewrite list_lookup_fmap, Hx. split; [done|].
    apply find_pending_stored with 5%nat. by apply list_elem_of_lookup_2 with i. }
  destruct (run env (for_of (seq (length (docs w)) (length found))
                       (CallWorker.processLead CallWorker.simulateCallOutcome)) w2)
    as [r3 w3]. simpl in Hok, Hlen, Hold, Hdb, Hitems. subst r3.
  cbn [fst snd]. split; [done|]. split; [done|]. intros _.
  split; [by rewrite Hlen, Hdocs2, length_app, length_map|].
  split.
  { intros j Hj. rewrite Hold by done. rewrite Hdocs2. by rewrite lookup_app_l. }
  split; [intros id Hid; rewrite Hdb by done; by rewrite Hdb2|].
  done.
Qed.
End pass.

(** What a pass makes of one stored lead. *)
Lemma pass_per_lead env w id :
  let found := find_pending 5 (db_leads w) in
  let w' := (run env CallWorker.processCallQueue w).2 in
  match db_leads w !! id with
  | None => db_leads w' !! id = None
  | Some l =>
      exists l', db_leads w' !! id = Some l' /\
        ((l' = l /\ (read_fault env (ticks w) = None -> (id, l) ∉ found)) \/
         (read_fault env (ticks w) = None /\ (id, l) ∈ found /\
          status l = pending /\ attempted env l l'))
  end.
Proof.
  intros found w'. subst w'.
  destruct (pass_stored env w) as (_ & Hfault & Hread). fold found in Hread.
  destruct (read_fault env (ticks w)) as [e|] eqn:Hr.
  { destruct (Hfault e eq_refl) as [-> _].
    destruct (db_leads w !! id) as [l|]; [|done].
    exists l. split; [done|]. left. by split. }
  destruct (Hread eq_refl) as (_ & _ & Hothers & Hfound).
  destruct (decide (id ∈ found.*1)) as [Hin|Hout].
  - apply list_elem_of_fmap in Hin as (x & -> & Hx).
    destruct (find_pending_stored _ _ _ Hx) as [Hl Hp]. rewrite Hl.
    apply list_elem_of_lookup_1 in Hx as Hi. destruct Hi as [i Hi].
    destruct (Hfound i x Hi) as (_ & l' & Hl' & Hatt).
    exists l'. split; [done|]. right. destruct x as [id l]. by repeat split.
  - rewrite (Hothers id Hout).
    destruct (db_leads w !! id) as [l|]; [|done].
    exists l. split; [done|]. left. split; [done|]. intros _ Hin. apply Hout.
    apply list_elem_of_fmap. by exists (id, l).
Qed.

(** What the loop body has left alone. *)
Lemma attempted_fields env l l' :
  attempted env l l' ->
  name l' = name l /\ phone l' = phone l /\ email l' = email l /\
  interest_score l' = interest_score l /\ course_interest l' = course_interest l /\
  summary l' = summary l /\ transcript l' = transcript l /\
  createdAt l' = createdAt l /\
  (attempts l <= attempts l' <= attempts l + 1)%Z /\
  (status l' = status l \/ status l' <> no_answer) /\
  (status l' = pending -> l' = l \/ (attempts l' < 3)%Z).
Proof.
  intros [(s & -> & Hs)|[_ [-> | [-> | ->]]]]; simpl.
  - repeat split; try done; try lia.
    + right. by destruct Hs as [-> | [[-> _] | [-> _]]].
    + intros ->. right. destruct Hs as [? | [[? _] | [_ ?]]]; [done|done|lia].
  - repeat split; try done; try lia; auto.
  - repeat split; try done; try lia; auto.
  - repeat split; try done; try lia; auto.
Qed.

(** X2.  No trigger lets an error escape, and a firing of the periodic
    trigger gives the guard back.  Run to its end, whatever the store, the
    random source and the timers answer: the queue pass returns; the
    manual trigger returns and leaves [isRunning] as it was; a firing of
    the periodic trigger returns and leaves [isRunning] as it found it,
    unset if the firing started the pass. *)
Theorem triggers_return env w :
  (run env CallWorker.processCallQueue w).1 = Ok tt /\
  ((run env CallWorker.triggerManually w).1 = Ok tt /\
   isRunning (run env CallWorker.triggerManually w).2 = isRunning w) /\
  ((run env CallWorker.scheduled w).1 = Ok tt /\
   isRunning (run env CallWorker.scheduled w).2 = isRunning w).
Proof.
  assert (Hpass : forall w0, (run env CallWorker.processCallQueue w0).1 = Ok tt).
  { intros w0. by destruct (pass_stored env w0) as [H _]. }
  split; [apply Hpass|]. split.
  - split.
    + unfold CallWorker.triggerManually. rewrite run_bind_call. cbn [exec].
      rewrite run_await. apply Hpass.
    + apply (never_run (@is_flag_store) env isRunning);
        [intros; by apply exec_keeps_flag|apply triggerManually_keeps_flag].
  - unfold CallWorker.scheduled. rewrite run_bind_call. cbn [exec cell].
    destruct (isRunning w) eqn:Hw.
    + rewrite run_call. cbn [exec fst snd]. by rewrite <- Hw.
    + rewrite run_bind_call. cbn [exec]. rewrite run_try_finally, run_try_catch.
      rewrite run_await.
      set (w1 := tick (with_cell cell_isRunning true (tick w))).
      specialize (Hpass w1).
      destruct (run env CallWorker.processCallQueue w1) as [r2 w2].
      simpl in Hpass. subst r2. cbn [fst snd]. rewrite run_call. by cbn [exec].
Qed.

(** X3.  What a queue pass works on.  When the query of the pass is
    answered, the leads it fetches are at most five; each is stored as
    [pending]; a pending lead that is left out was created no earlier than
    every fetched one, and is left out only when five were fetched.  The pass holds one document per fetched lead,
    and whatever the store answers to the writes, also for the leads
    before it in the batch, each of these documents ends with its
    attempts incremented by one. *)
Theorem pass_takes_oldest_five env w :
  read_fault env (ticks w) = None ->
  let found := find_pending 5 (db_leads w) in
  let w' := (run env CallWorker.processCallQueue w).2 in
  (length found <= 5)%nat /\
  (forall x, x ∈ found -> db_leads w !! x.1 = Some x.2 /\ status x.2 = pending) /\
  (forall id l, db_leads w !! id = Some l -> status l = pending ->
     (id, l) ∈ found \/
     (length found = 5%nat /\
      forall x, x ∈ found -> (createdAt x.2 <= createdAt l)%Z)) /\
  length (docs w') = (length (docs w) + length found)%nat /\
  (forall i x, found !! i = Some x ->
     exists d', docs w' !! (length (docs w) + i)%nat = Some d' /\
                doc_id d' = x.1 /\ doc_attempts d' = (attempts x.2 + 1)%Z).
Proof.
  intros Hread found w'. subst w'.
  destruct (pass_stored env w) as (_ & _ & Hpass).
  destruct (Hpass Hread) as (Hlen & _ & _ & Hfound). fold found in Hlen, Hfound.
  split; [unfold found, find_pending; rewrite length_take; lia|].
  split; [intros x Hx; by apply find_pending_stored with 5%nat|].
  split.
  { intros id l Hl Hp.
    destruct (find_pending_oldest 5 _ _ _ Hl Hp) as [Hin|[Hfull Hold]]; [by left|].
    right. split; [done|]. intros x Hx. specialize (Hold x Hx).
    unfold older in Hold. simpl in Hold. lia. }
  split; [done|].
  intros i x Hx. by destruct (Hfound i x Hx) as [Hd _].
Qed.

Lemma pass_takes_oldest_five_witness :
  let w := Example.world_of Example.ann in
  let w' := (run Example.env_no_match CallWorker.processCallQueue w).2 in
  length (docs w') = 1%nat.
Proof.
  intros w w'.
  destruct (pass_takes_oldest_five Example.env_no_match w) as (_ & _ & _ & Hlen & _).
  - reflexivity.
  - exact Hlen.
Defined.

(** X4.  The life cycle of a stored lead across a queue pass, whatever
    the store answers.  A pass neither creates nor deletes a lead.  A lead
    that is not [pending] when the pass starts (completed, failed, in a
    call) is stored afterwards exactly as before.  Of any lead the pass
    changes nothing but status and attempts; the attempts stay or grow by
    one; and the pass never stores the status [no_answer]. *)
Theorem pass_lifecycle env w id :
  let w' := (run env CallWorker.processCallQueue w).2 in
  match db_leads w !! id with
  | None => db_leads w' !! id = None
  | Some l =>
      exists l', db_leads w' !! id = Some l' /\
        (status l <> pending -> l' = l) /\
        name l' = name l /\ phone l' = phone l /\ email l' = email l /\
        interest_score l' = interest_score l /\
        course_interest l' = course_interest l /\
        summary l' = summary l /\ transcript l' = transcript l /\
        createdAt l' = createdAt l /\
        (attempts l <= attempts l' <= attempts l + 1)%Z /\
        (status l' = status l \/ status l' <> no_answer)
  end.
Proof.
  intros w'. subst w'. pose proof (pass_per_lead env w id) as H. cbv zeta in H.
  destruct (db_leads w !! id) as [l|]; [|done].
  destruct H as (l' & Hl' & [[-> _]|(_ & _ & Hp & Hatt)]).
  - exists l. repeat split; try done; try lia. by left.
  - exists l'. split; [done|]. split; [done|].
    destruct (attempted_fields env l l' Hatt)
      as (? & ? & ? & ? & ? & ? & ? & ? & ? & ? & _).
    repeat split; try done; lia.
Qed.

(** ** The loop body, path by path *)

Lemma list_alter_insert_eq {A} (f : A -> A) (i : nat) (x : A) (l : list A) :
  (i < length l)%nat -> alter f i (<[i := x]> l) = <[i := f x]> l.
Proof.
  intros Hi. apply list_eq. intros j. destruct (decide (i = j)) as [<-|Hne].
  - rewrite list_lookup_alter_eq, !list_lookup_insert_eq by done. done.
  - rewrite list_lookup_alter_ne, !list_lookup_insert_ne by done. done.
Qed.

Section held_steps.
Context (env : Env) (w : World) (ref : DocRef) (id : LeadId).
Context (Href : (ref < length (docs w))%nat).

Lemma held_start d l :
  docs w !! ref = Some d -> db_leads w !! id = Some l -> held w ref id d l [] w.
Proof.
  intros Hd Hl. split; [by rewrite list_insert_id|].
  split; [by rewrite insert_id|by rewrite app_nil_r].
Qed.

Lemma held_lookup d l evs wk :
  held w ref id d l evs wk -> docs wk !! ref = Some d /\ db_leads wk !! id = Some l.
Proof.
  intros (Hd & Hl & _). rewrite Hd, Hl, list_lookup_insert_eq, lookup_insert_eq by done.
  done.
Qed.

Lemma held_set_status s d l evs wk :
  held w ref id d l evs wk ->
  exists wk', run env (call (DocSetStatus ref s)) wk = (Ok tt, wk') /\
              held w ref id (assign_status s d) l evs wk'.
Proof.
  intros (Hd & Hl & Hlog). eexists. split; [reflexivity|].
  split; [|done]. cbn [docs tick with_docs]. rewrite Hd.
  by apply list_alter_insert_eq.
Qed.

Lemma held_set_attempts n d l evs wk :
  held w ref id d l evs wk ->
  exists wk', run env (call (DocSetAttempts ref n)) wk = (Ok tt, wk') /\
              held w ref id (assign_attempts n d) l evs wk'.
Proof.
  intros (Hd & Hl & Hlog). eexists. split; [reflexivity|].
  split; [|done]. cbn [docs tick with_docs]. rewrite Hd.
  by apply list_alter_insert_eq.
Qed.

Lemma held_read d l evs wk :
  held w ref id d l evs wk ->
  exists wk', run env (call (DocRead ref)) wk = (Ok d, wk') /\
              held w ref id d l evs wk'.
Proof.
  intros H. destruct (held_lookup _ _ _ _ H) as [Hd _].
  exists (tick wk). split; [|done]. rewrite run_call. cbn [exec]. by rewrite Hd.
Qed.

Lemma held_log lv msg d l evs wk :
  held w ref id d l evs wk ->
  exists wk', run env (call (Log lv msg)) wk = (Ok tt, wk') /\
              held w ref id d l evs wk'.
Proof. intros H. eexists. split; [reflexivity|done]. Qed.

Lemma held_resolve (p : Proc string) d l evs wk :
  quiet env p -> held w ref id d l evs wk ->
  exists wk', run env (await p) wk = ((run env p wk).1, wk') /\
              held w ref id d l evs wk'.
Proof.
  intros Hq (Hd & Hl & Hlog). destruct (Hq wk) as (Hq1 & Hq2 & Hq3).
  eexists. split; [apply run_await|].
  unfold held. cbn [docs db_leads store_log tick]. rewrite Hq1, Hq2, Hq3. done.
Qed.

(** [await lead.save()] on a document of lead [id]. *)
Lemma held_save d l evs wk :
  doc_id d = id -> held w ref id d l evs wk ->
  exists r wk',
    run env (call (DocSave ref)) wk = (r, wk') /\
    ((r = Ok tt /\ modified_status d || modified_attempts d = false /\
      held w ref id d l evs wk') \/
     (r = Ok tt /\ modified_status d || modified_attempts d = true /\
      held w ref id (mark_clean d)
        (apply_save (if modified_status d then Some (doc_status d) else None)
                    (if modified_attempts d then Some (doc_attempts d) else None) l)
        (evs ++ [mkStoreEvent (save_request d) None]) wk') \/
     (exists e, r = Throw e /\ modified_status d || modified_attempts d = true /\
        write_fault env (ticks wk) = Some e /\
        held w ref id d l (evs ++ [mkStoreEvent (save_request d) (Some e)]) wk')).
Proof.
  intros Hid H. destruct (held_lookup _ _ _ _ H) as [Hd Hl].
  destruct H as (Hdocs & Hdb & Hlog).
  destruct (run env (call (DocSave ref)) wk) as [r wk'] eqn:Hsave.
  exists r, wk'. split; [done|].
  apply (save_effect env _ _ _ _ _ Hd) in Hsave
    as [(-> & Hm & Hd' & Hdb' & Hlog')
       |[(-> & Hm & Hd' & Hlog' & l0 & Hl0 & Hdb')
        |(e & -> & Hm & Hd' & Hdb' & Hlog' & [Hf|Hnone])]].
  - left. repeat split; congruence.
  - right. left. split; [done|]. split; [done|].
    rewrite Hid, Hl in Hl0. injection Hl0 as <-.
    split; [by rewrite Hd', Hdocs, list_alter_insert_eq|].
    split; [by rewrite Hdb', Hid, Hdb, insert_insert_eq|].
    by rewrite Hlog', Hlog, <- app_assoc.
  - right. right. exists e. split; [done|]. split; [done|]. split; [done|].
    split; [congruence|]. split; [congruence|]. by rewrite Hlog', Hlog, <- app_assoc.
  - rewrite Hid, Hl in Hnone. done.
Qed.

(** The branches on the outcome. *)
Lemma held_applyOutcome outcome d l evs wk :
  held w ref id d l evs wk ->
  exists wk',
    run env (CallWorker.applyOutcome ref outcome) wk = (Ok tt, wk') /\
    held w ref id
      (match outcome_table outcome (doc_attempts d) with
       | Some s => assign_status s d
       | None => d
       end) l evs wk'.
Proof.
  intros H. unfold CallWorker.applyOutcome, outcome_table.
  destruct (String.eqb outcome "completed"); [by apply held_set_status|].
  destruct (String.eqb outcome "no_answer").
  { destruct (held_read _ _ _ _ H) as (w1 & Hr1 & H1).
    rewrite run_bind, Hr1.
    destruct (3 <=? doc_attempts d)%Z.
    - destruct (held_set_status failed _ _ _ _ H1) as (w2 & Hr2 & H2).
      rewrite run_bind, Hr2. by apply held_log.
    - by apply held_set_status. }
  destruct (String.eqb outcome "failed"); [by apply held_set_status|].
  by exists wk.
Qed.
End held_steps.

Section lead_paths.
Context (env : Env) (resolve : DocRef -> Proc string).
Context (w : World) (ref : DocRef) (id : LeadId).
Context (Href : (ref < length (docs w))%nat).
Context (Hquiet : quiet env (resolve ref)).

(** The [try] block on a lead just fetched: the document and the lead it
    leaves, and the writes it has asked for. *)
Lemma attempt_paths d l r w1 :
  docs w !! ref = Some d -> db_leads w !! id = Some l ->
  doc_id d = id -> doc_status d = pending ->
  modified_status d = false -> modified_attempts d = false ->
  doc_attempts d = attempts l ->
  run env (CallWorker.attempt resolve ref) w = (r, w1) ->
  let n := (attempts l + 1)%Z in
  exists d1 l1 e1 mid,
    held w ref id d1 l1
      (mkStoreEvent (WriteSave id (Some calling) (Some n)) e1 :: mid) w1 /\
    doc_id d1 = id /\ doc_attempts d1 = n /\
    Forall (fun ev => forall id', is_call_to id' ev = false) mid /\
    match r with
    | Ok _ =>
        e1 = None /\
        exists outcome w2 d2,
          docs w2 !! ref = Some d2 /\ doc_id d2 = id /\
          (run env (resolve ref) w2).1 = Ok outcome /\
          l1 = apply_save (Some (default calling (outcome_table outcome n))) (Some n) l
    | Throw _ =>
        modified_status (assign_status failed d1) = true /\
        ((exists t e, write_fault env t = Some e) \/
         (exists w2 d2 e,
            docs w2 !! ref = Some d2 /\ doc_id d2 = id /\
            (run env (resolve ref) w2).1 = Throw e)) /\
        match e1 with
        | Some _ => l1 = l /\ modified_attempts d1 = true
        | None =>
            l1 = apply_save (Some calling) (Some n) l /\ modified_attempts d1 = false
        end
    end.
Proof.
  intros Hd Hl Hid Hpending Hms Hma Hatt. unfold CallWorker.attempt.
  pose proof (held_start w ref id d l Hd Hl) as H.
  (* lead.status = 'calling' *)
  destruct (held_set_status env w ref id Href calling _ _ _ _ H) as (w0 & Hr & H0).
  rewrite run_bind, Hr. clear Hr H.
  (* lead.attempts += 1 *)
  destruct (held_read env w ref id Href _ _ _ _ H0) as (w0' & Hr & H0').
  rewrite run_bind, Hr. clear Hr H0.
  destruct (held_set_attempts env w ref id Href
              (doc_attempts (assign_status calling d) + 1) _ _ _ _ H0')
    as (w0'' & Hr & H1).
  rewrite run_bind, Hr. clear Hr H0' w0 w0'.
  set (d1 := assign_attempts (doc_attempts (assign_status calling d) + 1)
               (assign_status calling d)) in *.
  assert (Hd1 : doc_id d1 = id /\ doc_attempts d1 = (attempts l + 1)%Z /\
                doc_status d1 = calling /\
                modified_status d1 = true /\ modified_attempts d1 = true).
  { unfold d1. simpl. rewrite Hms, Hma, Hpending, Hatt. simpl.
    destruct (attempts l + 1 =? attempts l)%Z eqn:E; [lia|]. done. }
  destruct Hd1 as (Hid1 & Hat1 & Hst1 & Hms1 & Hma1). clearbody d1.
  assert (Hreq1 : save_request d1 =
                  WriteSave id (Some calling) (Some (attempts l + 1)%Z)).
  { unfold save_request. by rewrite Hms1, Hma1, Hst1, Hat1, Hid1. }
  (* await lead.save() *)
  destruct (held_save env w ref id Href _ _ _ _ Hid1 H1)
    as (r2 & w2 & Hr & [(_ & Hm & _)|[(-> & _ & H2)|(e & -> & _ & Hf & H2)]]).
  { by rewrite Hms1 in Hm. }
  2:{ rewrite run_bind, Hr. intros [= <- <-]. simpl. rewrite Hreq1 in H2.
      exists d1, l, (Some e), []. split; [done|]. split; [done|]. split; [done|].
      split; [done|]. split; [simpl; by rewrite Hms1|]. split; [left; eauto|done]. }
  rewrite run_bind, Hr. clear Hr H1. rewrite Hms1, Hma1, Hst1, Hat1, Hreq1 in H2.
  simpl app in H2.
  (* the log line *)
  destruct (held_read env w ref id Href _ _ _ _ H2) as (w3 & Hr & H3).
  rewrite run_bind, Hr. clear Hr H2.
  match goal with
  | |- context [call (Log ?lv ?msg)] =>
      destruct (held_log env w ref id lv msg _ _ _ _ H3) as (w4 & Hr & H4)
  end.
  rewrite run_bind, Hr. clear Hr H3 w2 w3.
  (* await this.simulateCallOutcome(lead) *)
  destruct (held_resolve env w ref id (resolve ref) _ _ _ _ Hquiet H4) as (w5 & Hr & H5).
  rewrite run_bind, Hr. clear Hr.
  destruct (held_lookup w ref id Href _ _ _ _ H4) as [Hd4 _].
  destruct (run env (resolve ref) w4) as [[outcome|e] w4'] eqn:Hres; cbn [fst].
  2:{ intros [= <- <-]. simpl.
      eexists (mark_clean d1), _, None, []. split; [exact H5|].
      split; [done|]. split; [done|]. split; [done|].
      split; [simpl; by rewrite Hst1|].
      split; [|done]. right. exists w4, (mark_clean d1), e. by rewrite Hres. }
  (* the branches on the outcome *)
  destruct (held_applyOutcome env w ref id Href outcome _ _ _ _ H5) as (w6 & Hr & H6).
  rewrite run_bind, Hr. clear Hr H5.
  set (d5 := match outcome_table outcome (doc_attempts (mark_clean d1)) with
             | Some s => assign_status s (mark_clean d1)
             | None => mark_clean d1
             end) in *.
  assert (Hne5 : modified_status d5 = true -> doc_status d5 <> calling).
  { unfold d5. simpl.
    destruct (outcome_table outcome (doc_attempts d1)) as [s|]; simpl; [|done].
    rewrite Hst1. by destruct s. }
  assert (Hreq5 : modified_status d5 = true ->
                  forall id' e, is_call_to id' (mkStoreEvent (save_request d5) e) = false).
  { intros Hm id' e. unfold save_request, is_call_to. simpl. rewrite Hm.
    specialize (Hne5 Hm). by destruct (doc_status d5). }
  assert (Hd5' : doc_id d5 = id /\ doc_attempts d5 = (attempts l + 1)%Z /\
                 modified_attempts d5 = false /\
                 doc_status d5 =
                   default calling (outcome_table outcome (attempts l + 1)) /\
                 (modified_status d5 = false -> doc_status d5 = calling)).
  { unfold d5. simpl. rewrite Hat1.
    destruct (outcome_table outcome (attempts l + 1)) as [s|]; simpl; [|done].
    rewrite Hst1. repeat split; try done. by destruct s. }
  clear Hne5. destruct Hd5' as (Hid5 & Hat5 & Hma5 & Hst5 & Hunmod5). clearbody d5.
  (* await lead.save() *)
  destruct (held_save env w ref id Href _ _ _ _ Hid5 H6)
    as (r7 & w7 & Hr & [(-> & Hm & H7)|[(-> & Hm & H7)|(e & -> & Hm & Hf & H7)]]);
    rewrite run_bind, Hr; clear Hr H6; rewrite Hma5, orb_false_r in Hm.
  - (* nothing to save: the outcome is not in the table *)
    destruct (held_read env w ref id Href _ _ _ _ H7) as (w8 & Hr & H8).
    rewrite run_bind, Hr. clear Hr H7.
    match goal with
    | |- context [call (Log ?lv ?msg)] =>
        destruct (held_log env w ref id lv msg _ _ _ _ H8) as (w9 & Hr & H9)
    end.
    rewrite Hr. intros [= <- <-]. simpl.
    eexists d5, _, None, []. split; [exact H9|].
    split; [done|]. split; [done|]. split; [done|]. split; [done|].
    exists outcome, w4, (mark_clean d1). rewrite Hres.
    split; [done|]. split; [done|]. split; [done|].
    by rewrite <- Hst5, (Hunmod5 Hm).
  - (* the outcome saved *)
    destruct (held_read env w ref id Href _ _ _ _ H7) as (w8 & Hr & H8).
    rewrite run_bind, Hr. clear Hr H7.
    match goal with
    | |- context [call (Log ?lv ?msg)] =>
        destruct (held_log env w ref id lv msg _ _ _ _ H8) as (w9 & Hr & H9)
    end.
    rewrite Hr. intros [= <- <-]. simpl.
    rewrite Hm, Hma5 in H9. simpl in H9.
    eexists (mark_clean d5), _, None, [_]. split; [exact H9|].
    split; [done|]. split; [done|].
    split; [apply Forall_singleton; intros id'; by apply (Hreq5 Hm id')|].
    split; [done|].
    exists outcome, w4, (mark_clean d1). rewrite Hres.
    split; [done|]. split; [done|]. split; [done|]. by rewrite Hst5.
  - (* the save of the outcome rejected *)
    intros [= <- <-]. simpl.
    eexists d5, _, None, [_]. split; [exact H7|].
    split; [done|]. split; [done|].
    split; [apply Forall_singleton; intros id'; by apply (Hreq5 Hm id')|].
    split; [simpl; by rewrite Hm|]. split; [left; eauto|done].
Qed.

(** The [catch] block behind it. *)
Lemma recover_paths d1 l1 evs err wk r w' :
  held w ref id d1 l1 evs wk -> doc_id d1 = id ->
  modified_status (assign_status failed d1) = true ->
  run env (CallWorker.recover ref err) wk = (r, w') ->
  let ma := if modified_attempts d1 then Some (doc_attempts d1) else None in
  r = Ok tt /\
  exists d2 l2 e2,
    held w ref id d2 l2
      (evs ++ [mkStoreEvent (WriteSave id (Some failed) ma) e2]) w' /\
    doc_id d2 = id /\ doc_attempts d2 = doc_attempts d1 /\
    match e2 with
    | None => l2 = apply_save (Some failed) ma l1
    | Some e => l2 = l1 /\ exists t, write_fault env t = Some e
    end.
Proof.
  intros H Hid Hms. unfold CallWorker.recover.
  destruct (held_read env w ref id Href _ _ _ _ H) as (w0 & Hr & H0).
  rewrite run_bind, Hr. clear Hr H.
  match goal with
  | |- context [call (Log ?lv ?msg)] =>
      destruct (held_log env w ref id lv msg _ _ _ _ H0) as (w1 & Hr & H1)
  end.
  rewrite run_bind, Hr. clear Hr H0.
  rewrite run_try_catch.
  destruct (held_set_status env w ref id Href failed _ _ _ _ H1) as (w2 & Hr & H2).
  rewrite run_bind, Hr. clear Hr H1.
  assert (Hreq : save_request (assign_status failed d1) =
                 WriteSave id (Some failed)
                   (if modified_attempts d1 then Some (doc_attempts d1) else None)).
  { unfold save_request. by rewrite Hms, <- Hid. }
  destruct (held_save env w ref id Href (assign_status failed d1) _ _ _ Hid H2)
    as (r3 & w3 & Hr & [(_ & Hm & _)|[(-> & _ & H3)|(e & -> & _ & Hf & H3)]]);
    rewrite Hr; clear Hr.
  - by rewrite Hms in Hm.
  - intros [= <- <-]. split; [done|]. rewrite Hreq, Hms in H3.
    eexists _, _, None. split; [exact H3|]. by simpl.
  - match goal with
    | |- context [call (Log ?lv ?msg)] =>
        destruct (held_log env w ref id lv msg _ _ _ _ H3) as (w4 & Hr & H4)
    end.
    rewrite Hr. intros [= <- <-]. split; [done|]. rewrite Hreq in H4.
    eexists _, _, (Some e). split; [exact H4|]. simpl. eauto.
Qed.

(** The loop body on a lead just fetched. *)
Lemma processLead_paths d l :
  docs w !! ref = Some d -> db_leads w !! id = Some l ->
  doc_id d = id -> doc_status d = pending ->
  modified_status d = false -> modified_attempts d = false ->
  doc_attempts d = attempts l ->
  let out := run env (CallWorker.processLead resolve ref) w in
  let n := (attempts l + 1)%Z in
  out.1 = Ok tt /\
  exists d' l' e1 later,
    held w ref id d' l'
      (mkStoreEvent (WriteSave id (Some calling) (Some n)) e1 :: later) out.2 /\
    doc_id d' = id /\ doc_attempts d' = n /\
    Forall (fun ev => forall id', is_call_to id' ev = false) later /\
    processed env resolve ref id l e1 l'.
Proof.
  intros Hd Hl Hid Hpending Hms Hma Hatt out n. subst out n.
  unfold CallWorker.processLead. rewrite run_try_catch.
  destruct (run env (CallWorker.attempt resolve ref) w) as [r1 w1] eqn:Hrun.
  apply (attempt_paths _ _ _ _ Hd Hl Hid Hpending Hms Hma Hatt) in Hrun
    as (d1 & l1 & e1 & mid & H1 & Hid1 & Hat1 & Hmid & Hr).
  destruct r1 as [[]|err].
  { destruct Hr as (-> & Hok). split; [done|].
    exists d1, l1, None, mid. split; [exact H1|]. split; [done|]. split; [done|].
    split; [done|]. left. split; [done|exact Hok]. }
  destruct Hr as (Hmod & Hcause & He1).
  destruct (run env (CallWorker.recover ref err) w1) as [r2 w2] eqn:Hrec.
  apply (recover_paths _ _ _ _ _ _ _ H1 Hid1 Hmod) in Hrec
    as (-> & d2 & l2 & e2 & H2 & Hid2 & Hat2 & He2).
  split; [done|].
  exists d2, l2, e1, (mid ++ [mkStoreEvent
    (WriteSave id (Some failed)
       (if modified_attempts d1 then Some (doc_attempts d1) else None)) e2]).
  split; [exact H2|]. split; [done|]. split; [congruence|].
  split; [apply Forall_app; split; [done|]; by apply Forall_singleton|].
  right. split; [done|].
  destruct e1 as [e1|]; destruct He1 as [-> Hma1]; rewrite Hma1, ?Hat1 in He2;
    destruct e2 as [e2|].
  - destruct He2 as [-> _]. by left.
  - subst l2. by right.
  - destruct He2 as [-> _]. by left.
  - subst l2. by right.
Qed.
End lead_paths.

(** ** The calls a pass makes *)

Lemma filter_none {A} (P : A -> Prop) `{forall x, Decision (P x)} (l : list A) :
  Forall (fun x => ~ P x) l -> filter P l = [].
Proof.
  induction 1 as [|x l Hx _ IH]; [done|]. by rewrite filter_cons_False.
Qed.

Lemma calls_made_after id id' n e1 later w w' :
  store_log w' = store_log w ++
    mkStoreEvent (WriteSave id (Some calling) (Some n)) e1 :: later ->
  Forall (fun ev => forall i, is_call_to i ev = false) later ->
  calls_made id' w' =
    (calls_made id' w +
     if decide (id' = id) then match e1 with None => 1 | Some _ => 0 end else 0)%nat.
Proof.
  intros Hlog Hlater. unfold calls_made. rewrite Hlog, filter_app, length_app.
  f_equal.
  assert (Hnone : filter (fun ev => is_call_made id' ev = true) later = []).
  { apply filter_none. eapply Forall_impl; [exact Hlater|].
    intros ev Hev. unfold is_call_made. by rewrite Hev. }
  destruct (decide (id' = id)) as [->|Hne].
  - destruct e1 as [e1|].
    + rewrite filter_cons_False, Hnone; [done|].
      unfold is_call_made. simpl. by rewrite andb_false_r.
    + rewrite filter_cons_True, Hnone; [done|].
      unfold is_call_made, is_call_to. simpl. by rewrite Nat.eqb_refl.
  - rewrite filter_cons_False, Hnone; [done|].
    unfold is_call_made, is_call_to. simpl.
    destruct (Nat.eqb_spec id id'); [congruence|done].
Qed.

(** What the loop body leaves of a stored lead. *)
Lemma processed_fields env resolve ref id l e1 l' :
  processed env resolve ref id l e1 l' ->
  name l' = name l /\ phone l' = phone l /\ email l' = email l /\
  interest_score l' = interest_score l /\ course_interest l' = course_interest l /\
  summary l' = summary l /\ transcript l' = transcript l /\
  createdAt l' = createdAt l /\
  (attempts l <= attempts l' <= attempts l + 1)%Z /\
  (e1 = None -> attempts l' = (attempts l + 1)%Z) /\
  (status l' = pending -> l' = l \/ (attempts l' < 3)%Z).
Proof.
  intros [(-> & outcome & w2 & d2 & _ & _ & _ & ->)|[_ He1]].
  - simpl. repeat split; try done; try lia.
    intros Hp. right. unfold outcome_table in Hp.
    destruct (String.eqb outcome "completed"); [done|].
    destruct (String.eqb outcome "no_answer").
    { destruct (Z.leb_spec 3 (attempts l + 1)); [done|lia]. }
    destruct (String.eqb outcome "failed"); done.
  - destruct e1 as [e1|]; destruct He1 as [-> | ->]; simpl;
      repeat split; try done; try lia; auto.
Qed.

Section pass_paths.
Context (env : Env) (resolve : DocRef -> Proc string).
Context (Hquiet : forall ref, quiet env (resolve ref)).

(** One lead of the loop. *)
Lemma processLead_fetched ref w x :
  docs w !! ref = Some (hydrate x) ->
  db_leads w !! x.1 = Some x.2 ->
  status x.2 = pending ->
  let out := run env (CallWorker.processLead resolve ref) w in
  out.1 = Ok tt /\
  length (docs out.2) = length (docs w) /\
  (forall j, j <> ref -> docs out.2 !! j = docs w !! j) /\
  (forall id, id <> x.1 -> db_leads out.2 !! id = db_leads w !! id) /\
  exists l' e1,
    db_leads out.2 !! x.1 = Some l' /\
    processed env resolve ref x.1 x.2 e1 l' /\
    forall id,
      calls_made id out.2 =
        (calls_made id w +
         if decide (id = x.1) then match e1 with None => 1 | Some _ => 0 end
         else 0)%nat.
Proof.
  intros Hd Hl Hp out. subst out.
  assert (Href : (ref < length (docs w))%nat) by by eapply lookup_lt_Some.
  destruct (processLead_paths env resolve w ref x.1 Href (Hquiet ref)
              (hydrate x) x.2 Hd Hl eq_refl Hp eq_refl eq_refl eq_refl)
    as (Hok & d' & l' & e1 & later & (Hdocs & Hdb & Hlog) & _ & _ & Hlater & Hproc).
  split; [done|].
  split; [by rewrite Hdocs, length_insert|].
  split; [intros j Hj; by rewrite Hdocs, list_lookup_insert_ne|].
  split; [intros id Hid; by rewrite Hdb, lookup_insert_ne|].
  exists l', e1. split; [by rewrite Hdb, lookup_insert_eq|]. split; [done|].
  intros id. by apply (calls_made_after x.1 id (attempts x.2 + 1)%Z e1 later).
Qed.

(** The loop over the fetched documents. *)
Lemma loop_paths items : forall base w,
  NoDup items.*1 ->
  (forall i x, items !! i = Some x ->
     docs w !! (base + i)%nat = Some (hydrate x) /\
     db_leads w !! x.1 = Some x.2 /\ status x.2 = pending) ->
  let out := run env (for_of (seq base (length items))
                        (CallWorker.processLead resolve)) w in
  out.1 = Ok tt /\
  length (docs out.2) = length (docs w) /\
  (forall j, (j < base)%nat -> docs out.2 !! j = docs w !! j) /\
  (forall id, id ∉ items.*1 ->
     db_leads out.2 !! id = db_leads w !! id /\
     calls_made id out.2 = calls_made id w) /\
  (forall i x, items !! i = Some x ->
     exists l' e1,
       db_leads out.2 !! x.1 = Some l' /\
       processed env resolve (base + i)%nat x.1 x.2 e1 l' /\
       calls_made x.1 out.2 =
         (calls_made x.1 w + match e1 with None => 1 | Some _ => 0 end)%nat).
Proof.
  induction items as [|x rest IH]; intros base w Hnd Hitems out; subst out.
  { simpl. repeat split; try done. }
  cbn [length seq for_of]. rewrite run_bind.
  apply NoDup_cons in Hnd as [Hx Hnd].
  destruct (Hitems 0%nat x eq_refl) as (Hd & Hl & Hp).
  rewrite Nat.add_0_r in Hd.
  destruct (processLead_fetched base w x Hd Hl Hp)
    as (Hok & Hlen & Hdocs & Hdb & l' & e1 & Hl' & Hproc & Hcalls).
  destruct (run env (CallWorker.processLead resolve base) w) as [r1 w1].
  simpl in Hok, Hlen, Hdocs, Hdb, Hl', Hcalls. subst r1.
  destruct (IH (S base) w1 Hnd) as (Hok2 & Hlen2 & Hdocs2 & Hout2 & Hrest).
  { intros i y Hy. specialize (Hitems (S i) y Hy) as (Hdy & Hly & Hpy).
    assert (Hne : y.1 <> x.1).
    { intros Heq. apply Hx. rewrite <- Heq.
      apply list_elem_of_fmap. exists y. split; [done|].
      by apply list_elem_of_lookup_2 with i. }
    rewrite Hdocs by lia. rewrite Hdb by done.
    replace (S base + i)%nat with (base + S i)%nat by lia. done. }
  split; [done|]. split; [congruence|].
  split; [intros j Hj; rewrite Hdocs2 by lia; apply Hdocs; lia|].
  split.
  { intros id Hid. apply not_elem_of_cons in Hid as [Hne Hid].
    destruct (Hout2 id Hid) as [-> ->]. split; [by apply Hdb|].
    rewrite Hcalls. destruct (decide (id = x.1)); [done|lia]. }
  intros [|i] y Hy.
  - injection Hy as <-. rewrite Nat.add_0_r.
    destruct (Hout2 x.1 Hx) as [-> ->]. exists l', e1.
    split; [done|]. split; [done|]. rewrite Hcalls.
    destruct (decide (x.1 = x.1)); [done|congruence].
  - assert (Hne : y.1 <> x.1).
    { intros Heq. apply Hx. rewrite <- Heq.
      apply list_elem_of_fmap. exists y. split; [done|].
      by apply list_elem_of_lookup_2 with i. }
    replace (base + S i)%nat with (S base + i)%nat by lia.
    destruct (Hrest i y Hy) as (ly & ey & Hly & Hpy & Hcy).
    exists ly, ey. split; [done|]. split; [done|]. rewrite Hcy, Hcalls.
    destruct (decide (y.1 = x.1)); [done|lia].
Qed.

(** A whole pass. *)
Lemma pass_paths w :
  let found := find_pending 5 (db_leads w) in
  let out := run env (CallWorker.processCallQueueWith resolve) w in
  out.1 = Ok tt /\
  (forall e, read_fault env (ticks w) = Some e ->
     db_leads out.2 = db_leads w /\ store_log out.2 = store_log w) /\
  (read_fault env (ticks w) = None ->
     (forall id, id ∉ found.*1 ->
        db_leads out.2 !! id = db_leads w !! id /\
        calls_made id out.2 = calls_made id w) /\
     (forall i x, found !! i = Some x ->
        exists l' e1,
          db_leads out.2 !! x.1 = Some l' /\
          processed env resolve (length (docs w) + i)%nat x.1 x.2 e1 l' /\
          calls_made x.1 out.2 =
            (calls_made x.1 w + match e1 with None => 1 | Some _ => 0 end)%nat)).
Proof.
  intros found out. subst out.
  unfold CallWorker.processCallQueueWith.
  rewrite run_try_catch, run_bind_call. cbn [exec].
  destruct (read_fault env (ticks w)) as [e|] eqn:Hread.
  { simpl. split; [done|]. split; [by intros e' _|done]. }
  fold found. rewrite length_seq.
  set (w1 := tick (with_docs _ w)).
  assert (Hw1 : docs w1 = docs w ++ map hydrate found /\ db_leads w1 = db_leads w /\
                store_log w1 = store_log w)
    by done.
  clearbody w1. destruct Hw1 as (Hdocs1 & Hdb1 & Hlog1).
  destruct (length found =? 0)%nat eqn:Hempty.
  { apply Nat.eqb_eq in Hempty. rewrite run_call. cbn [exec fst snd].
    split; [done|]. split; [done|]. intros _.
    apply nil_length_inv in Hempty. rewrite Hempty.
    split; [|intros i x Hx; by rewrite lookup_nil in Hx].
    intros id _. unfold calls_made.
    cbn [db_leads store_log tick with_log_lines]. by rewrite Hdb1, Hlog1. }
  rewrite run_bind_call. cbn [exec].
  set (w2 := tick (with_log_lines _ w1)).
  assert (Hw2 : docs w2 = docs w ++ map hydrate found /\ db_leads w2 = db_leads w /\
                store_log w2 = store_log w)
    by done.
  clearbody w2. destruct Hw2 as (Hdocs2 & Hdb2 & Hlog2).
  assert (Hcalls2 : forall id, calls_made id w2 = calls_made id w).
  { intros id. unfold calls_made. by rewrite Hlog2. }
  destruct (loop_paths found (length (docs w)) w2 (find_pending_NoDup 5 (db_leads w)))
    as (Hok & _ & _ & Hout & Hitems).
  { intros i x Hx. rewrite Hdocs2, Hdb2.
    rewrite lookup_app_r by lia.
    replace (length (docs w) + i - length (docs w))%nat with i by lia.
    rewrite list_lookup_fmap, Hx. split; [done|].
    apply find_pending_stored with 5%nat. by apply list_elem_of_lookup_2 with i. }
  destruct (run env (for_of (seq (length (docs w)) (length found))
                       (CallWorker.processLead resolve)) w2)
    as [r3 w3]. simpl in Hok, Hout, Hitems. subst r3.
  cbn [fst snd]. split; [done|]. split; [done|]. intros _.
  split.
  - intros id Hid. destruct (Hout id Hid) as [-> ->]. by rewrite Hdb2, Hcalls2.
  - intros i x Hx. destruct (Hitems i x Hx) as (l' & e1 & Hl' & Hp & Hc).
    exists l', e1. by rewrite Hc, Hcalls2.
Qed.
End pass_paths.

Section passes.
Context (env : Env) (resolve : DocRef -> Proc string).
Context (Hquiet : forall ref, quiet env (resolve ref)).

(** What a pass makes of one stored lead, and the calls it makes to it. *)
Lemma pass_per_stored w id :
  let found := find_pending 5 (db_leads w) in
  let w' := (run env (CallWorker.processCallQueueWith resolve) w).2 in
  match db_leads w !! id with
  | None => db_leads w' !! id = None /\ calls_made id w' = calls_made id w
  | Some l =>
      exists l', db_leads w' !! id = Some l' /\
        ((l' = l /\ calls_made id w' = calls_made id w /\
          (read_fault env (ticks w) = None -> (id, l) ∉ found)) \/
         (read_fault env (ticks w) = None /\ (id, l) ∈ found /\
          exists ref e1,
            processed env resolve ref id l e1 l' /\
            calls_made id w' =
              (calls_made id w + match e1 with None => 1 | Some _ => 0 end)%nat))
  end.
Proof.
  intros found w'. subst w'.
  destruct (pass_paths env resolve Hquiet w) as (_ & Hfault & Hread).
  fold found in Hread.
  destruct (read_fault env (ticks w)) as [e|] eqn:Hr.
  { destruct (Hfault e eq_refl) as [Hdb Hlog].
    assert (Hc : calls_made id (run env (CallWorker.processCallQueueWith resolve) w).2
                 = calls_made id w) by (unfold calls_made; by rewrite Hlog).
    rewrite Hdb. destruct (db_leads w !! id) as [l|]; [|done].
    exists l. split; [done|]. left. by repeat split. }
  destruct (Hread eq_refl) as (Hothers & Hfound).
  destruct (decide (id ∈ found.*1)) as [Hin|Hout].
  - apply list_elem_of_fmap in Hin as (x & -> & Hx).
    destruct (find_pending_stored _ _ _ Hx) as [Hl Hp]. rewrite Hl.
    apply list_elem_of_lookup_1 in Hx as Hi. destruct Hi as [i Hi].
    destruct (Hfound i x Hi) as (l' & e1 & Hl' & Hproc & Hcalls).
    exists l'. split; [done|]. right. destruct x as [id l].
    split; [done|]. split; [done|]. by exists (length (docs w) + i)%nat, e1.
  - destruct (Hothers id Hout) as [-> ->].
    destruct (db_leads w !! id) as [l|]; [|done].
    exists l. split; [done|]. left. split; [done|]. split; [done|].
    intros _ Hin. apply Hout. apply list_elem_of_fmap. by exists (id, l).
Qed.

Lemma pass_bound w :
  within_retries w ->
  let w' := (run env (CallWorker.processCallQueueWith resolve) w).2 in
  within_retries w' /\
  forall id l, db_leads w !! id = Some l ->
    exists l', db_leads w' !! id = Some l' /\
      (attempts l <= attempts l')%Z /\
      (Z.of_nat (calls_made id w') - Z.of_nat (calls_made id w)
       <= attempts l' - attempts l)%Z.
Proof.
  intros Hw w'. subst w'. split.
  - intros id l' Hl'. pose proof (pass_per_stored w id) as H. cbv zeta in H.
    destruct (db_leads w !! id) as [l|] eqn:Hl; [|destruct H; congruence].
    destruct H as (l0 & Hl0 & Hcase). rewrite Hl' in Hl0. injection Hl0 as <-.
    destruct (Hw id l Hl) as [Hmax Hpend].
    destruct Hcase as [[-> _]|(_ & Hin & ref & e1 & Hproc & _)]; [done|].
    destruct (find_pending_stored _ _ _ Hin) as [_ Hp]. specialize (Hpend Hp).
    destruct (processed_fields _ _ _ _ _ _ _ Hproc)
      as (_ & _ & _ & _ & _ & _ & _ & _ & Hatts & _ & Hpending).
    split; [lia|]. intros Hp'. destruct (Hpending Hp') as [-> | ?]; [done|lia].
  - intros id l Hl. pose proof (pass_per_stored w id) as H. cbv zeta in H.
    rewrite Hl in H. destruct H as (l' & Hl' & Hcase). exists l'. split; [done|].
    destruct Hcase as [(-> & -> & _)|(_ & _ & ref & e1 & Hproc & ->)]; [lia|].
    destruct (processed_fields _ _ _ _ _ _ _ Hproc)
      as (_ & _ & _ & _ & _ & _ & _ & _ & Hatts & He1 & _).
    split; [lia|]. destruct e1 as [e1|]; [lia|]. specialize (He1 eq_refl). lia.
Qed.
End passes.

(** X5.  The retry bound over queue passes that run one after another, as
    the firings of the periodic trigger do, whatever the store answers and
    whatever outcome resolver stands in for [simulateCallOutcome], as long
    as it leaves documents and store alone.  If no stored lead has more
    than three attempts and every pending one has fewer than three, the
    same holds after any number of such passes; every lead stays stored,
    its attempts never decrease and never exceed three; and the calls made
    to it during these passes (the saves of status [calling] that the
    store accepted) are at most as many as its attempts have grown, hence
    at most three minus the attempts it started with.  Passes that
    overlap, as the manual trigger allows, are not covered. *)
Theorem pass_keeps_retry_bound env resolve n w :
  (forall ref, quiet env (resolve ref)) ->
  within_retries w ->
  let w' := after_passes env resolve n w in
  within_retries w' /\
  forall id l, db_leads w !! id = Some l ->
    exists l', db_leads w' !! id = Some l' /\
      (attempts l <= attempts l' <= 3)%Z /\
      (Z.of_nat (calls_made id w') - Z.of_nat (calls_made id w)
       <= attempts l' - attempts l)%Z /\
      (Z.of_nat (calls_made id w') <= Z.of_nat (calls_made id w) + 3 - attempts l)%Z.
Proof.
  intros Hquiet. revert w. induction n as [|n IH]; intros w Hw w'; subst w'.
  - split; [done|]. intros id l Hl. exists l. split; [done|].
    destruct (Hw id l Hl) as [Hmax _]. simpl. lia.
  - cbn [after_passes].
    destruct (pass_bound env resolve Hquiet w Hw) as [Hw1 Hleads1].
    destruct (IH _ Hw1) as [Hw' Hleads']. split; [done|].
    intros id l Hl.
    destruct (Hleads1 id l Hl) as (l1 & Hl1 & Ha1 & Hc1).
    destruct (Hleads' id l1 Hl1) as (l' & Hl' & Ha' & Hc' & _).
    exists l'. split; [done|]. lia.
Qed.

Lemma pass_keeps_retry_bound_witness :
  let w := Example.world_of Example.ann in
  let w' := after_passes Example.env_no_match CallWorker.simulateCallOutcome 5 w in
  within_retries w' /\ (calls_made 7 w' <= 3)%nat.
Proof.
  intros w w'.
  destruct (pass_keeps_retry_bound Example.env_no_match CallWorker.simulateCallOutcome
              5 w) as [Hw' Hleads].
  - intros ref. apply simulateCallOutcome_quiet.
  - intros id l Hl. unfold w, Example.world_of in Hl. cbn [db_leads] in Hl.
    apply lookup_singleton_Some in Hl as [_ <-]. simpl. lia.
  - split; [exact Hw'|].
    destruct (Hleads 7%nat Example.ann) as (l' & _ & _ & _ & Hcalls); [reflexivity|].
    change (calls_made 7 w) with 0%nat in Hcalls.
    change (attempts Example.ann) with 0%Z in Hcalls. unfold w'. lia.
Defined.

(** X6.  A pass over a store that accepts every write, with an outcome
    resolver that leaves documents and store alone and answers
    [answer id] whenever it is asked about a document of lead [id].  Every
    lead the pass fetches is called once and stored with its attempts
    incremented by one and the status the outcome calls for at the
    incremented attempts: [completed] after a completed call, [pending]
    below three attempts and [failed] from three on after an unanswered
    call, [failed] after a failed call, and [calling] still after an
    outcome the code does not list.  The other leads are as they were and
    are not called.  If every outcome is one of the three the code lists
    and no stored lead was [calling] before the pass, none is after it. *)
Theorem healthy_pass_ends_every_call env resolve answer w :
  (forall t, write_fault env t = None) ->
  (forall ref, quiet env (resolve ref)) ->
  (forall ref w0 d, docs w0 !! ref = Some d ->
     (run env (resolve ref) w0).1 = Ok (answer (doc_id d))) ->
  read_fault env (ticks w) = None ->
  let found := find_pending 5 (db_leads w) in
  let w' := (run env (CallWorker.processCallQueueWith resolve) w).2 in
  (forall id l, (id, l) ∈ found ->
     db_leads w' !! id =
       Some (apply_save
               (Some (default calling (outcome_table (answer id) (attempts l + 1))))
               (Some (attempts l + 1)%Z) l) /\
     calls_made id w' = S (calls_made id w) /\
     (answer id = "completed" -> status <$> db_leads w' !! id = Some completed) /\
     (answer id = "no_answer" ->
      status <$> db_leads w' !! id =
        Some (if (3 <=? attempts l + 1)%Z then failed else pending)) /\
     (answer id = "failed" -> status <$> db_leads w' !! id = Some failed)) /\
  (forall id, id ∉ found.*1 ->
     db_leads w' !! id = db_leads w !! id /\ calls_made id w' = calls_made id w) /\
  ((forall id, answer id = "completed" \/ answer id = "no_answer" \/
               answer id = "failed") ->
   none_calling w -> none_calling w').
Proof.
  intros Hhealthy Hquiet Hanswer Hread found w'. subst w'.
  assert (Hin : forall id l, (id, l) ∈ found ->
            db_leads (run env (CallWorker.processCallQueueWith resolve) w).2 !! id =
              Some (apply_save
                      (Some (default calling
                               (outcome_table (answer id) (attempts l + 1))))
                      (Some (attempts l + 1)%Z) l) /\
            calls_made id (run env (CallWorker.processCallQueueWith resolve) w).2
              = S (calls_made id w)).
  { intros id l Hin.
    pose proof (pass_per_stored env resolve Hquiet w id) as H. cbv zeta in H.
    destruct (find_pending_stored _ _ _ Hin) as [Hl _]. simpl in Hl. rewrite Hl in H.
    destruct H as (l' & Hl' & [(_ & _ & Hout)|(_ & _ & ref & e1 & Hproc & Hcalls)]).
    { by destruct (Hout Hread). }
    destruct Hproc as [(-> & outcome & w2 & d2 & Hd2 & Hid2 & Hres & ->)
                      |[[(t & e & Hf)|(w2 & d2 & e & Hd2 & Hid2 & Hres)] _]].
    - rewrite (Hanswer ref w2 d2 Hd2), Hid2 in Hres. injection Hres as <-.
      split; [done|]. rewrite Hcalls. lia.
    - by rewrite Hhealthy in Hf.
    - by rewrite (Hanswer ref w2 d2 Hd2) in Hres. }
  split; [|split].
  - intros id l Hfound. destruct (Hin id l Hfound) as [Hl' Hc].
    split; [done|]. split; [done|]. rewrite Hl'. simpl.
    split; [by intros ->|]. split; [|by intros ->].
    intros ->. unfold outcome_table. simpl. by destruct (3 <=? attempts l + 1)%Z.
  - intros id Hout.
    pose proof (pass_per_stored env resolve Hquiet w id) as H. cbv zeta in H.
    destruct (db_leads w !! id) as [l|] eqn:Hl; [|done].
    destruct H as (l' & Hl' & [(-> & Hc & _)|(_ & Hfound & _)]); [done|].
    exfalso. apply Hout. apply list_elem_of_fmap. by exists (id, l).
  - intros Hlisted Hnone id l' Hl'.
    pose proof (pass_per_stored env resolve Hquiet w id) as H. cbv zeta in H.
    destruct (db_leads w !! id) as [l|] eqn:Hl; [|destruct H; congruence].
    destruct H as (l0 & Hl0 & Hcase). rewrite Hl' in Hl0. injection Hl0 as <-.
    destruct Hcase as [(-> & _)|(_ & Hfound & _)]; [by apply (Hnone id)|].
    destruct (Hin id l Hfound) as [Hl'' _]. rewrite Hl' in Hl''.
    injection Hl'' as ->. simpl. unfold outcome_table.
    destruct (Hlisted id) as [-> | [-> | ->]]; simpl; [done| |done].
    by destruct (3 <=? attempts l + 1)%Z.
Qed.

Lemma healthy_pass_ends_every_call_witness :
  let w := Example.world_of (Example.ann_called 2) in
  let w' := (run Example.env_no_match CallWorker.processCallQueue w).2 in
  (status <$> db_leads w' !! 7%nat = Some failed) /\
  calls_made 7 w' = 1%nat /\ none_calling w'.
Proof.
  intros w w'.
  destruct (healthy_pass_ends_every_call Example.env_no_match
              CallWorker.simulateCallOutcome (fun _ => "no_answer") w)
    as (Hfound & _ & Hnone).
  - intros t. reflexivity.
  - intros ref. apply simulateCallOutcome_quiet.
  - intros ref w0 d _. reflexivity.
  - reflexivity.
  - destruct (Hfound 7%nat (Example.ann_called 2)) as (_ & Hcalls & _ & Hst & _).
    { assert (E : find_pending 5 (db_leads w) = [(7%nat, Example.ann_called 2)])
        by (vm_compute; reflexivity).
      rewrite E. apply list_elem_of_here. }
    split; [exact (Hst eq_refl)|]. split; [exact Hcalls|].
    apply Hnone; [intros id; right; left; reflexivity|].
    intros id l Hl. unfold w, Example.world_of in Hl.
    cbn [db_leads] in Hl. apply lookup_singleton_Some in Hl as [_ <-]. done.
Defined.

(** ** The requests of a conversation turn *)

Lemma exec_keeps_index_requests env {X} (op : Op X) w :
  is_index_query op = false -> index_requests (exec env op w).2 = index_requests w.
Proof.
  destruct op; simpl; try done; intros _;
    repeat match goal with
           | |- context [match ?x with _ => _ end] => destruct x
           end; done.
Qed.

Lemma keeps_index_requests env {A} (p : Proc A) w :
  never (@is_index_query) p -> index_requests (run env p w).2 = index_requests w.
Proof.
  intros Hp. apply (never_run (@is_index_query)); [|done].
  intros. by apply exec_keeps_index_requests.
Qed.

Lemma initializeCollection_no_query :
  never (@is_index_query) RAGService.initializeCollection.
Proof.
  unfold RAGService.initializeCollection, RAGService.getChromaClient,
    RAGService.collectionName.
  repeat never_step.
Qed.

Lemma generateAIResponse_no_query h c :
  never (@is_index_query) (LLMService.generateAIResponse h c).
Proof.
  unfold LLMService.generateAIResponse, LLMService.getModel.
  repeat never_step.
Qed.

Lemma persist_no_query leadId userMessage lead aiResult :
  never (@is_index_query) (persist leadId userMessage lead aiResult).
Proof. unfold persist. repeat never_step. Qed.

Lemma persist_no_invoke leadId userMessage lead aiResult :
  never (@is_model_invoke) (persist leadId userMessage lead aiResult).
Proof. unfold persist. repeat never_step. Qed.

(** Initialising the collection: it is set when that returns and left as
    it was when that throws. *)
Lemma initializeCollection_cases env w r w' :
  run env RAGService.initializeCollection w = (r, w') ->
  has_client w' = has_client w /\
  match r with
  | Ok _ => has_collection w' = true /\ has_client w = true
  | Throw e =>
      has_collection w' = has_collection w /\
      ((has_client w = false /\
        e = "ChromaDB not initialized. Call initializeChroma() first.") \/
       (has_client w = true /\ exists t, index_fault env t = Some e))
  end.
Proof.
  unfold RAGService.initializeCollection, RAGService.getChromaClient,
    RAGService.collectionName. simpl.
  destruct (has_client w) eqn:Hc; simpl.
  2:{ intros [= <- <-]. simpl. split; [done|]. split; [done|]. by left. }
  destruct (index_fault env (S (S (ticks w)))) as [e|] eqn:Hf; simpl.
  - intros [= <- <-]. simpl. split; [done|]. split; [done|]. right. eauto.
  - intros [= <- <-]. simpl. done.
Qed.

(** The retrieval asks the index at most once, and for the query as
    given. *)
Lemma retrieveContext_queries env q k f w :
  let out := run env (RAGService.retrieveContext q k f) w in
  has_client out.2 = has_client w /\
  ((index_requests out.2 = index_requests w /\
    out.1 = Ok RAGService.unavailable /\
    has_collection w = false /\ has_collection out.2 = false /\
    (has_client w = false \/ exists t e, index_fault env t = Some e)) \/
   (index_requests out.2 =
      index_requests w ++
      [mkQueryParams [q] k (if (0 <? length f)%nat then Some f else None)] /\
    has_collection out.2 = true)).
Proof.
  intros out. subst out. unfold RAGService.retrieveContext.
  rewrite run_try_catch, run_bind_call. cbn [exec cell].
  destruct (has_collection w) eqn:Hcoll.
  - rewrite run_bind. simpl run at 1. cbv iota. rewrite run_bind_call. cbn [exec].
    simpl.
    match goal with
    | |- context [index_answer env ?t ?p] =>
        destruct (index_answer env t p) as [[[|first rest]|]|e]
    end; simpl; (split; [done|]); right; by rewrite Hcoll.
  - rewrite run_bind, run_await.
    destruct (run env RAGService.initializeCollection (tick w)) as [r1 w1] eqn:Hinit.
    pose proof (keeps_index_requests env _ (tick w) initializeCollection_no_query) as Hq.
    rewrite Hinit in Hq. simpl in Hq.
    apply initializeCollection_cases in Hinit as [Hcl Hinit].
    cbn [fst snd]. destruct r1 as [[]|e].
    + destruct Hinit as [Hset _]. rewrite run_bind_call. cbn [exec].
      simpl.
      match goal with
      | |- context [index_answer env ?t ?p] =>
          destruct (index_answer env t p) as [[[|first rest]|]|e]
      end; simpl; (split; [done|]); right; by rewrite Hq, Hset.
    + destruct Hinit as [Hkeep Hwhy]. simpl in Hkeep, Hcl. simpl.
      split; [done|]. left. rewrite Hq, Hkeep, Hcoll.
      repeat split; try done.
      destruct Hwhy as [[? _]|[_ (t & Hf)]]; [by left|right; eauto].
Qed.

(** The generation invokes the model at most once, with the system
    prompt and the history. *)
Lemma generateAIResponse_requests env history context w :
  let out := run env (LLMService.generateAIResponse history context) w in
  model_requests out.2 = model_requests w \/
  (JS.includes "No relevant information found" context = false /\
   JS.includes "Unable to retrieve context" context = false /\
   model_requests out.2 =
     model_requests w ++ [LLMService.messages_for history context]).
Proof.
  intros out. subst out.
  destruct (JS.includes "No relevant information found" context) eqn:H1.
  { left. unfold LLMService.generateAIResponse. by rewrite H1. }
  destruct (JS.includes "Unable to retrieve context" context) eqn:H2.
  { left. unfold LLMService.generateAIResponse. by rewrite H1, H2. }
  rewrite run_generate_open by done. rewrite run_bind.
  assert (Hn : never (@is_model_invoke) LLMService.getModel)
    by (unfold LLMService.getModel; repeat never_step).
  pose proof (keeps_model_requests env LLMService.getModel w Hn) as Hw1.
  destruct (run env LLMService.getModel w) as [[[]|e] w1]; simpl in Hw1;
    [|by left].
  rewrite run_bind_call. cbn [exec].
  set (w2 := tick _).
  assert (Hw2 : model_requests w2 =
                model_requests w ++ [LLMService.messages_for history context]).
  { subst w2. cbn [model_requests tick with_model_requests]. by rewrite Hw1. }
  clearbody w2. right. split; [done|]. split; [done|].
  destruct (model_answer env (ticks w1) _) as [raw|e]; [|by rewrite <- Hw2].
  match goal with
  | |- context [run env ?p w2] =>
      assert (Hp : never (@is_model_invoke) p) by (repeat never_step);
      pose proof (keeps_model_requests env p w2 Hp) as Hkeep;
      destruct (run env p w2) as [[a|e] w3]
  end; simpl in *; congruence.
Qed.

(** ** A conversation turn, beyond its transcript *)

(** The persistence stage, when it throws. *)
Lemma persist_throws env leadId userMessage lead aiResult w stored e w' :
  db_leads w !! leadId = Some stored ->
  run env (persist leadId userMessage lead aiResult) w = (Throw e, w') ->
  let u := ConversationService.updateData lead aiResult
             (transcript lead ++ [mkEntry user userMessage None])
             (mkEntry user userMessage (Some (clock env (ticks w))))
             (mkEntry assistant (response aiResult) (Some (clock env (S (ticks w))))) in
  db_calllogs w' = db_calllogs w /\
  model_requests w' = model_requests w /\ index_requests w' = index_requests w /\
  ((db_leads w' = db_leads w /\
    store_log w' = store_log w ++ [mkStoreEvent (WriteUpdate leadId u) (Some e)]) \/
   (db_leads w' = <[leadId := apply_update u stored]> (db_leads w) /\
    store_log w' = store_log w ++
      [mkStoreEvent (WriteUpdate leadId u) None;
       mkStoreEvent (WriteCallLog (ConversationService.callLog leadId userMessage aiResult))
                    (Some e)])).
Proof.
  intros Hs. unfold persist. simpl.
  destruct (write_fault env (S (S (ticks w)))) as [e1|] eqn:Hw1; simpl.
  { intros [= <- <-]. simpl. repeat split; try done. by left. }
  rewrite Hs. simpl.
  destruct (write_fault env (S (S (S (ticks w))))) as [e2|] eqn:Hw2; simpl; [|done].
  intros [= <- <-]. simpl. repeat split; try done. right.
  split; [done|]. by rewrite <- app_assoc.
Qed.

(** X7.  A turn on a lead the store does not hold.  It throws: the error
    of the lookup if the store rejects the lookup, and an error with the
    message [Lead not found] otherwise.  In both cases the error is logged
    and nothing else happens: nothing is written, no write is even
    requested, and neither the vector index nor the model is asked
    anything. *)
Theorem turn_on_missing_lead env leadId userMessage w :
  db_leads w !! leadId = None ->
  let out := run env (ConversationService.processMessage leadId userMessage) w in
  exists e,
    out.1 = Throw e /\
    (read_fault env (ticks w) = None -> e = "Lead not found") /\
    (forall e', read_fault env (ticks w) = Some e' -> e = e') /\
    out.2 = tick (with_log_lines
                    (fun ls => ls ++ [(error, "Conversation Service Error: " +:+ e)])
                    (tick w)) /\
    db_leads out.2 = db_leads w /\ db_calllogs out.2 = db_calllogs w /\
    store_log out.2 = store_log w /\
    index_requests out.2 = index_requests w /\
    model_requests out.2 = model_requests w.
Proof.
  intros Hnone out. subst out.
  destruct (turn_cases env leadId userMessage w)
    as [(e & Hf & ->)|[(Hf & _ & ->)|(lead & _ & _ & _ & _ & _ & Hl & _)]];
    [| |congruence].
  - exists e. rewrite run_rethrow. simpl. repeat split; try done; congruence.
  - exists "Lead not found". rewrite run_rethrow. simpl.
    repeat split; try done; congruence.
Qed.

Lemma turn_on_missing_lead_witness :
  (run Example.env_no_match (ConversationService.processMessage 8 "Hello")
       (Example.world_of Example.ann)).1 = Throw "Lead not found".
Proof.
  destruct (turn_on_missing_lead Example.env_no_match 8 "Hello"
              (Example.world_of Example.ann)) as (e & He & Hmsg & _).
  - reflexivity.
  - rewrite He. f_equal. apply Hmsg. reflexivity.
Defined.

(** X8.  The requests a turn sends to its collaborators, however it ends.
    The vector index is queried at most once: with the user's message as
    the only query text, for three results, without a filter.  The model
    is invoked at most once, and only with a context that holds neither
    sentinel text: with the system prompt around that context, then the
    stored transcript in order (every role but [assistant] sent as
    [user]), then the user's message. *)
Theorem turn_requests env leadId userMessage w :
  let out := run env (ConversationService.processMessage leadId userMessage) w in
  (index_requests out.2 = index_requests w \/
   index_requests out.2 = index_requests w ++ [mkQueryParams [userMessage] 3 None]) /\
  (model_requests out.2 = model_requests w \/
   exists lead context,
     db_leads w !! leadId = Some lead /\
     JS.includes "No relevant information found" context = false /\
     JS.includes "Unable to retrieve context" context = false /\
     model_requests out.2 =
       model_requests w ++
       [mkChatMessage "system" (LLMService.systemPrompt context)
        :: map LLMService.chat_message (transcript lead)
        ++ [mkChatMessage "user" userMessage]]).
Proof.
  intros out. subst out.
  destruct (turn_cases env leadId userMessage w)
    as [(e & _ & ->)|[(_ & _ & ->)|(lead & context & w2 & aiResult & w3 & _ & Hl
                                    & Hctx & Hgen & _ & _ & _ & ->)]].
  - rewrite run_rethrow. simpl. split; by left.
  - rewrite run_rethrow. simpl. split; by left.
  - rewrite run_await in Hctx. rewrite run_await in Hgen.
    pose proof (retrieveContext_queries env userMessage 3 [] (tick w)) as [_ Hq].
    cbv zeta in Hq. simpl length in Hq. simpl Nat.ltb in Hq. cbv iota in Hq.
    pose proof (keeps_model_requests env _ (tick w)
                  (retrieveContext_no_invoke userMessage 3 [])) as Hm1.
    destruct (run env (RAGService.retrieveContext userMessage 3 []) (tick w))
      as [r1 w1]. simpl in Hctx, Hq, Hm1. injection Hctx as -> <-.
    pose proof (generateAIResponse_requests env
                  (transcript lead ++ [mkEntry user userMessage None])
                  context (tick w1)) as Hm.
    cbv zeta in Hm.
    pose proof (keeps_index_requests env _ (tick w1)
                  (generateAIResponse_no_query
                     (transcript lead ++ [mkEntry user userMessage None]) context))
      as Hq2.
    destruct (run env (LLMService.generateAIResponse _ context) (tick w1))
      as [r2 w4]. simpl in Hgen, Hm, Hq2. injection Hgen as -> <-.
    pose proof (keeps_index_requests env _ (tick w4)
                  (persist_no_query leadId userMessage lead aiResult)) as Hq3.
    pose proof (keeps_model_requests env _ (tick w4)
                  (persist_no_invoke leadId userMessage lead aiResult)) as Hm3.
    destruct (run env (persist leadId userMessage lead aiResult) (tick w4))
      as [[o|e] w5]; simpl in Hq3, Hm3.
    + simpl. rewrite Hq3, Hq2, Hm3. split.
      * destruct Hq as [(-> & _)|[-> _]]; auto.
      * destruct Hm as [-> | (G1 & G2 & ->)]; [left; congruence|right].
        exists lead, context. rewrite Hm1. repeat split; try done.
        unfold LLMService.messages_for. by rewrite map_app.
    + rewrite run_rethrow. simpl. rewrite Hq3, Hq2, Hm3. split.
      * destruct Hq as [(-> & _)|[-> _]]; auto.
      * destruct Hm as [-> | (G1 & G2 & ->)]; [left; congruence|right].
        exists lead, context. rewrite Hm1. repeat split; try done.
        unfold LLMService.messages_for. by rewrite map_app.
Qed.

(** The stages of a turn that returns, each run where the one before it
    has ended. *)
Lemma turn_stages env leadId userMessage w out w' :
  run env (ConversationService.processMessage leadId userMessage) w = (Ok out, w') ->
  exists lead w1 context w2 aiResult w3,
    run env (call (LeadFindById leadId)) w = (Ok (Some lead), w1) /\
    run env (await (RAGService.retrieveContext userMessage 3 [])) w1
      = (Ok context, w2) /\
    run env (await (LLMService.generateAIResponse
                      (transcript lead ++ [mkEntry user userMessage None])
                      context)) w2 = (Ok aiResult, w3) /\
    run env (persist leadId userMessage lead aiResult) w3 = (Ok out, w') /\
    db_leads w !! leadId = Some lead /\
    db_leads w3 = db_leads w /\ db_calllogs w3 = db_calllogs w /\
    store_log w3 = store_log w.
Proof.
  intros Hrun.
  destruct (turn_cases env leadId userMessage w)
    as [(e & _ & H)|[(_ & _ & H)|(lead & context & w2 & aiResult & w3 & Hread & Hlead
                                   & Hctx & Hgen & Hdb & Hlogs & Hstore & H)]].
  - rewrite H, run_rethrow in Hrun. done.
  - rewrite H, run_rethrow in Hrun. done.
  - exists lead, (tick w), context, w2, aiResult, w3.
    split; [rewrite run_call; simpl; by rewrite Hread, Hlead|].
    repeat split; try done.
    rewrite H in Hrun.
    destruct (run env (persist leadId userMessage lead aiResult) w3) as [[o|e] w4];
      [done|]. by rewrite run_rethrow in Hrun.
Qed.

(** X9.  What a turn that returns leaves behind, beside the transcript.
    The turn has looked up its lead, retrieved a context and obtained a
    record from the generation step for that context; the response and the
    metadata it returns are those of that record.  Exactly one call log is
    added: for this lead, with duration 0, the intent of the record as its
    only intent, its objection and handoff flag, and the raw transcript
    [User: ] message, line feed, [AI: ] response.  The lead view returned
    is read from the lead as stored after the update.  Of the stored lead,
    name, phone, email, status, attempts and creation time are untouched,
    and the course interest is replaced by the course detected in the
    record exactly when that is a non-empty string. *)
Theorem turn_record env leadId userMessage w out w' :
  run env (ConversationService.processMessage leadId userMessage) w = (Ok out, w') ->
  exists lead w1 context w2 aiResult w3 stored,
    run env (call (LeadFindById leadId)) w = (Ok (Some lead), w1) /\
    run env (await (RAGService.retrieveContext userMessage 3 [])) w1
      = (Ok context, w2) /\
    run env (await (LLMService.generateAIResponse
                      (transcript lead ++ [mkEntry user userMessage None])
                      context)) w2 = (Ok aiResult, w3) /\
    turn_response out = response aiResult /\
    turn_metadata out =
      mkMetadata (intent aiResult) (handoff_required aiResult)
                 (objection_detected aiResult) /\
    db_leads w' !! leadId = Some stored /\
    db_calllogs w' = db_calllogs w ++
      [mkCallLog leadId 0 [intent aiResult] (objection_detected aiResult)
         (handoff_required aiResult)
         ("User: " +:+ userMessage +:+ JS.nl +:+ "AI: " +:+ response aiResult)] /\
    turn_lead out =
      mkLeadView leadId (name stored) (interest_score stored)
                 (course_interest stored) (status stored) /\
    name stored = name lead /\ phone stored = phone lead /\
    email stored = email lead /\ status stored = status lead /\
    attempts stored = attempts lead /\ createdAt stored = createdAt lead /\
    course_interest stored =
      (if String.eqb (course_detected aiResult) EmptyString
       then course_interest lead else course_detected aiResult).
Proof.
  intros Hrun.
  apply turn_stages in Hrun
    as (lead & w1 & context & w2 & aiResult & w3 & Hfind & Hctx & Hgen & Hp
        & Hlead & Hdb & Hlogs & _).
  apply persist_returns in Hp as (stored & Hstored & -> & Hdb' & Hlogs' & _ & _).
  rewrite Hdb, Hlead in Hstored. injection Hstored as <-.
  eexists lead, w1, context, w2, aiResult, w3, _.
  split; [done|]. split; [done|]. split; [done|]. split; [done|]. split; [done|].
  split; [by rewrite Hdb', lookup_insert_eq|].
  split; [by rewrite Hlogs', Hlogs|].
  simpl. repeat split; try done.
  by destruct (String.eqb (course_detected aiResult) EmptyString).
Qed.

Lemma turn_record_witness :
  let env := Example.env_chat (Example.reply_with 2) in
  let w := Example.world_of Example.ann in
  let w' := (run env (ConversationService.processMessage 7 Example.fees_question) w).2 in
  exists stored,
    db_leads w' !! 7%nat = Some stored /\
    course_interest stored = "B.Tech" /\ status stored = pending /\
    length (db_calllogs w') = 1%nat.
Proof.
  intros env w w'.
  destruct (turn_record env 7 Example.fees_question w Example.fees_result w')
    as (lead & w1 & context & w2 & aiResult & w3 & stored
        & Hfind & Hctx & Hgen & _ & _ & Hstored & Hlogs & _ & _ & _ & _ & Hst & _ & _
        & Hcourse).
  { vm_compute. reflexivity. }
  vm_compute in Hfind. injection Hfind as <- <-.
  vm_compute in Hctx. injection Hctx as <- <-.
  vm_compute in Hgen. injection Hgen as <- <-.
  exists stored. split; [exact Hstored|].
  split; [rewrite Hcourse; vm_compute; reflexivity|].
  split; [rewrite Hst; reflexivity|].
  rewrite Hlogs. reflexivity.
Defined.

(** The persistence stage, when it throws, whatever the store holds. *)
Lemma persist_throws_anywhere env leadId userMessage lead aiResult w e w' :
  run env (persist leadId userMessage lead aiResult) w = (Throw e, w') ->
  (db_leads w' = db_leads w /\ db_calllogs w' = db_calllogs w /\
   exists u, store_log w' = store_log w ++ [mkStoreEvent (WriteUpdate leadId u) (Some e)]) \/
  (db_calllogs w' = db_calllogs w /\
   exists u c, store_log w' = store_log w ++
     [mkStoreEvent (WriteUpdate leadId u) None; mkStoreEvent (WriteCallLog c) (Some e)]) \/
  (db_leads w !! leadId = None /\
   e = "Cannot read properties of null (reading '_id')" /\
   db_leads w' = db_leads w /\
   db_calllogs w' =
     db_calllogs w ++ [ConversationService.callLog leadId userMessage aiResult]).
Proof.
  unfold persist. simpl.
  destruct (write_fault env (S (S (ticks w)))) as [e1|] eqn:Hw1; simpl.
  { intros [= <- <-]. left. simpl. repeat split; try done. by eexists. }
  destruct (db_leads w !! leadId) as [stored|] eqn:Hs; simpl.
  - destruct (write_fault env (S (S (S (ticks w))))) as [e2|] eqn:Hw2; simpl; [|done].
    intros [= <- <-]. right. left. simpl. split; [done|].
    eexists _, _. by rewrite <- app_assoc.
  - destruct (write_fault env (S (S (S (ticks w))))) as [e2|] eqn:Hw2; simpl.
    + intros [= <- <-]. right. left. simpl. split; [done|].
      eexists _, _. by rewrite <- app_assoc.
    + intros [= <- <-]. right. right. by simpl.
Qed.

(** X10.  The two writes of a turn are not one transaction.  A turn that
    throws, run on its own, has added no call log; and either it has left
    the leads as they were, or the store had accepted its update (the lead
    carries the two new transcript entries and the new score) and then
    rejected the call-log insertion, whose error is the one thrown.  In
    that case a retry of the same message that returns leaves the message
    in the transcript twice: the two entries of the failed turn, then the
    two entries of the retry.  Beside other writers the statements behind
    the generation step still add no call log when they throw, with one
    exception: when the lead has been removed since the lookup, the update
    matches nothing, the call log is inserted all the same, and the turn
    throws a [TypeError] on the missing lead. *)
Theorem turn_throws_between_writes env leadId userMessage w e w' :
  run env (ConversationService.processMessage leadId userMessage) w = (Throw e, w') ->
  db_calllogs w' = db_calllogs w /\
  (db_leads w' = db_leads w \/
   exists lead u c t_user t_assistant reply,
     db_leads w !! leadId = Some lead /\
     db_leads w' = <[leadId := apply_update u lead]> (db_leads w) /\
     push_transcript u =
       [mkEntry user userMessage (Some t_user);
        mkEntry assistant reply (Some t_assistant)] /\
     transcript_of w' leadId = transcript_of w leadId ++ push_transcript u /\
     store_log w' = store_log w ++
       [mkStoreEvent (WriteUpdate leadId u) None;
        mkStoreEvent (WriteCallLog c) (Some e)] /\
     forall out2 w'',
       run env (ConversationService.processMessage leadId userMessage) w'
         = (Ok out2, w'') ->
       exists t3 t4,
         transcript_of w'' leadId =
           transcript_of w leadId ++
           [mkEntry user userMessage (Some t_user);
            mkEntry assistant reply (Some t_assistant)] ++
           [mkEntry user userMessage (Some t3);
            mkEntry assistant (turn_response out2) (Some t4)]) /\
  (forall lead aiResult w3 e0 w4,
     run env (persist leadId userMessage lead aiResult) w3 = (Throw e0, w4) ->
     db_calllogs w4 = db_calllogs w3 \/
     (db_leads w3 !! leadId = None /\
      e0 = "Cannot read properties of null (reading '_id')" /\
      db_leads w4 = db_leads w3 /\
      db_calllogs w4 =
        db_calllogs w3 ++ [ConversationService.callLog leadId userMessage aiResult])).
Proof.
  intros Hrun.
  assert (Hthird : forall lead aiResult w3 e0 w4,
     run env (persist leadId userMessage lead aiResult) w3 = (Throw e0, w4) ->
     db_calllogs w4 = db_calllogs w3 \/
     (db_leads w3 !! leadId = None /\
      e0 = "Cannot read properties of null (reading '_id')" /\
      db_leads w4 = db_leads w3 /\
      db_calllogs w4 =
        db_calllogs w3 ++ [ConversationService.callLog leadId userMessage aiResult])).
  { intros lead aiResult w3 e0 w4 Hp.
    apply persist_throws_anywhere in Hp as [(_ & H & _)|[(H & _)|H]]; auto. }
  destruct (turn_cases env leadId userMessage w)
    as [(e1 & _ & H)|[(_ & _ & H)|(lead & context & w2 & aiResult & w3 & _ & Hl
                                   & _ & _ & Hdb & Hlogs & Hstore & H)]];
    rewrite H in Hrun.
  - rewrite run_rethrow in Hrun. injection Hrun as <- <-.
    split; [done|]. split; [by left|done].
  - rewrite run_rethrow in Hrun. injection Hrun as <- <-.
    split; [done|]. split; [by left|done].
  - destruct (run env (persist leadId userMessage lead aiResult) w3)
      as [[o|e2] w4] eqn:Hp; [done|].
    rewrite run_rethrow in Hrun. injection Hrun as <- <-.
    assert (Hl3 : db_leads w3 !! leadId = Some lead) by (by rewrite Hdb).
    apply (persist_throws _ _ _ _ _ _ _ _ _ Hl3) in Hp
      as (Hcl & _ & _ & [[Hsame _]|[Hupd Hlog]]);
      cbn [db_calllogs db_leads store_log tick with_log_lines].
    { split; [congruence|]. split; [left; congruence|done]. }
    split; [congruence|]. split; [|done]. right.
    eexists lead, _, _, _, _, _. split; [done|].
    split; [by rewrite Hupd, Hdb|]. split; [reflexivity|].
    set (w5 := tick (with_log_lines _ w4)).
    assert (Hdb5 : db_leads w5 = db_leads w4) by done.
    clearbody w5.
    assert (Ht : transcript_of w5 leadId =
                 transcript_of w leadId ++
                 [mkEntry user userMessage (Some (clock env (ticks w3)));
                  mkEntry assistant (response aiResult)
                          (Some (clock env (S (ticks w3))))]).
    { unfold transcript_of. rewrite Hdb5, Hupd, lookup_insert_eq, Hl. done. }
    split; [exact Ht|]. split; [by rewrite Hlog, Hstore|].
    intros out2 w'' Hretry.
    apply turn_stages in Hretry
      as (lead2 & w1' & context2 & w2' & aiResult2 & w3' & _ & _ & _ & Hp2
          & Hlead2 & Hdb2 & _).
    apply persist_returns in Hp2 as (stored2 & Hstored2 & Hout2 & Hdb2' & _).
    eexists _, _. unfold transcript_of at 1. rewrite Hdb2', lookup_insert_eq.
    cbn [apply_update transcript].
    rewrite Hdb2 in Hstored2.
    unfold transcript_of in Ht. rewrite Hstored2 in Ht. rewrite Ht.
    rewrite <- app_assoc. rewrite Hout2. reflexivity.
Qed.

Lemma turn_throws_between_writes_witness :
  let env := Example.env_store_hiccup 14 in
  let w' := (run env (ConversationService.processMessage 7 Example.fees_question)
               (Example.world_of Example.ann)).2 in
  let w'' := (run env (ConversationService.processMessage 7 Example.fees_question) w').2 in
  db_calllogs w' = [] /\ length (transcript_of w' 7) = 2%nat /\
  length (transcript_of w'' 7) = 4%nat.
Proof.
  intros env w' w''.
  destruct (turn_throws_between_writes env 7
              Example.fees_question (Example.world_of Example.ann)
              "write rejected" w') as (Hlogs & Hleads & _).
  - vm_compute. reflexivity.
  - split; [exact Hlogs|]. split; [vm_compute; reflexivity|].
    destruct Hleads as [Hsame|(lead & u & c & t1 & t2 & reply & _ & _ & _ & _ & _ & Hretry)].
    + exfalso.
      assert (H : transcript_of w' 7 = transcript_of (Example.world_of Example.ann) 7).
      { unfold transcript_of. by rewrite Hsame. }
      vm_compute in H. discriminate H.
    + assert (E : exists out2,
                run env (ConversationService.processMessage 7 Example.fees_question) w'
                = (Ok out2, w'')).
      { eexists. vm_compute. reflexivity. }
      destruct E as [out2 E].
      destruct (Hretry out2 w'' E) as (t3 & t4 & Ht).
      rewrite Ht. reflexivity.
Defined.

(** ** The collaborators *)

Lemma exec_keeps_cells env {X} (op : Op X) w c :
  is_cell_store op = false -> cell c (exec env op w).2 = cell c w.
Proof.
  destruct op; simpl; try done; intros _;
    repeat match goal with
           | |- context [match ?x with _ => _ end] => destruct x
           end; done.
Qed.

Lemma persist_no_cell_store leadId userMessage lead aiResult :
  never (@is_cell_store) (persist leadId userMessage lead aiResult).
Proof. unfold persist. repeat never_step. Qed.

(** X11.  The chat model is configured lazily and once.  [getModel]
    returns exactly when a model is already set or the environment holds a
    non-empty [GROQ_API_KEY]; when it returns a model is set, so that no
    later call reads the environment; when it throws, the message says
    that the variable is not set and no model is set, so that a later
    call looks again.  Either way no request goes to the model. *)
Theorem getModel_lazy env w :
  let out := run env LLMService.getModel w in
  (out.1 = Ok tt <->
   has_model w = true \/ exists c s, getenv env "GROQ_API_KEY" = Some (String c s)) /\
  (out.1 = Ok tt -> has_model out.2 = true) /\
  (forall e, out.1 = Throw e ->
     e = "GROQ_API_KEY environment variable is not set" /\ has_model out.2 = false) /\
  (has_model w = true -> forall env', (run env' LLMService.getModel w).1 = Ok tt) /\
  model_requests out.2 = model_requests w.
Proof.
  intros out. subst out. unfold LLMService.getModel.
  rewrite run_bind_call. cbn [exec cell].
  destruct (has_model w) eqn:Hm.
  { simpl. repeat split; try done; auto.
    intros _ env'. simpl. by rewrite Hm. }
  rewrite run_bind_call. cbn [exec].
  destruct (getenv env "GROQ_API_KEY") as [[|c s]|] eqn:Hkey; simpl.
  - split; [split; [done|intros [? | (c & s & ?)]; done]|].
    split; [done|]. split; [by intros e [= <-]|]. done.
  - split; [split; [intros _; right; eauto|done]|].
    split; [done|]. split; [done|]. done.
  - split; [split; [done|intros [? | (c & s & ?)]; done]|].
    split; [done|]. split; [by intros e [= <-]|]. done.
Qed.

Lemma retrieveContext_without_client env q k f w :
  has_client w = false -> has_collection w = false ->
  let out := run env (RAGService.retrieveContext q k f) w in
  out.1 = Ok RAGService.unavailable /\
  index_requests out.2 = index_requests w /\
  has_client out.2 = false /\ has_collection out.2 = false.
Proof.
  intros Hclient Hcoll out. subst out.
  unfold RAGService.retrieveContext, RAGService.initializeCollection,
    RAGService.getChromaClient. simpl. rewrite Hcoll. simpl. rewrite Hclient. simpl.
  by rewrite Hcoll, Hclient.
Qed.

Lemma initializeChroma_sets_client env heartbeat w :
  never (@is_cell_store) heartbeat ->
  let out := run env (Chroma.initializeChroma heartbeat) w in
  has_client out.2 = true /\ has_collection out.2 = has_collection w /\
  out.1 = (run env heartbeat (tick (with_cell cell_client true (tick w)))).1.
Proof.
  intros Hhb out. subst out. unfold Chroma.initializeChroma.
  rewrite run_try_catch, run_bind_call. cbn [exec].
  rewrite run_bind_call. cbn [exec]. rewrite run_bind, run_await.
  set (w1 := tick (with_cell cell_client true (tick w))).
  pose proof (never_run (@is_cell_store) env (cell cell_client) heartbeat w1
                (fun X op w0 => exec_keeps_cells env op w0 cell_client) Hhb) as Hc.
  pose proof (never_run (@is_cell_store) env (cell cell_collection) heartbeat w1
                (fun X op w0 => exec_keeps_cells env op w0 cell_collection) Hhb) as Hk.
  destruct (run env heartbeat w1) as [[[]|e] w2]; simpl in *; by rewrite Hc, Hk.
Qed.

(** X12.  Turns without a client of the vector index, and how the client
    comes to be set.  Without client and collection, [retrieveContext]
    returns the retrieval-failure sentinel without querying the index, and
    a turn on a stored lead, the store answering, returns the handoff
    response without invoking the model and leaves client and collection
    unset, so that the same holds of a turn that follows.  That state is
    the one before [initializeChroma] has run, not the one after a failed
    startup: [initializeChroma] assigns the client before it awaits the
    heartbeat, so that whatever the heartbeat does the client is set
    afterwards; when the heartbeat fails its error is rethrown; and as
    soon as the index accepts requests [retrieveContext] queries it. *)
Theorem turn_without_index_client env leadId userMessage w lead :
  has_client w = false -> has_collection w = false ->
  read_fault env (ticks w) = None ->
  db_leads w !! leadId = Some lead ->
  (forall t, write_fault env t = None) ->
  (forall q k f,
      let out := run env (RAGService.retrieveContext q k f) w in
      out.1 = Ok RAGService.unavailable /\
      index_requests out.2 = index_requests w) /\
  (exists out w',
    run env (ConversationService.processMessage leadId userMessage) w = (Ok out, w') /\
    turn_response out = response LLMService.handoff /\
    meta_intent (turn_metadata out) = "handoff" /\
    meta_handoff_required (turn_metadata out) = true /\
    index_requests w' = index_requests w /\ model_requests w' = model_requests w /\
    has_client w' = false /\ has_collection w' = false) /\
  (forall heartbeat,
      never (@is_cell_store) heartbeat ->
      let started := run env (Chroma.initializeChroma heartbeat) w in
      has_client started.2 = true /\
      (forall e, (forall w0, (run env heartbeat w0).1 = Throw e) -> started.1 = Throw e) /\
      ((forall t, index_fault env t = None) ->
       forall q k f,
         index_requests (run env (RAGService.retrieveContext q k f) started.2).2 =
         index_requests started.2 ++
           [mkQueryParams [q] k (if (0 <? length f)%nat then Some f else None)])).
Proof.
  intros Hclient Hcoll Hread Hlead Hstore.
  split; [intros q k f; by destruct (retrieveContext_without_client env q k f w Hclient Hcoll)
                          as (? & ? & _)|].
  split.
  2:{ intros heartbeat Hhb started. subst started.
      destruct (initializeChroma_sets_client env heartbeat w Hhb) as (Hset & _ & Hres).
      split; [done|]. split; [intros e He; by rewrite Hres, He|].
      intros Hindex q k f.
      destruct (retrieveContext_queries env q k f
                  (run env (Chroma.initializeChroma heartbeat) w).2)
        as (_ & [(_ & _ & _ & _ & [Hno|(t & e & Hf)])|[Hq _]]); [congruence| |done].
      by rewrite Hindex in Hf. }
  destruct (turn_cases env leadId userMessage w)
    as [(err & Hf & _)|[(_ & Hnone & _)|(lead0 & context & w2 & aiResult & w3 & _ & Hl
                                     & Hctx & Hgen & Hdb & _ & _ & ->)]];
    [congruence|congruence|].
  rewrite run_await in Hctx.
  destruct (retrieveContext_without_client env userMessage 3 [] (tick w) Hclient Hcoll)
    as (Hr & Hq & Hc1 & Hc2).
  pose proof (keeps_model_requests env _ (tick w)
                (retrieveContext_no_invoke userMessage 3 [])) as Hm1.
  destruct (run env (RAGService.retrieveContext userMessage 3 []) (tick w)) as [r1 w1].
  simpl in Hr, Hq, Hc1, Hc2, Hctx, Hm1. subst r1. injection Hctx as <- <-.
  rewrite run_await, gate_closed in Hgen by (by right). injection Hgen as <- <-.
  set (w3 := tick (tick w1)).
  pose proof (keeps_index_requests env _ w3
                (persist_no_query leadId userMessage lead0 LLMService.handoff)) as Hq3.
  pose proof (keeps_model_requests env _ w3
                (persist_no_invoke leadId userMessage lead0 LLMService.handoff)) as Hm3.
  pose proof (never_run (@is_cell_store) env (cell cell_client) _ w3
                (fun X op w0 => exec_keeps_cells env op w0 cell_client)
                (persist_no_cell_store leadId userMessage lead0 LLMService.handoff))
    as Hc3.
  pose proof (never_run (@is_cell_store) env (cell cell_collection) _ w3
                (fun X op w0 => exec_keeps_cells env op w0 cell_collection)
                (persist_no_cell_store leadId userMessage lead0 LLMService.handoff))
    as Hc4.
  destruct (persist_succeeds env leadId userMessage lead0 LLMService.handoff
              w3 lead0 Hstore) as (out & w' & Hp & Hresp & Hflag).
  { subst w3. cbn [db_leads tick] in *. congruence. }
  pose proof Hp as Hp'.
  apply persist_returns in Hp' as (stored & _ & Hout & _).
  rewrite Hp in Hq3, Hm3, Hc3, Hc4 |- *. simpl in Hq3, Hm3, Hc3, Hc4.
  exists out, w'. split; [done|]. split; [done|].
  split; [by rewrite Hout|]. split; [done|].
  subst w3. cbn [index_requests model_requests has_client has_collection tick] in *.
  repeat split; congruence.
Qed.

Lemma turn_without_index_client_witness :
  let w := with_cell cell_client false (Example.world_of Example.ann) in
  (exists out w',
    run Example.env_no_match (ConversationService.processMessage 7 "Hello") w
      = (Ok out, w') /\
    meta_handoff_required (turn_metadata out) = true) /\
  let started := run Example.env_no_match
                   (Chroma.initializeChroma (Raise "connect ECONNREFUSED 127.0.0.1:8000"))
                   w in
  started.1 = Throw "connect ECONNREFUSED 127.0.0.1:8000" /\
  has_client started.2 = true.
Proof.
  intros w.
  destruct (turn_without_index_client Example.env_no_match 7 "Hello" w Example.ann)
    as (_ & (out & w' & Hrun & _ & _ & Hflag & _) & Hstart).
  - reflexivity.
  - reflexivity.
  - reflexivity.
  - reflexivity.
  - intros t. reflexivity.
  - split; [exists out, w'; split; [exact Hrun|exact Hflag]|].
    destruct (Hstart (Raise "connect ECONNREFUSED 127.0.0.1:8000") I)
      as (Hset & Hthrow & _).
    split; [apply Hthrow; intros w0; reflexivity|exact Hset].
Defined.

(** ** Texts *)

Lemma prefix_append n a b :
  String.prefix n a = true -> String.prefix n (a +:+ b) = true.
Proof.
  revert a. induction n as [|c n IH]; intros a; [intros _; by destruct (a +:+ b)|].
  destruct a as [|c' a]; simpl; [done|].
  destruct (ascii_dec c c'); [apply IH|done].
Qed.

Lemma includes_cons n c a :
  JS.includes n (String c a) = String.prefix n (String c a) || JS.includes n a.
Proof. reflexivity. Qed.

Lemma includes_append_l n a b :
  JS.includes n a = true -> JS.includes n (a +:+ b) = true.
Proof.
  induction a as [|c a IH].
  - destruct n; [|done]. intros _. by destruct b.
  - change (String c a +:+ b) with (String c (a +:+ b)). rewrite !includes_cons.
    intros [H|H]%orb_true_iff.
    + apply (prefix_append _ _ b) in H.
      change (String c a +:+ b) with (String c (a +:+ b)) in H. by rewrite H.
    + rewrite (IH H). apply orb_true_r.
Qed.

Lemma includes_append_r n a b :
  JS.includes n b = true -> JS.includes n (a +:+ b) = true.
Proof.
  intros H. induction a as [|c a IH]; [done|].
  change (String c a +:+ b) with (String c (a +:+ b)). rewrite includes_cons, IH.
  apply orb_true_r.
Qed.

Lemma includes_join n sep parts p :
  p ∈ parts -> JS.includes n p = true -> JS.includes n (JS.join sep parts) = true.
Proof.
  intros Hin Hp. induction parts as [|p0 rest IH]; [by apply elem_of_nil in Hin|].
  apply elem_of_cons in Hin as [-> | Hin].
  - destruct rest; simpl; [done|]. by apply includes_append_l.
  - destruct rest as [|p1 rest]; [by apply elem_of_nil in Hin|].
    change (JS.includes n (p0 +:+ sep +:+ JS.join sep (p1 :: rest)) = true).
    apply includes_append_r, includes_append_r. by apply IH.
Qed.

(** X13.  The grounding gate looks for the sentinel texts anywhere in the
    context.  When one document of the ranked list the index returns
    contains [No relevant information found] or [Unable to retrieve
    context], the context built from that list closes the gate although
    retrieval has succeeded: the generation step returns the handoff
    record without any request, the model is not invoked. *)
Theorem marker_in_document_closes_gate env history first doc w :
  doc ∈ first ->
  JS.includes "No relevant information found" doc = true \/
  JS.includes "Unable to retrieve context" doc = true ->
  let context := JS.join (JS.nl +:+ JS.nl) (imap RAGService.source_line first) in
  (forall q k f rest w0,
      has_collection w0 = true ->
      (forall t p, index_answer env t p = Ok (Some (first :: rest))) ->
      (run env (RAGService.retrieveContext q k f) w0).1 = Ok context) /\
  run env (LLMService.generateAIResponse history context) w
  = (Ok LLMService.handoff, w).
Proof.
  intros Hin Hmark context. split.
  - intros q k f rest w0 Hcoll Hanswer. unfold RAGService.retrieveContext.
    rewrite run_try_catch, run_bind_call. cbn [exec cell]. rewrite Hcoll.
    rewrite run_bind. simpl run at 1. cbv iota. rewrite run_bind_call. cbn [exec].
    by rewrite Hanswer.
  - apply list_elem_of_lookup_1 in Hin as [i Hi].
    assert (Hline : RAGService.source_line i doc ∈ imap RAGService.source_line first).
    { apply list_elem_of_lookup_2 with i. by rewrite list_lookup_imap, Hi. }
    unfold LLMService.generateAIResponse. subst context.
    destruct Hmark as [Hm|Hm].
    + rewrite (includes_join _ _ _ _ Hline); [done|].
      unfold RAGService.source_line. by do 3 apply includes_append_r.
    + rewrite (includes_join "Unable to retrieve context" _ _ _ Hline);
        [by rewrite orb_true_r|].
      unfold RAGService.source_line. by do 3 apply includes_append_r.
Qed.

Lemma marker_in_document_closes_gate_witness :
  run Example.env_no_match
    (LLMService.generateAIResponse []
       (JS.join (JS.nl +:+ JS.nl)
          (imap RAGService.source_line
             ["Hostel is optional.";
              "FAQ: No relevant information found? Ask a counselor."])))
    (Example.world_of Example.ann)
  = (Ok LLMService.handoff, Example.world_of Example.ann).
Proof.
  apply (marker_in_document_closes_gate Example.env_no_match []
           ["Hostel is optional.";
            "FAQ: No relevant information found? Ask a counselor."]
           "FAQ: No relevant information found? Ask a counselor.").
  - apply elem_of_cons. right. apply elem_of_cons. by left.
  - left. vm_compute. reflexivity.
Defined.

Lemma substring0_prefix n s : String.prefix (JS.substring0 n s) s = true.
Proof.
  unfold JS.substring0. revert s. induction n as [|n IH]; intros s.
  - by destruct s.
  - destruct s as [|c s]; simpl; [done|].
    destruct (ascii_dec c c); [apply IH|done].
Qed.

Lemma substring0_short n s :
  String.length s <= n -> JS.substring0 n s = s.
Proof.
  unfold JS.substring0. revert s. induction n as [|n IH]; intros s Hs.
  - destruct s; simpl in *; [done|lia].
  - destruct s as [|c s]; simpl in *; [done|]. f_equal. apply IH. lia.
Qed.

Lemma substring0_exact n s :
  String.length (JS.substring0 n s) = Nat.min n (String.length s).
Proof.
  unfold JS.substring0. revert s. induction n as [|n IH]; intros s.
  - by destruct s.
  - destruct s as [|c s]; simpl; [done|]. by rewrite IH.
Qed.

(** X14.  The summary a turn stores is the beginning of the recent
    lines, [role: text] each, joined by [ | ]: it is a prefix of that
    text, its length is the smaller of 500 and the length of that text,
    and it is that text itself when that has at most 500 characters. *)
Theorem generateSummary_is_prefix recentTranscript :
  let joined := JS.join " | " (map ConversationService.summary_line recentTranscript) in
  String.prefix (ConversationService.generateSummary recentTranscript) joined = true /\
  String.length (ConversationService.generateSummary recentTranscript)
  = Nat.min 500 (String.length joined) /\
  (String.length joined <= 500 ->
   ConversationService.generateSummary recentTranscript = joined).
Proof.
  intros joined. unfold ConversationService.generateSummary. fold joined.
  split; [apply substring0_prefix|]. split; [apply substring0_exact|].
  apply substring0_short.
Qed.

(** ** The collection beside retrieval, and the health check *)

(** X15.  [getCollectionStats] never throws, whatever the collection's
    [count] does.  It returns the count when the collection is set and
    [count] returns; it returns a document count of 0 when [count] throws
    and when the collection cannot be initialised for want of a client. *)
Theorem getCollectionStats_never_throws env count w :
  let out := run env (RAGCollection.getCollectionStats count) w in
  (exists stats, out.1 = Ok stats) /\
  (forall stats c w1,
      has_collection w = true ->
      run env count (tick w) = (Ok c, w1) ->
      out.1 = Ok stats -> RAGCollection.documentCount stats = c) /\
  (forall stats,
      (forall w0 r w1, run env count w0 = (r, w1) -> exists e, r = Throw e) ->
      out.1 = Ok stats -> RAGCollection.documentCount stats = 0%nat) /\
  (forall stats,
      has_collection w = false -> has_client w = false ->
      out.1 = Ok stats -> RAGCollection.documentCount stats = 0%nat).
Proof.
  intros out. subst out. unfold RAGCollection.getCollectionStats.
  rewrite run_try_catch, run_bind_call. cbn [exec cell].
  split; [|split; [|split]].
  - match goal with
    | |- context [run env ?p ?w0] => destruct (run env p w0) as [[s|e] w1]
    end; simpl; eauto.
  - intros stats c w1 Hcoll Hcount. rewrite Hcoll.
    rewrite run_bind. simpl run at 1. cbv iota.
    rewrite run_bind, run_await, Hcount. simpl. by intros [= <-].
  - intros stats Hthrows.
    rewrite run_bind.
    match goal with
    | |- context [run env ?p ?w0] => destruct (run env p w0) as [[[]|e] w1]
    end; [|simpl; by intros [= <-]].
    rewrite run_bind, run_await.
    destruct (run env count w1) as [r w2] eqn:Hc.
    destruct (Hthrows _ _ _ Hc) as [e ->]. simpl. by intros [= <-].
  - intros stats Hcoll Hclient. rewrite Hcoll.
    rewrite run_bind, run_await.
    destruct (run env RAGService.initializeCollection (tick w)) as [r1 w1] eqn:Hinit.
    apply initializeCollection_cases in Hinit as [_ Hinit].
    destruct r1 as [[]|e].
    + destruct Hinit as [_ Hc]. cbn [has_client tick] in Hc. congruence.
    + simpl. by intros [= <-].
Qed.

(** *** The ids of a batch *)

Lemma string_of_uint_digits d : occurs "_" (NilEmpty.string_of_uint d) = false.
Proof. induction d; simpl; by rewrite ?IHd. Qed.

Lemma show_nat_digits n : occurs "_" (JS.show_nat n) = false.
Proof. apply string_of_uint_digits. Qed.

Lemma show_Z_digits z : occurs "_" (JS.show_Z z) = false.
Proof.
  unfold JS.show_Z, NilZero.string_of_int, NilZero.string_of_uint.
  destruct (Z.to_int z) as [d|d]; destruct d; simpl;
    by rewrite ?string_of_uint_digits.
Qed.

Lemma show_nat_inj n m : JS.show_nat n = JS.show_nat m -> n = m.
Proof.
  unfold JS.show_nat. intros H.
  apply (f_equal NilEmpty.uint_of_string) in H. rewrite !NilEmpty.usu in H.
  injection H as H. apply (f_equal Nat.of_uint) in H.
  by rewrite !DecimalNat.Unsigned.of_to in H.
Qed.

Lemma occurs_cons c c' s :
  occurs c (String c' s) = Ascii.eqb c c' || occurs c s.
Proof. reflexivity. Qed.

(** A text is cut at its first underscore in one way only. *)
Lemma cut_at_underscore a a' b b' :
  occurs "_" a = false -> occurs "_" a' = false ->
  a +:+ "_" +:+ b = a' +:+ "_" +:+ b' -> a = a' /\ b = b'.
Proof.
  revert a'. induction a as [|c a IH]; intros [|c' a'] Ha Ha' H;
    cbn [String.append] in H.
  - by injection H.
  - injection H as <- _. by rewrite occurs_cons, Ascii.eqb_refl in Ha'.
  - injection H as -> _. by rewrite occurs_cons, Ascii.eqb_refl in Ha.
  - injection H as <- H. rewrite occurs_cons in Ha, Ha'.
    apply orb_false_elim in Ha as [_ Ha]. apply orb_false_elim in Ha' as [_ Ha'].
    destruct (IH a' Ha Ha' H) as [-> ->]. done.
Qed.

Lemma doc_id_of_inj t t' i j :
  RAGCollection.doc_id_of t i = RAGCollection.doc_id_of t' j -> i = j.
Proof.
  unfold RAGCollection.doc_id_of. intros H. simpl in H. injection H as H.
  apply cut_at_underscore in H as [_ H]; [|apply show_Z_digits..].
  by apply show_nat_inj.
Qed.

Lemma run_ids_from env docs : forall idx w,
  exists w',
    run env (RAGCollection.ids_from idx docs) w =
    (Ok (imap (fun i _ => RAGCollection.doc_id_of (clock env (ticks w + i)) (idx + i)) docs),
     w') /\
    has_collection w' = has_collection w /\ has_client w' = has_client w.
Proof.
  induction docs as [|doc docs IH]; intros idx w; [by eexists|].
  cbn [RAGCollection.ids_from]. rewrite run_bind_call. cbn [exec].
  rewrite run_bind. destruct (IH (S idx) (tick w)) as (w' & -> & Hc & Hcl).
  eexists. split; [|done]. simpl. rewrite !Nat.add_0_r. do 3 f_equal.
  apply imap_ext. intros i x _. simpl. f_equal; [f_equal|]; lia.
Qed.

Lemma ids_distinct (t : nat -> Z) {T} idx (l : list T) :
  NoDup (imap (fun i _ => RAGCollection.doc_id_of (t i) (idx + i)) l).
Proof.
  apply NoDup_alt. intros i j x Hi Hj.
  rewrite list_lookup_imap in Hi. rewrite list_lookup_imap in Hj.
  destruct (l !! i); [|done]. destruct (l !! j); [|done].
  simpl in Hi, Hj.
  assert (E : RAGCollection.doc_id_of (t i) (idx + i) =
              RAGCollection.doc_id_of (t j) (idx + j)) by congruence.
  apply doc_id_of_inj in E. lia.
Qed.

(** X16.  [addDocuments] on a collection that is set.  The clock is read
    once per document, and the collection's [add] is called once, with
    one id, one text ([pageContent], or [text] where that is empty or
    absent) and one metadata object per document; the ids of the batch
    are pairwise distinct whatever the clock says, and they do not depend
    on the documents.  When [add] returns, the result reports success and
    the number of documents; when it throws, the error is logged and
    thrown on to the caller. *)
Theorem addDocuments_batch env add docs w :
  has_collection w = true ->
  exists req w1,
    NoDup (RAGCollection.ids req) /\
    RAGCollection.ids req =
      imap (fun i _ => RAGCollection.doc_id_of (clock env (S (ticks w) + i)) i) docs /\
    RAGCollection.documents req =
      map (fun doc => RAGCollection.or (RAGCollection.pageContent doc)
                        (RAGCollection.text doc)) docs /\
    RAGCollection.metadatas req =
      map (fun doc => RAGCollection.or (RAGCollection.metadata doc) (JS.Obj [])) docs /\
    run env (RAGCollection.addDocuments add docs) w =
    match run env (add req) w1 with
    | (Ok _, w2) =>
        (Ok (RAGCollection.mkAddResult true (length docs)),
         tick (with_log_lines
                 (fun ls => ls ++ [(info, "Added " +:+ JS.show_nat (length docs) +:+
                                          " documents to ChromaDB")])
                 (tick w2)))
    | (Throw e, w2) =>
        (Throw e,
         tick (with_log_lines
                 (fun ls => ls ++ [(error, "Add Documents Error: " +:+ e)])
                 (tick w2)))
    end.
Proof.
  intros Hcoll. unfold RAGCollection.addDocuments.
  destruct (run_ids_from env docs 0 (tick w)) as (w1 & Hids & _).
  eexists (RAGCollection.mkAddRequest _ _ _), w1.
  split; [|split; [reflexivity|split; [reflexivity|split; [reflexivity|]]]].
  { cbn [RAGCollection.ids].
    apply (ids_distinct (fun i => clock env (S (ticks w) + i)) 0). }
  rewrite run_try_catch, run_bind_call. cbn [exec cell]. rewrite Hcoll.
  rewrite run_bind. simpl run at 1. cbv iota.
  rewrite run_bind, Hids. cbn [ticks tick].
  rewrite run_bind, run_await.
  destruct (run env (add _) w1) as [[[]|e] w2]; reflexivity.
Qed.

Lemma addDocuments_batch_witness :
  exists req w1,
    NoDup (RAGCollection.ids req) /\
    length (RAGCollection.ids req) = 2%nat /\
    (run Example.env_no_match
       (RAGCollection.addDocuments (fun _ => call (Sleep 1))
          [RAGCollection.mkDocument (JS.Str "Fees are listed.") JS.Undefined JS.Undefined;
           RAGCollection.mkDocument JS.Undefined (JS.Str "Hostel is optional.") JS.Undefined])
       (with_cell cell_collection true (Example.world_of Example.ann))).1
    = (run Example.env_no_match (call (Sleep 1);; Ret (RAGCollection.mkAddResult true 2))
         w1).1.
Proof.
  destruct (addDocuments_batch Example.env_no_match (fun _ => call (Sleep 1))
              [RAGCollection.mkDocument (JS.Str "Fees are listed.") JS.Undefined JS.Undefined;
               RAGCollection.mkDocument JS.Undefined (JS.Str "Hostel is optional.") JS.Undefined]
              (with_cell cell_collection true (Example.world_of Example.ann)))
    as (req & w1 & Hnd & Hids & _ & _ & Hrun).
  - reflexivity.
  - exists req, w1. split; [exact Hnd|]. split; [rewrite Hids; reflexivity|].
    rewrite Hrun. reflexivity.
Defined.

(** *** The detailed health check *)

Lemma getCollectionStats_returns env count w :
  exists stats w', run env (RAGCollection.getCollectionStats count) w = (Ok stats, w').
Proof.
  apply run_try_catch_returns. intros e w0. simpl. eauto.
Qed.

Section health.
Context (env : Env) (readyState : Proc nat) (ping : Proc unit) (count : Proc nat)
        (raced : Proc unit).

Lemma check_mongodb_cases w :
  exists d degraded w',
    run env (Health.check_mongodb readyState ping) w = (Ok (d, degraded), w') /\
    (degraded = false <-> Health.dep_status d = "connected").
Proof.
  unfold Health.check_mongodb. rewrite run_try_catch, run_bind.
  destruct (run env readyState w) as [[state|e] w1]; [|by do 3 eexists].
  destruct (state =? 1)%nat; [|by do 3 eexists].
  rewrite run_bind, run_await.
  destruct (run env ping w1) as [[[]|e] w2]; by do 3 eexists.
Qed.

Lemma check_chromadb_connected w :
  exists d w',
    run env (Health.check_chromadb count) w = (Ok (d, false), w') /\
    Health.dep_status d = "connected".
Proof.
  unfold Health.check_chromadb. rewrite run_try_catch, run_bind, run_await.
  destruct (getCollectionStats_returns env count w) as (stats & w1 & ->).
  by do 2 eexists.
Qed.

Lemma check_groq_cases w :
  exists d degraded w',
    run env (Health.check_groq raced) w = (Ok (d, degraded), w') /\
    (degraded = false <-> Health.dep_status d = "connected").
Proof.
  unfold Health.check_groq. rewrite run_try_catch, run_bind_call. cbn [exec].
  destruct (getenv env "GROQ_API_KEY") as [[|c s]|]; [by do 3 eexists| |by do 3 eexists].
  rewrite run_bind, run_await.
  destruct (run env raced (tick w)) as [[[]|e] w2]; by do 3 eexists.
Qed.
End health.

(** X17.  The detailed health check never reports the vector index as
    failing.  Whatever the four probes do, the handler answers; the entry
    for the index says [connected], because [getCollectionStats] turns
    every failure into a count of 0; the status code is 200 exactly when
    the store and the model API are reported [connected], and 503
    otherwise; [success] and the overall status say the same. *)
Theorem health_check_ignores_index env readyState ping count raced w :
  exists response w',
    run env (Health.detailed readyState ping count raced) w = (Ok response, w') /\
    Health.dep_status (Health.chromadb (Health.body_data response)) = "connected" /\
    (Health.statusCode response = 200%nat <->
     Health.dep_status (Health.mongodb (Health.body_data response)) = "connected" /\
     Health.dep_status (Health.groq (Health.body_data response)) = "connected") /\
    (Health.statusCode response = 200%nat \/ Health.statusCode response = 503%nat) /\
    (Health.body_success response = true <-> Health.statusCode response = 200%nat) /\
    (Health.health_status (Health.body_data response) = "healthy" <->
     Health.statusCode response = 200%nat).
Proof.
  unfold Health.detailed. rewrite run_bind_call. cbn [exec]. rewrite run_bind.
  destruct (check_mongodb_cases env readyState ping (tick w))
    as (m & dm & w1 & -> & Hm).
  rewrite run_bind.
  destruct (check_chromadb_connected env count w1) as (c & w2 & -> & Hc).
  rewrite run_bind.
  destruct (check_groq_cases env raced w2) as (g & dg & w3 & -> & Hg).
  do 2 eexists. split; [reflexivity|]. cbn [fst snd orb].
  rewrite orb_false_r.
  destruct dm, dg; simpl; (split; [done|]);
    repeat split; try done; try tauto; intros; try intuition congruence.
Qed.

(** ** Chunking a document *)

Lemma assoc_put key v props : JS.assoc key (DocumentIngestion.put key v props) = v.
Proof.
  induction props as [|[k x] rest IH]; simpl.
  - by rewrite String.eqb_refl.
  - destruct (String.eqb k key) eqn:E; simpl; by rewrite E.
Qed.

Lemma assoc_put_other key key' v props :
  key' <> key ->
  JS.assoc key' (DocumentIngestion.put key v props) = JS.assoc key' props.
Proof.
  intros Hne. induction props as [|[k x] rest IH]; simpl.
  - destruct (String.eqb_spec key key'); [congruence|done].
  - destruct (String.eqb_spec k key) as [->|Hk]; simpl.
    + by destruct (String.eqb_spec key key'); [congruence|].
    + by rewrite IH.
Qed.

(** The loop stops on its own once [i] has passed the last word: more
    fuel changes nothing. *)
Lemma chunk_loop_fuel words meta fuel : forall fuel' i chunks,
  length words <= i + 800 * fuel -> length words <= i + 800 * fuel' ->
  DocumentIngestion.chunk_loop fuel words meta i chunks =
  DocumentIngestion.chunk_loop fuel' words meta i chunks.
Proof.
  induction fuel as [|fuel IH]; intros fuel' i chunks H H'.
  - destruct fuel' as [|fuel']; [done|]. simpl.
    by destruct (Nat.ltb_spec i (length words)); [lia|].
  - simpl. destruct (Nat.ltb_spec i (length words)) as [Hlt|Hge].
    + destruct fuel' as [|fuel']; [lia|]. simpl.
      destruct (Nat.ltb_spec i (length words)); [|lia].
      apply IH; unfold DocumentIngestion.chunkSize, DocumentIngestion.chunkOverlap; lia.
    + destruct fuel' as [|fuel']; [done|]. simpl.
      by destruct (Nat.ltb_spec i (length words)); [lia|].
Qed.

Lemma chunk_loop_step fuel words meta i chunks :
  DocumentIngestion.chunk_loop (S fuel) words meta i chunks =
  if (i <? length words)%nat then
    DocumentIngestion.chunk_loop fuel words meta (i + 800)
      (if DocumentIngestion.not_blank (DocumentIngestion.window words i) then
         chunks ++
         [DocumentIngestion.mkChunk (DocumentIngestion.window words i)
            (DocumentIngestion.put "source"
               (RAGCollection.or (JS.assoc "source" meta) (JS.Str "unknown"))
               (DocumentIngestion.put "chunkIndex"
                  (JS.Num (inject_Z (Z.of_nat (length chunks)))) meta))]
       else chunks)
  else chunks.
Proof. reflexivity. Qed.

(** What holds of every pushed chunk at its position holds of the chunks
    the loop returns. *)
Lemma chunk_loop_each words meta (P : nat -> DocumentIngestion.Chunk -> Prop) :
  (forall k i,
      DocumentIngestion.not_blank (DocumentIngestion.window words i) = true ->
      P k (DocumentIngestion.mkChunk (DocumentIngestion.window words i)
             (DocumentIngestion.put "source"
                (RAGCollection.or (JS.assoc "source" meta) (JS.Str "unknown"))
                (DocumentIngestion.put "chunkIndex"
                   (JS.Num (inject_Z (Z.of_nat k))) meta)))) ->
  forall fuel i chunks,
    (forall k c, chunks !! k = Some c -> P k c) ->
    forall k c,
      DocumentIngestion.chunk_loop fuel words meta i chunks !! k = Some c -> P k c.
Proof.
  intros Hnew. induction fuel as [|fuel IH]; intros i chunks Hchunks k c; [apply Hchunks|].
  rewrite chunk_loop_step. destruct (i <? length words)%nat; [|apply Hchunks].
  apply IH. destruct (DocumentIngestion.not_blank _) eqn:Hnb; [|done].
  intros k' c' Hk'. apply lookup_app_Some in Hk' as [Hk'|[Hlen Hk']]; [by apply Hchunks|].
  apply list_lookup_singleton_Some in Hk' as [Hk' <-].
  replace k' with (length chunks) by lia. by apply Hnew.
Qed.

Lemma trim_empty s : JS.trim s = EmptyString -> JS.trimStart s = EmptyString.
Proof.
  unfold JS.trim. induction s as [|c s IH]; [done|]. simpl.
  destruct (JS.is_space c) eqn:Hc; [done|]. simpl. rewrite Hc.
  by destruct (JS.trimEnd s).
Qed.

Lemma fields_blank s :
  JS.trimStart s = EmptyString ->
  DocumentIngestion.fields true s = [EmptyString] /\
  (DocumentIngestion.fields false s = [EmptyString] \/
   DocumentIngestion.fields false s = [EmptyString; EmptyString]).
Proof.
  induction s as [|c s IH]; simpl; [auto|].
  destruct (JS.is_space c); [|done]. intros Hs.
  destruct (IH Hs) as [-> _]. auto.
Qed.

(** X18.  The chunks of a text.  The loop of [chunkText] ends by its own
    test (more iterations than words change nothing).  The chunk at
    position [k] of the result carries [chunkIndex] [k], so that the
    indices are consecutive from 0 also where a blank window was skipped;
    its [source] is the one of the given metadata, or [unknown] where that
    is absent or empty, and is never empty; its content is not blank; and
    every other property of the given metadata is copied as it is.  A text
    that is empty or all white space yields no chunk. *)
Theorem chunkText_numbering text meta :
  (forall fuel,
      length (DocumentIngestion.split_spaces text) <= fuel ->
      DocumentIngestion.chunk_loop fuel (DocumentIngestion.split_spaces text) meta 0 []
      = DocumentIngestion.chunkText text meta) /\
  (forall k c,
      DocumentIngestion.chunkText text meta !! k = Some c ->
      JS.assoc "chunkIndex" (DocumentIngestion.metadata c)
        = JS.Num (inject_Z (Z.of_nat k)) /\
      JS.assoc "source" (DocumentIngestion.metadata c)
        = RAGCollection.or (JS.assoc "source" meta) (JS.Str "unknown") /\
      JS.truthy (JS.assoc "source" (DocumentIngestion.metadata c)) = true /\
      JS.trim (DocumentIngestion.pageContent c) <> EmptyString /\
      forall key, key <> "chunkIndex" -> key <> "source" ->
        JS.assoc key (DocumentIngestion.metadata c) = JS.assoc key meta) /\
  (JS.trim text = EmptyString -> DocumentIngestion.chunkText text meta = []).
Proof.
  split; [|split].
  - intros fuel Hfuel. unfold DocumentIngestion.chunkText.
    apply chunk_loop_fuel; lia.
  - unfold DocumentIngestion.chunkText.
    apply (chunk_loop_each _ meta
             (fun k c =>
                JS.assoc "chunkIndex" (DocumentIngestion.metadata c)
                  = JS.Num (inject_Z (Z.of_nat k)) /\
                JS.assoc "source" (DocumentIngestion.metadata c)
                  = RAGCollection.or (JS.assoc "source" meta) (JS.Str "unknown") /\
                JS.truthy (JS.assoc "source" (DocumentIngestion.metadata c)) = true /\
                JS.trim (DocumentIngestion.pageContent c) <> EmptyString /\
                forall key, key <> "chunkIndex" -> key <> "source" ->
                  JS.assoc key (DocumentIngestion.metadata c) = JS.assoc key meta)).
    + intros k i Hnb. cbn [DocumentIngestion.metadata DocumentIngestion.pageContent].
      split; [by rewrite assoc_put_other, assoc_put|].
      split; [by rewrite assoc_put|].
      split.
      { rewrite assoc_put. unfold RAGCollection.or.
        by destruct (JS.truthy (JS.assoc "source" meta)) eqn:E. }
      split.
      { unfold DocumentIngestion.not_blank in Hnb. intros Hempty.
        by rewrite Hempty in Hnb. }
      intros key H1 H2. by rewrite !assoc_put_other.
    + intros k c Hk. by rewrite lookup_nil in Hk.
  - intros Hblank. apply trim_empty, fields_blank in Hblank as [_ Hf].
    unfold DocumentIngestion.chunkText, DocumentIngestion.split_spaces.
    destruct Hf as [-> | ->]; reflexivity.
Qed.

Lemma chunk_loop_contents words meta fuel : forall j chunks,
  length words <= 800 * (j + fuel) ->
  map DocumentIngestion.pageContent
    (DocumentIngestion.chunk_loop fuel words meta (800 * j) chunks) =
  map DocumentIngestion.pageContent chunks ++
  filter (fun chunk => DocumentIngestion.not_blank chunk = true)
    (map (fun j' => DocumentIngestion.window words (800 * j'))
       (seq j ((length words + 799) / 800 - j))).
Proof.
  pose proof (Nat.div_mod_eq (length words + 799) 800) as Hdiv.
  pose proof (Nat.mod_upper_bound (length words + 799) 800 ltac:(lia)) as Hmod.
  set (count := (length words + 799) / 800) in *.
  set (r := (length words + 799) `mod` 800) in *. clearbody count r.
  induction fuel as [|fuel IH]; intros j chunks Hfuel.
  - replace (count - j) with 0 by lia. simpl. by rewrite app_nil_r.
  - rewrite chunk_loop_step. destruct (Nat.ltb_spec (800 * j) (length words)) as [Hlt|Hge].
    + replace (800 * j + 800) with (800 * S j) by lia. rewrite IH by lia.
      replace (count - j) with (S (count - S j)) by lia.
      cbn [seq map]. rewrite filter_cons.
      destruct (DocumentIngestion.not_blank (DocumentIngestion.window words (800 * j)))
        eqn:Hnb.
      * rewrite decide_True by done. rewrite map_app. simpl. by rewrite <- app_assoc.
      * rewrite decide_False by done. done.
    + replace (count - j) with 0 by lia. simpl. by rewrite app_nil_r.
Qed.

(** X19.  The windows of [chunkText].  The contents of the chunks are,
    in order, the windows of 1000 words that start at every 800th word,
    joined by single spaces, the blank ones left out.  Every word of the
    text lies in one of these windows, and what a window holds beyond its
    800th word is the beginning of the next window, its first 200 words. *)
Theorem chunkText_windows text meta :
  let words := DocumentIngestion.split_spaces text in
  let count := (length words + 799) / 800 in
  map DocumentIngestion.pageContent (DocumentIngestion.chunkText text meta) =
    filter (fun chunk => DocumentIngestion.not_blank chunk = true)
      (map (fun j => JS.join " " (take 1000 (drop (800 * j) words))) (seq 0 count)) /\
  (forall p, p < length words ->
     exists j, j < count /\ 800 * j <= p /\
       take 1000 (drop (800 * j) words) !! (p - 800 * j) = words !! p) /\
  (forall j, drop 800 (take 1000 (drop (800 * j) words))
             = take 200 (drop (800 * (j + 1)) words)).
Proof.
  intros words count. split; [|split].
  - unfold DocumentIngestion.chunkText. fold words.
    pose proof (chunk_loop_contents words meta (length words) 0 []) as H.
    rewrite Nat.mul_0_r, Nat.sub_0_r in H. rewrite H by lia. done.
  - intros p Hp.
    pose proof (Nat.div_mod_eq (length words + 799) 800) as Hdiv.
    pose proof (Nat.mod_upper_bound (length words + 799) 800 ltac:(lia)) as Hmod.
    pose proof (Nat.div_mod_eq p 800) as Hdivp.
    pose proof (Nat.mod_upper_bound p 800 ltac:(lia)) as Hmodp.
    exists (p / 800). fold count in Hdiv.
    set (j := p / 800) in *. set (r := p `mod` 800) in *.
    set (r' := (length words + 799) `mod` 800) in *. clearbody j r r' count.
    split; [lia|]. split; [lia|].
    rewrite lookup_take_lt by lia. rewrite lookup_drop. f_equal. lia.
  - intros j. replace 1000 with (800 + 200) by lia.
    rewrite <- take_drop_commute, drop_drop. do 2 f_equal. lia.
Qed.

(** ** The JSON object in the model's reply *)

Lemma from_first_open_skips pre rest :
  occurs "{" pre = false ->
  JS.from_first_open (pre +:+ String "{" rest) = Some (String "{" rest).
Proof.
  induction pre as [|c pre IH]; [done|]. rewrite occurs_cons.
  intros [Hc Hpre]%orb_false_elim.
  change (String c pre +:+ String "{" rest) with (String c (pre +:+ String "{" rest)).
  cbn [JS.from_first_open]. rewrite Ascii.eqb_sym, Hc. by apply IH.
Qed.

Lemma from_first_open_none s :
  occurs "{" s = false -> JS.from_first_open s = None.
Proof.
  induction s as [|c s IH]; [done|]. rewrite occurs_cons.
  intros [Hc Hs]%orb_false_elim. cbn [JS.from_first_open].
  rewrite Ascii.eqb_sym, Hc. by apply IH.
Qed.

Lemma through_last_close_none s :
  occurs "}" s = false -> JS.through_last_close s = None.
Proof.
  induction s as [|c s IH]; [done|]. rewrite occurs_cons.
  intros [Hc Hs]%orb_false_elim. cbn [JS.through_last_close].
  rewrite (IH Hs), Ascii.eqb_sym, Hc. done.
Qed.

Lemma through_last_close_stops s post :
  occurs "}" post = false ->
  JS.through_last_close (s +:+ String "}" post) = Some (s +:+ "}").
Proof.
  intros Hpost. induction s as [|c s IH].
  - change (EmptyString +:+ String "}" post) with (String "}" post).
    cbn [JS.through_last_close]. by rewrite (through_last_close_none _ Hpost).
  - change (String c s +:+ String "}" post) with (String c (s +:+ String "}" post)).
    cbn [JS.through_last_close]. by rewrite IH.
Qed.

(** X20.  What the generation step takes for the JSON object of a reply:
    the text from the first opening brace through the last closing brace.
    Prose before the object that holds no opening brace and prose behind
    it that holds no closing brace are dropped; a reply without an opening
    brace, or without a closing brace behind the first opening one, holds
    no object at all. *)
Theorem json_object_of_reply pre body post :
  occurs "{" pre = false -> occurs "}" post = false ->
  JS.match_braces (pre +:+ "{" +:+ body +:+ "}" +:+ post) = Some ("{" +:+ body +:+ "}") /\
  (forall s, occurs "{" s = false -> JS.match_braces s = None) /\
  (forall s, occurs "}" s = false -> JS.match_braces (pre +:+ "{" +:+ s) = None).
Proof.
  intros Hpre Hpost. unfold JS.match_braces. split; [|split].
  - change (pre +:+ "{" +:+ body +:+ "}" +:+ post)
      with (pre +:+ String "{" (body +:+ String "}" post)).
    rewrite (from_first_open_skips _ _ Hpre).
    change (String "{" (body +:+ String "}" post))
      with (String "{" body +:+ String "}" post).
    by rewrite (through_last_close_stops _ _ Hpost).
  - intros s Hs. by rewrite from_first_open_none.
  - intros s Hs. change (pre +:+ "{" +:+ s) with (pre +:+ String "{" s).
    rewrite (from_first_open_skips _ _ Hpre).
    apply through_last_close_none. rewrite occurs_cons, Hs. done.
Qed.

Lemma json_object_of_reply_witness :
  JS.match_braces
    ("Sure! " +:+ "{" +:+ (JS.dq +:+ "intent" +:+ JS.dq +:+ ": {}") +:+ "}" +:+ " Bye.")
  = Some ("{" +:+ (JS.dq +:+ "intent" +:+ JS.dq +:+ ": {}") +:+ "}").
Proof.
  apply (json_object_of_reply "Sure! " (JS.dq +:+ "intent" +:+ JS.dq +:+ ": {}") " Bye.").
  - reflexivity.
  - reflexivity.
Defined.

(** ** The import of leads *)

Section upload.
Context (env : Env) (create : LeadsRoutes.LeadData -> Proc unit)
        (code_is_11000 : Err -> bool).

Lemma insert_one_counts acc leadData w :
  exists acc' w',
    run env (LeadsRoutes.insert_one create code_is_11000 acc leadData) w = (Ok acc', w') /\
    LeadsRoutes.insertedCount acc <= LeadsRoutes.insertedCount acc' /\
    LeadsRoutes.skippedCount acc <= LeadsRoutes.skippedCount acc' /\
    LeadsRoutes.insertedCount acc' + LeadsRoutes.skippedCount acc'
      <= LeadsRoutes.insertedCount acc + LeadsRoutes.skippedCount acc + 1 /\
    (length (LeadsRoutes.duplicateReasons acc) = LeadsRoutes.skippedCount acc ->
     length (LeadsRoutes.duplicateReasons acc') = LeadsRoutes.skippedCount acc') /\
    ((run env (create leadData) w).1 = Ok tt ->
     LeadsRoutes.insertedCount acc' = LeadsRoutes.insertedCount acc + 1 /\
     LeadsRoutes.skippedCount acc' = LeadsRoutes.skippedCount acc).
Proof.
  unfold LeadsRoutes.insert_one. rewrite run_try_catch, run_bind, run_await.
  destruct (run env (create leadData) w) as [[[]|e] w1]; cbn [fst snd].
  - do 2 eexists. split; [reflexivity|]. simpl. repeat split; try lia; try done.
  - destruct (code_is_11000 e).
    + rewrite run_bind_call. cbn [exec]. do 2 eexists. split; [reflexivity|].
      simpl. repeat split; try lia; try done.
      intros H. rewrite length_app. simpl. lia.
    + rewrite run_bind_call. cbn [exec]. do 2 eexists. split; [reflexivity|].
      simpl. repeat split; try lia; try done.
Qed.

Lemma insert_all_counts leads : forall acc w,
  exists acc' w',
    run env (LeadsRoutes.insert_all create code_is_11000 acc leads) w = (Ok acc', w') /\
    LeadsRoutes.insertedCount acc <= LeadsRoutes.insertedCount acc' /\
    LeadsRoutes.skippedCount acc <= LeadsRoutes.skippedCount acc' /\
    LeadsRoutes.insertedCount acc' + LeadsRoutes.skippedCount acc'
      <= LeadsRoutes.insertedCount acc + LeadsRoutes.skippedCount acc + length leads /\
    (length (LeadsRoutes.duplicateReasons acc) = LeadsRoutes.skippedCount acc ->
     length (LeadsRoutes.duplicateReasons acc') = LeadsRoutes.skippedCount acc') /\
    ((forall d w0, (run env (create d) w0).1 = Ok tt) ->
     LeadsRoutes.insertedCount acc' = LeadsRoutes.insertedCount acc + length leads /\
     LeadsRoutes.skippedCount acc' = LeadsRoutes.skippedCount acc).
Proof.
  induction leads as [|d rest IH]; intros acc w.
  - do 2 eexists. split; [reflexivity|]. simpl. repeat split; try lia; try done.
  - cbn [LeadsRoutes.insert_all]. rewrite run_bind.
    destruct (insert_one_counts acc d w) as (acc1 & w1 & -> & Hi & Hs & Hsum & Hdup & Hok).
    destruct (IH acc1 w1) as (acc2 & w2 & -> & Hi2 & Hs2 & Hsum2 & Hdup2 & Hok2).
    do 2 eexists. split; [reflexivity|]. simpl.
    split; [lia|]. split; [lia|]. split; [lia|]. split; [auto|].
    intros Hall. destruct (Hok (Hall d w)) as [E1 E2].
    destruct (Hok2 Hall) as [E3 E4]. lia.
Qed.
End upload.

(** X21.  The accounting of an import.  With a file uploaded, its rows
    read and the file removed: if no row has a non-empty name, phone and
    email, the handler throws [No valid leads found in CSV]; otherwise it
    returns, whatever [Lead.create] does for the single leads, and reports
    as total the number of rows kept, an inserted and a skipped count
    whose sum does not exceed the total, and the duplicates, one for each
    lead skipped, absent when none was skipped.  If every creation
    succeeds, all are inserted and none is skipped. *)
Theorem upload_accounting env create code_is_11000 read unlink w rows w1 w2 :
  run env read w = (Ok rows, w1) ->
  run env unlink (tick w1) = (Ok tt, w2) ->
  let out := run env (LeadsRoutes.upload_leads create code_is_11000 read unlink true) w in
  (LeadsRoutes.parsed rows = [] -> out = (Throw "No valid leads found in CSV", w2)) /\
  (LeadsRoutes.parsed rows <> [] ->
   exists data,
     out.1 = Ok data /\
     LeadsRoutes.total data = length (LeadsRoutes.parsed rows) /\
     LeadsRoutes.inserted data + LeadsRoutes.skipped data <= LeadsRoutes.total data /\
     match LeadsRoutes.duplicates data with
     | None => LeadsRoutes.skipped data = 0%nat
     | Some reasons =>
         length reasons = LeadsRoutes.skipped data /\ 0 < LeadsRoutes.skipped data
     end /\
     ((forall d w0, (run env (create d) w0).1 = Ok tt) ->
      LeadsRoutes.inserted data = LeadsRoutes.total data /\
      LeadsRoutes.skipped data = 0%nat)).
Proof.
  intros Hread Hunlink out. subst out. unfold LeadsRoutes.upload_leads.
  cbn [negb]. rewrite run_bind, run_await, Hread. cbn [fst snd].
  rewrite run_bind, Hunlink.
  destruct (LeadsRoutes.parsed rows) as [|d leads] eqn:Hparsed.
  { split; [done|]. by intros H. }
  split; [done|]. intros _. cbn [length Nat.eqb]. rewrite run_bind.
  destruct (insert_all_counts env create code_is_11000 (d :: leads)
              (LeadsRoutes.mkCounters 0 0 []) w2)
    as (acc & w3 & -> & _ & _ & Hsum & Hdup & Hok).
  rewrite run_bind_call. cbn [exec]. eexists. split; [reflexivity|].
  cbn [LeadsRoutes.total LeadsRoutes.inserted LeadsRoutes.skipped LeadsRoutes.duplicates
       LeadsRoutes.insertedCount LeadsRoutes.skippedCount LeadsRoutes.duplicateReasons] in *.
  specialize (Hdup eq_refl).
  split; [done|]. split; [simpl in Hsum; lia|]. split.
  - destruct (Nat.ltb_spec 0 (length (LeadsRoutes.duplicateReasons acc))); lia.
  - intros Hall. destruct (Hok Hall). simpl in *. lia.
Qed.

Lemma upload_accounting_witness :
  exists data,
    (run Example.env_no_match
       (LeadsRoutes.upload_leads (fun _ => call (Sleep 1)) (fun _ => false)
          (Ret Samples.two_rows) (Ret tt) true)
       (Example.world_of Example.ann)).1 = Ok data /\
    LeadsRoutes.total data = 1%nat /\ LeadsRoutes.inserted data = 1%nat.
Proof.
  destruct (upload_accounting Example.env_no_match (fun _ => call (Sleep 1))
              (fun _ => false) (Ret Samples.two_rows) (Ret tt)
              (Example.world_of Example.ann) Samples.two_rows
              (Example.world_of Example.ann) (tick (Example.world_of Example.ann)))
    as [_ H].
  - reflexivity.
  - reflexivity.
  - destruct H as (data & Hrun & Htotal & _ & _ & Hall); [by vm_compute|].
    exists data. split; [exact Hrun|]. split; [exact Htotal|].
    destruct Hall as [Hin _]; [intros d w0; reflexivity|].
    rewrite Hin. exact Htotal.
Defined.

(** *** The rows kept *)

Lemma trimEnd_idempotent s : JS.trimEnd (JS.trimEnd s) = JS.trimEnd s.
Proof.
  induction s as [|c s IH]; [done|]. cbn [JS.trimEnd].
  destruct (JS.trimEnd s) as [|d r] eqn:E.
  - destruct (JS.is_space c) eqn:Hc; [done|]. cbn [JS.trimEnd]. by rewrite Hc.
  - cbn [JS.trimEnd]. cbn [JS.trimEnd] in IH. by rewrite IH.
Qed.

Lemma trimStart_fixed c s :
  JS.is_space c = false -> JS.trimStart (String c s) = String c s.
Proof. intros Hc. cbn [JS.trimStart]. by rewrite Hc. Qed.

Lemma trimEnd_keeps_head c s :
  JS.is_space c = false -> exists r, JS.trimEnd (String c s) = String c r.
Proof.
  intros Hc. cbn [JS.trimEnd]. destruct (JS.trimEnd s); [rewrite Hc|]; eauto.
Qed.

Lemma trimStart_head s :
  JS.trimStart s = EmptyString \/
  exists c r, JS.trimStart s = String c r /\ JS.is_space c = false.
Proof.
  induction s as [|c s IH]; [by left|]. cbn [JS.trimStart].
  destruct (JS.is_space c) eqn:Hc; [done|]. right. eauto.
Qed.

Lemma trim_idempotent s : JS.trim (JS.trim s) = JS.trim s.
Proof.
  unfold JS.trim. destruct (trimStart_head s) as [->|(c & r & -> & Hc)]; [done|].
  destruct (trimEnd_keeps_head c r Hc) as [r' E]. rewrite E.
  rewrite (trimStart_fixed _ _ Hc), <- E. apply trimEnd_idempotent.
Qed.

Lemma lower_unit_idempotent c :
  LeadsRoutes.lower_unit (LeadsRoutes.lower_unit c) = LeadsRoutes.lower_unit c.
Proof. destruct c as [[] [] [] [] [] [] [] []]; reflexivity. Qed.

Lemma toLowerCase_idempotent s :
  LeadsRoutes.toLowerCase (LeadsRoutes.toLowerCase s) = LeadsRoutes.toLowerCase s.
Proof.
  induction s as [|c s IH]; [done|]. simpl. by rewrite lower_unit_idempotent, IH.
Qed.

Lemma parsed_from rows : forall leads,
  fold_left LeadsRoutes.on_data rows leads =
  leads ++ concat (map (LeadsRoutes.on_data []) rows).
Proof.
  induction rows as [|row rows IH]; intros leads; simpl; [by rewrite app_nil_r|].
  rewrite IH. rewrite app_assoc. f_equal.
  unfold LeadsRoutes.on_data.
  destruct (LeadsRoutes.row_name row) as [[|a n]|]; try by rewrite app_nil_r.
  destruct (LeadsRoutes.row_phone row) as [[|b p]|]; try by rewrite app_nil_r.
  destruct (LeadsRoutes.row_email row) as [[|c e]|]; try by rewrite app_nil_r.
  done.
Qed.

(** X22.  The rows an import keeps.  No more leads are kept than the file
    has rows, and in the order of the rows.  Every lead kept is [pending];
    its name and phone are trimmed (trimming them again changes nothing)
    and its email is in lower case.  A row is kept as soon as its three
    fields are non-empty, before trimming: a name that consists of white
    space only is kept as the empty name. *)
Theorem parsed_rows_normalised rows :
  length (LeadsRoutes.parsed rows) <= length rows /\
  (forall d, d ∈ LeadsRoutes.parsed rows ->
     LeadsRoutes.lead_status d = pending /\
     JS.trim (LeadsRoutes.lead_name d) = LeadsRoutes.lead_name d /\
     JS.trim (LeadsRoutes.lead_phone d) = LeadsRoutes.lead_phone d /\
     LeadsRoutes.toLowerCase (LeadsRoutes.lead_email d) = LeadsRoutes.lead_email d) /\
  (forall more, LeadsRoutes.parsed (rows ++ more) =
                LeadsRoutes.parsed rows ++ LeadsRoutes.parsed more) /\
  (forall c blanks phone email,
     JS.trim (String c blanks) = EmptyString ->
     phone <> EmptyString -> email <> EmptyString ->
     exists d, LeadsRoutes.parsed
                 [LeadsRoutes.mkRow (Some (String c blanks)) (Some phone) (Some email)]
               = [d] /\
               LeadsRoutes.lead_name d = EmptyString).
Proof.
  unfold LeadsRoutes.parsed. split; [|split; [|split]].
  - rewrite parsed_from. simpl. induction rows as [|row rows IH]; simpl; [lia|].
    rewrite length_app.
    assert (length (LeadsRoutes.on_data [] row) <= 1); [|lia].
    unfold LeadsRoutes.on_data.
    destruct (LeadsRoutes.row_name row) as [[|a n]|]; simpl; try lia.
    destruct (LeadsRoutes.row_phone row) as [[|b p]|]; simpl; try lia.
    destruct (LeadsRoutes.row_email row) as [[|c e]|]; simpl; lia.
  - intros d. rewrite parsed_from. simpl. intros Hd.
    apply list_elem_of_In, in_concat in Hd as (l & Hl & Hd).
    apply in_map_iff in Hl as (row & <- & _).
    unfold LeadsRoutes.on_data in Hd.
    destruct (LeadsRoutes.row_name row) as [[|a n]|]; try done.
    destruct (LeadsRoutes.row_phone row) as [[|b p]|]; try done.
    destruct (LeadsRoutes.row_email row) as [[|c e]|]; try done.
    destruct Hd as [<-|[]].
    cbn [LeadsRoutes.lead_status LeadsRoutes.lead_name LeadsRoutes.lead_phone
         LeadsRoutes.lead_email].
    split; [done|]. split; [apply trim_idempotent|]. split; [apply trim_idempotent|].
    apply toLowerCase_idempotent.
  - intros more. rewrite !parsed_from. simpl. by rewrite map_app, concat_app.
  - intros c blanks phone email Hblank Hphone Hemail.
    destruct phone as [|b p]; [done|]. destruct email as [|e0 e]; [done|].
    eexists. split; [reflexivity|].
    cbn [LeadsRoutes.lead_name]. exact Hblank.
Qed.

(** ** Turns and queue passes side by side *)

Section pool_invariant.
Context (env : Env) (bad : forall X, Op X -> bool) (I : World -> Prop).
Context (Hexec : forall X (op : Op X) w, bad X op = false -> I w -> I (exec env op w).2).

Lemma settle_inv {A} (p : Proc A) w :
  never bad p -> I w -> never bad (settle env p w).1 /\ I (settle env p w).2.
Proof.
  revert w. induction p as [a|e|X op k IH]; intros w Hp Hw; simpl; try done.
  destruct (is_await op); [done|].
  destruct Hp as [Hop Hk]. pose proof (Hexec X op w Hop Hw) as Hw1.
  destruct (exec env op w) as [r w1]. by apply IH.
Qed.

Lemma step_inv {A} (c c' : list (Proc A) * World) :
  step env c c' -> Forall (never bad) c.1 -> I c.2 ->
  Forall (never bad) c'.1 /\ I c'.2.
Proof.
  intros [ps w i X op k r w1 p' w2 Hi Hawait Hex Hsettle] Hps Hw. simpl in *.
  pose proof (Forall_lookup_1 _ _ _ _ Hps Hi) as [Hop Hk].
  pose proof (Hexec X op w Hop Hw) as Hw1. rewrite Hex in Hw1.
  destruct (settle_inv (k r) w1 (Hk r) Hw1) as [Hp' Hw2].
  rewrite Hsettle in Hp', Hw2. split; [|done]. by apply Forall_insert.
Qed.

Lemma steps_inv {A} (c c' : list (Proc A) * World) :
  steps env c c' -> Forall (never bad) c.1 -> I c.2 ->
  Forall (never bad) c'.1 /\ I c'.2.
Proof.
  induction 1 as [c|c1 c2 c3 Hstep _ IH]; [done|].
  intros Hps Hw. destruct (step_inv _ _ Hstep Hps Hw). by apply IH.
Qed.

Lemma spawn_all_inv {A} (ps : list (Proc A)) c :
  Forall (never bad) ps -> Forall (never bad) c.1 -> I c.2 ->
  Forall (never bad) (spawn_all env ps c).1 /\ I (spawn_all env ps c).2.
Proof.
  unfold spawn_all. revert c.
  induction ps as [|p ps IH]; intros c Hps Hc Hw; simpl; [done|].
  apply Forall_cons in Hps as [Hp Hps].
  apply IH; [done| |]; unfold spawn;
    destruct (settle_inv p c.2 Hp Hw) as [H1 H2];
    destruct (settle env p c.2) as [p' w']; simpl in *; [|done].
  apply Forall_app. split; [done|]. by apply Forall_singleton.
Qed.
End pool_invariant.

Lemma exec_keeps_call_state env w0 {X} (op : Op X) w :
  is_doc_save op = false ->
  kept (fun l l' => same_identity l l' /\ same_call_state l l') w0 w ->
  kept (fun l l' => same_identity l l' /\ same_call_state l l') w0 (exec env op w).2.
Proof.
  intros Hop Hw.
  destruct op; simpl in Hop; try done; simpl;
    repeat match goal with
           | |- context [match read_fault ?e ?t with _ => _ end] =>
               destruct (read_fault e t)
           | |- context [match write_fault ?e ?t with _ => _ end] =>
               destruct (write_fault e t)
           | |- context [match JSON_parse ?e ?t with _ => _ end] =>
               destruct (JSON_parse e t)
           | |- context [match index_fault ?e ?t with _ => _ end] =>
               destruct (index_fault e t)
           | |- context [match docs ?w !! ?d with _ => _ end] =>
               destruct (docs w !! d)
           end; try done.
  destruct (db_leads w !! id) as [l|] eqn:Hl; [|done].
  intros id'. specialize (Hw id'). simpl.
  destruct (decide (id' = id)) as [->|Hne].
  - rewrite lookup_insert_eq. rewrite Hl in Hw.
    destruct (db_leads w0 !! id) as [l0|]; [|done].
    destruct Hw as (l' & [= <-] & Hid & Hcs). eexists. split; [done|]. done.
  - by rewrite lookup_insert_ne.
Qed.

Lemma exec_keeps_conversation env w0 {X} (op : Op X) w :
  is_lead_update op = false ->
  kept (fun l l' => same_identity l l' /\ same_conversation l l') w0 w ->
  kept (fun l l' => same_identity l l' /\ same_conversation l l') w0 (exec env op w).2.
Proof.
  intros Hop Hw.
  destruct op; simpl in Hop; try done; simpl;
    repeat match goal with
           | |- context [match read_fault ?e ?t with _ => _ end] =>
               destruct (read_fault e t)
           | |- context [match JSON_parse ?e ?t with _ => _ end] =>
               destruct (JSON_parse e t)
           | |- context [match index_fault ?e ?t with _ => _ end] =>
               destruct (index_fault e t)
           end; try done.
  - destruct (docs w !! d) as [doc|]; [|done].
    destruct (modified_status doc || modified_attempts doc); [|done].
    destruct (write_fault env (ticks w)); [done|].
    destruct (db_leads w !! doc_id doc) as [l|] eqn:Hl; [|done].
    intros id'. specialize (Hw id'). simpl.
    destruct (decide (id' = doc_id doc)) as [->|Hne].
    + rewrite lookup_insert_eq. rewrite Hl in Hw.
      destruct (db_leads w0 !! doc_id doc) as [l0|]; [|done].
      destruct Hw as (l' & [= <-] & Hid & Hcs). eexists. split; [done|]. done.
    + by rewrite lookup_insert_ne.
  - by destruct (write_fault env (ticks w)).
  - by destruct (docs w !! d).
Qed.

Lemma processMessage_no_save leadId userMessage :
  never (@is_doc_save) (ConversationService.processMessage leadId userMessage).
Proof.
  unfold ConversationService.processMessage, RAGService.retrieveContext,
    RAGService.initializeCollection, RAGService.getChromaClient,
    RAGService.collectionName, LLMService.generateAIResponse, LLMService.getModel.
  repeat never_step.
Qed.

Lemma processCallQueue_no_update :
  never (@is_lead_update) CallWorker.processCallQueue.
Proof.
  unfold CallWorker.processCallQueue, CallWorker.processCallQueueWith,
    CallWorker.processLead, CallWorker.attempt, CallWorker.recover,
    CallWorker.applyOutcome, CallWorker.simulateCallOutcome.
  repeat never_step.
Qed.

Lemma kept_refl (R : Lead -> Lead -> Prop) w :
  (forall l, R l l) -> kept R w w.
Proof. intros HR id. destruct (db_leads w !! id) as [l|]; eauto. Qed.

(** X23.  Conversation turns and queue passes write disjoint fields, in
    every interleaving.  However many turns run side by side, and however
    the event loop interleaves them, the store holds the same leads
    afterwards, each with its name, phone, email, creation time, status
    and attempts as before.  However many firings of the periodic trigger
    and manual triggers run side by side, the store holds the same leads
    afterwards, each with its name, phone, email, creation time,
    transcript, interest score, course interest and summary as before. *)
Theorem services_own_their_fields env w :
  (forall (turns : list (LeadId * string)) c,
      steps env
        (spawn_all env
           (map (fun t => ConversationService.processMessage t.1 t.2) turns) ([], w)) c ->
      kept (fun l l' => same_identity l l' /\ same_call_state l l') w c.2) /\
  (forall (triggers : list (Proc unit)) c,
      Forall (fun p => p = CallWorker.scheduled \/ p = CallWorker.triggerManually)
             triggers ->
      steps env (spawn_all env triggers ([], w)) c ->
      kept (fun l l' => same_identity l l' /\ same_conversation l l') w c.2).
Proof.
  split.
  - intros turns c Hsteps.
    destruct (spawn_all_inv env (@is_doc_save)
                (kept (fun l l' => same_identity l l' /\ same_call_state l l') w)
                (fun X op w1 => exec_keeps_call_state env w op w1)
                (map (fun t => ConversationService.processMessage t.1 t.2) turns)
                ([], w)) as [Hps Hw].
    + apply Forall_fmap, Forall_forall. intros t _. apply processMessage_no_save.
    + done.
    + apply kept_refl. intros l. by repeat split.
    + by destruct (steps_inv env (@is_doc_save) _
                     (fun X op w1 => exec_keeps_call_state env w op w1) _ _ Hsteps Hps Hw).
  - intros triggers c Htriggers Hsteps.
    destruct (spawn_all_inv env (@is_lead_update)
                (kept (fun l l' => same_identity l l' /\ same_conversation l l') w)
                (fun X op w1 => exec_keeps_conversation env w op w1)
                triggers ([], w)) as [Hps Hw].
    + eapply Forall_impl; [exact Htriggers|]. intros p [-> | ->].
      * unfold CallWorker.scheduled. repeat never_step.
        all: apply processCallQueue_no_update.
      * unfold CallWorker.triggerManually. repeat never_step.
        all: apply processCallQueue_no_update.
    + done.
    + apply kept_refl. intros l. by repeat split.
    + by destruct (steps_inv env (@is_lead_update) _
                     (fun X op w1 => exec_keeps_conversation env w op w1) _ _ Hsteps Hps Hw).
Qed.
